(** * Response-lifecycle guard of Qolaba-Proxy

    Shallow embedding of [src/utils/responseState.js] (class [ResponseState],
    [withStreamingErrorBoundary], class [SafeSSEWriter]) and of
    [src/utils/responseManager.js] (class [ResponseManager]), followed by the
    properties of the guard.

    JavaScript is single threaded: a synchronous block runs to completion and
    an [await] suspends the running async function until a later microtask.
    Methods are therefore state transformers that may return or throw, and an
    async method is cut at its [await] into the part that runs at the call and
    the part that runs when the microtask is resumed. *)

From Stdlib Require Import List String Ascii Bool ZArith Lia Arith.
Import ListNotations.
Open Scope string_scope.

(** ** Completions and the state-and-exception monad *)

(** A thrown JavaScript error, identified by its [message]. *)
Definition Error := string.

Inductive Completion (A : Type) : Type :=
| Normal (a : A)        (* the call returned [a] *)
| Throw (e : Error)     (* the call threw [e] *)
| OutOfFuel.            (* the model's recursion budget was exhausted *)
Arguments Normal {A} a.
Arguments Throw {A} e.
Arguments OutOfFuel {A}.

Definition M (S A : Type) : Type := S -> S * Completion A.

Definition ret {S A} (a : A) : M S A := fun s => (s, Normal a).
Definition throw {S A} (e : Error) : M S A := fun s => (s, Throw e).

Definition bind {S A B} (m : M S A) (k : A -> M S B) : M S B :=
  fun s =>
    match m s with
    | (s', Normal a) => k a s'
    | (s', Throw e) => (s', Throw e)
    | (s', OutOfFuel) => (s', OutOfFuel)
    end.

Declare Scope js_scope.
Delimit Scope js_scope with js.
Notation "x <- m ;; k" := (bind m (fun x => k))
  (at level 100, m at next level, right associativity) : js_scope.
Notation "m ;; k" := (bind m (fun _ => k))
  (at level 100, right associativity) : js_scope.
Open Scope js_scope.

Definition gets {S A} (f : S -> A) : M S A := fun s => (s, Normal (f s)).
Definition modify {S} (f : S -> S) : M S unit := fun s => (f s, Normal tt).

(** [try { m } catch (error) { h error }] *)
Definition try_catch {S A} (m : M S A) (h : Error -> M S A) : M S A :=
  fun s =>
    match m s with
    | (s', Throw e) => h e s'
    | r => r
    end.

(** [try { m } finally { f }]: [f] always runs; the completion of [m] is kept
    unless [f] itself completes abruptly. *)
Definition try_finally {S A} (m : M S A) (f : M S unit) : M S A :=
  fun s =>
    match m s with
    | (s', r) =>
        match f s' with
        | (s'', Normal _) => (s'', r)
        | (s'', Throw e) => (s'', Throw e)
        | (s'', OutOfFuel) => (s'', OutOfFuel)
        end
    end.

(** A promise as a continuation observes it: settled one way or the other. *)
Inductive Promise : Type :=
| Fulfilled
| Rejected (e : Error).

(** Calling an async function whose body has no [await]: the body runs at the
    call and the promise that comes back is already settled. *)
Definition promise_of {S A} (m : M S A) : M S Promise :=
  fun s =>
    match m s with
    | (s', Normal _) => (s', Normal Fulfilled)
    | (s', Throw e) => (s', Normal (Rejected e))
    | (s', OutOfFuel) => (s', OutOfFuel)
    end.

(** What the code after [await p] sees once it is resumed. *)
Definition await {S} (p : Promise) : M S unit :=
  match p with
  | Fulfilled => ret tt
  | Rejected e => throw e
  end.

(** ** Properties of computations *)

(** [m] never throws and never runs out of budget. *)
Definition returns {S A} (m : M S A) : Prop :=
  forall s, exists a, snd (m s) = Normal a.

(** [m] returns or throws: it never runs out of budget. *)
Definition defined {S A} (m : M S A) : Prop :=
  forall s, snd (m s) <> OutOfFuel.

(** Whatever [m] does, the state it leaves is related by [R] to the state it
    found. *)
Definition keeps {S A} (R : S -> S -> Prop) (m : M S A) : Prop :=
  forall s, R s (fst (m s)).

(** Run calls one after the other, whatever each one's completion. *)
Fixpoint run_calls {S A} (ms : list (M S A)) (s : S) : S * list (Completion A) :=
  match ms with
  | [] => (s, [])
  | m :: rest =>
      let '(s1, c) := m s in
      let '(s2, cs) := run_calls rest s1 in
      (s2, c :: cs)
  end.

(** ** The transport and the observable trace *)

Definition Headers := list (string * string).

(** Calls that reach the real [http.ServerResponse] (the saved
    [originalWriteHead], [originalWrite], [originalEnd]) or its socket. *)
Inductive TCall : Type :=
| OriginalWriteHead (statusCode : Z) (headers : Headers)
| OriginalWrite (data : string)
| OriginalEnd (data : option string)
| SocketDestroy.

(** The transport answers a call by returning (a truthy or falsy value) or by
    throwing. *)
Inductive TOutcome : Type :=
| Returns (v : bool)
| Raises (e : Error).

(** The transport is an external collaborator: its answer may depend on every
    call it has received so far (oldest first) and on the present call. *)
Definition Transport := list TCall -> TCall -> TOutcome.

Inductive Level : Type := Debug | Warn | ErrorLevel.

Inductive Event : Type :=
| Real (c : TCall)                               (* a call reached the transport *)
| Log (l : Level) (message detail : string)      (* logger.debug/warn/error *)
| PerformBegin                                   (* _performTermination entered *)
| PerformEnd                                     (* _performTermination left *)
| CallSettled (id : nat) (p : Promise)           (* promise of call [id] settled *)
| CallbackInvoked (id : nat) (endedFlag : bool). (* end-callback [id] started *)

Fixpoint transport_calls (t : list Event) : list TCall :=
  match t with
  | [] => []
  | Real c :: t' => c :: transport_calls t'
  | _ :: t' => transport_calls t'
  end.

Definition is_end_call (e : Event) : bool :=
  match e with Real (OriginalEnd _) => true | _ => false end.
Definition is_writeHead_call (e : Event) : bool :=
  match e with Real (OriginalWriteHead _ _) => true | _ => false end.
Definition is_socket_destroy (e : Event) : bool :=
  match e with Real SocketDestroy => true | _ => false end.
Definition is_perform_begin (e : Event) : bool :=
  match e with PerformBegin => true | _ => false end.
Definition is_callback (e : Event) : bool :=
  match e with CallbackInvoked _ _ => true | _ => false end.

Definition count (p : Event -> bool) (t : list Event) : nat :=
  List.length (filter p t).

(** Characters that a Rocq string literal cannot spell. *)
Definition LF : string := String (ascii_of_nat 10) EmptyString.
Definition DQ : string := String (ascii_of_nat 34) EmptyString.
Definition BACKSLASH : string := String (ascii_of_nat 92) EmptyString.

(** * [ResponseState] *)

Module State.

Record ResponseState : Type := mkResponseState {
  requestId : string;
  isHeadersSent : bool;
  isEnded : bool;
  isDestroyed : bool;
  isStreaming : bool;
  streamingCompleted : bool;
  isTerminationInProgress : bool;
  terminationLock : Promise;
  terminationReason : option string;
  (* [this.res]: the wrapped transport *)
  res : Transport;
  socketDestroyable : bool; (* res.socket && typeof res.socket.destroy === 'function' *)
  (* everything observable so far: transport calls, log lines, ghost marks *)
  trace : list Event
}.

Definition set_isHeadersSent (b : bool) (s : ResponseState) : ResponseState :=
  mkResponseState (requestId s) b (isEnded s) (isDestroyed s) (isStreaming s)
    (streamingCompleted s) (isTerminationInProgress s) (terminationLock s)
    (terminationReason s) (res s) (socketDestroyable s) (trace s).
Definition set_isEnded (b : bool) (s : ResponseState) : ResponseState :=
  mkResponseState (requestId s) (isHeadersSent s) b (isDestroyed s) (isStreaming s)
    (streamingCompleted s) (isTerminationInProgress s) (terminationLock s)
    (terminationReason s) (res s) (socketDestroyable s) (trace s).
Definition set_isDestroyed (b : bool) (s : ResponseState) : ResponseState :=
  mkResponseState (requestId s) (isHeadersSent s) (isEnded s) b (isStreaming s)
    (streamingCompleted s) (isTerminationInProgress s) (terminationLock s)
    (terminationReason s) (res s) (socketDestroyable s) (trace s).
Definition set_isStreaming (b : bool) (s : ResponseState) : ResponseState :=
  mkResponseState (requestId s) (isHeadersSent s) (isEnded s) (isDestroyed s) b
    (streamingCompleted s) (isTerminationInProgress s) (terminationLock s)
    (terminationReason s) (res s) (socketDestroyable s) (trace s).
Definition set_streamingCompleted (b : bool) (s : ResponseState) : ResponseState :=
  mkResponseState (requestId s) (isHeadersSent s) (isEnded s) (isDestroyed s)
    (isStreaming s) b (isTerminationInProgress s) (terminationLock s)
    (terminationReason s) (res s) (socketDestroyable s) (trace s).
Definition set_isTerminationInProgress (b : bool) (s : ResponseState) : ResponseState :=
  mkResponseState (requestId s) (isHeadersSent s) (isEnded s) (isDestroyed s)
    (isStreaming s) (streamingCompleted s) b (terminationLock s)
    (terminationReason s) (res s) (socketDestroyable s) (trace s).
Definition set_terminationLock (p : Promise) (s : ResponseState) : ResponseState :=
  mkResponseState (requestId s) (isHeadersSent s) (isEnded s) (isDestroyed s)
    (isStreaming s) (streamingCompleted s) (isTerminationInProgress s) p
    (terminationReason s) (res s) (socketDestroyable s) (trace s).
Definition set_terminationReason (r : option string) (s : ResponseState) : ResponseState :=
  mkResponseState (requestId s) (isHeadersSent s) (isEnded s) (isDestroyed s)
    (isStreaming s) (streamingCompleted s) (isTerminationInProgress s)
    (terminationLock s) r (res s) (socketDestroyable s) (trace s).
Definition set_trace (t : list Event) (s : ResponseState) : ResponseState :=
  mkResponseState (requestId s) (isHeadersSent s) (isEnded s) (isDestroyed s)
    (isStreaming s) (streamingCompleted s) (isTerminationInProgress s)
    (terminationLock s) (terminationReason s) (res s) (socketDestroyable s) t.

(** [new ResponseState(res, requestId)] *)
Definition new_ResponseState (res0 : Transport) (socket : bool) (id : string)
  : ResponseState :=
  mkResponseState id false false false false false false Fulfilled None
    res0 socket [].

Definition emit (e : Event) : M ResponseState unit :=
  modify (fun s => set_trace (trace s ++ [e]) s).

(** The logger is a collaborator that records and returns. *)
Definition log (l : Level) (message detail : string) : M ResponseState unit :=
  emit (Log l message detail).

(** A call to one of the saved original methods: it is recorded, and the
    transport decides whether it returns or throws. *)
Definition original (c : TCall) : M ResponseState bool :=
  fun s =>
    let s' := set_trace (trace s ++ [Real c]) s in
    match res s (transport_calls (trace s)) c with
    | Returns v => (s', Normal v)
    | Raises e => (s', Throw e)
    end.

(** *** The methods installed on [res] by [_overrideMethods] *)

Definition res_writeHead (statusCode : Z) (headers : Headers) : M ResponseState bool :=
  sent <- gets isHeadersSent ;;
  if sent then
    log Warn "Attempted to write headers after they were already sent" "" ;;
    ret false
  else
    modify (set_isHeadersSent true) ;;
    original (OriginalWriteHead statusCode headers).

Definition res_write (data : string) : M ResponseState bool :=
  ended <- gets isEnded ;;
  if ended then
    log Warn "Attempted to write to ended response" "" ;;
    ret false
  else
    destroyed <- gets isDestroyed ;;
    if destroyed then
      log Warn "Attempted to write to destroyed response" "" ;;
      ret false
    else
      original (OriginalWrite data).

Definition mark_completed_if_streaming : M ResponseState unit :=
  streaming <- gets isStreaming ;;
  completed <- gets streamingCompleted ;;
  if streaming && negb completed then modify (set_streamingCompleted true)
  else ret tt.

Definition res_end (data : option string) : M ResponseState bool :=
  ended <- gets isEnded ;;
  if ended then
    log Warn "Attempted to end already ended response" "" ;;
    ret false
  else
    modify (set_isEnded true) ;;
    mark_completed_if_streaming ;;
    original (OriginalEnd data).

Definition res_safeWriteHead (statusCode : Z) (headers : Headers) : M ResponseState bool :=
  sent <- gets isHeadersSent ;;
  ended <- gets isEnded ;;
  if negb sent && negb ended then original (OriginalWriteHead statusCode headers)
  else ret false.

Definition res_safeWrite (data : string) : M ResponseState bool :=
  ended <- gets isEnded ;;
  destroyed <- gets isDestroyed ;;
  if negb ended && negb destroyed then original (OriginalWrite data)
  else ret false.

Definition res_safeEnd (data : option string) : M ResponseState bool :=
  ended <- gets isEnded ;;
  destroyed <- gets isDestroyed ;;
  if negb ended && negb destroyed then
    modify (set_isEnded true) ;;
    mark_completed_if_streaming ;;
    original (OriginalEnd data)
  else ret false.

Definition canWrite (s : ResponseState) : bool :=
  negb (isEnded s) && negb (isDestroyed s).

Definition canWriteHeaders (s : ResponseState) : bool :=
  negb (isHeadersSent s) && negb (isEnded s) && negb (isDestroyed s).

Definition res_canWrite : M ResponseState bool := gets canWrite.
Definition res_canWriteHeaders : M ResponseState bool := gets canWriteHeaders.

Definition res_markStreamingStarted : M ResponseState unit :=
  modify (set_isStreaming true).
Definition res_markStreamingCompleted : M ResponseState unit :=
  modify (set_streamingCompleted true).

(** *** The methods of the class *)

Definition safeWriteHeaders (statusCode : Z) (headers : Headers) : M ResponseState bool :=
  try_catch
    (can <- res_canWriteHeaders ;;
     if can then
       res_writeHead statusCode headers ;;
       ret true
     else ret false)
    (fun error =>
       log ErrorLevel "Failed to write headers" error ;;
       ret false).

Definition safeWrite (data : string) : M ResponseState bool :=
  try_catch
    (can <- res_canWrite ;;
     if can then res_write data
     else ret false)
    (fun error =>
       log ErrorLevel "Failed to write response data" error ;;
       ret false).

Definition safeEnd (data : option string) : M ResponseState bool :=
  try_catch
    (can <- res_canWrite ;;
     if can then
       res_end data ;;
       ret true
     else ret false)
    (fun error =>
       log ErrorLevel "Failed to end response" error ;;
       ret false).

(** [async _performTermination(reason)]: the body has no [await], so it runs
    wholly at the call; a throw becomes the rejection of its promise. *)
Definition _performTermination (reason : string) : M ResponseState unit :=
  try_catch
    (ended <- gets isEnded ;;
     can <- res_canWrite ;;
     (if negb ended && can then
        log Debug "Ending response during coordinated termination" reason ;;
        safeEnd None ;;
        ret tt
      else
        log Debug "Skipping response end - already ended or cannot write" reason) ;;
     streaming <- gets isStreaming ;;
     completed <- gets streamingCompleted ;;
     if streaming && negb completed then
       modify (set_streamingCompleted true) ;;
       log Debug "Marked streaming as completed during termination" reason
     else ret tt)
    (fun error =>
       log ErrorLevel "Error during termination execution" error ;;
       throw error).

Definition destroy : M ResponseState unit :=
  modify (set_isDestroyed true) ;;
  modify (set_isEnded true) ;;
  has <- gets socketDestroyable ;;
  if has then
    try_catch
      (original SocketDestroy ;; ret tt)
      (fun error => log Warn "Failed to destroy response socket" error)
  else ret tt.

Definition canTerminate (s : ResponseState) : bool :=
  negb (isTerminationInProgress s) && negb (isDestroyed s).

(** *** Coordinated termination

    [async coordinatedTermination(reason)] suspends once, at
    [await this.terminationLock].  [Pending] is the suspended call: which of
    the two awaits it sits at, and the promise it captured there. *)
Inductive Pending : Type :=
| Joined (lock : Promise)                     (* line 201 *)
| Driving (reason : string) (lock : Promise). (* line 218 *)

Section Coordination.

(** [this._performTermination] is looked up on the instance when it is
    called; [perform] stands for the method found there.  The class's own
    method is [_performTermination] above. *)
Variable perform : string -> M ResponseState unit.

(** The part that runs at the call, up to the [await]. *)
Definition coordinatedTermination_enter_with (reason : string) : M ResponseState Pending :=
  inProgress <- gets isTerminationInProgress ;;
  if inProgress then
    log Debug "Termination already in progress, waiting" reason ;;
    lock <- gets terminationLock ;;
    ret (Joined lock)
  else
    modify (set_isTerminationInProgress true) ;;
    modify (set_terminationReason (Some reason)) ;;
    log Debug "Starting coordinated termination" reason ;;
    emit PerformBegin ;;
    lock <- promise_of (perform reason) ;;
    emit PerformEnd ;;
    modify (set_terminationLock lock) ;;
    ret (Driving reason lock).

End Coordination.

(** The part that runs when the microtask resumes the call. *)
Definition coordinatedTermination_resume (p : Pending) : M ResponseState unit :=
  match p with
  | Joined lock =>
      await lock ;;
      ret tt
  | Driving reason lock =>
      try_finally
        (try_catch
           (await lock)
           (fun error => log Warn "Error during coordinated termination" error))
        (modify (set_isTerminationInProgress false))
  end.

Definition coordinatedTermination_enter : string -> M ResponseState Pending :=
  coordinatedTermination_enter_with _performTermination.

(** *** [SafeSSEWriter] *)

Definition truthy (o : option string) : bool :=
  match o with
  | Some t => negb (t =? "")
  | None => false
  end.

(** [data] is the outcome of [JSON.stringify(data)]: the text, or the error
    it throws. *)
Definition writeEvent (data : Error + string) (eventType : option string)
  : M ResponseState bool :=
  can <- res_canWrite ;;
  if negb can then ret false
  else
    try_catch
      (json <- match data with inr j => ret j | inl e => throw e end ;;
       let sseData := "data: " ++ json ++ LF ++ LF in
       let sseData :=
         if truthy eventType
         then "event: " ++ match eventType with Some t => t | None => "" end
                ++ LF ++ sseData
         else sseData in
       safeWrite sseData)
      (fun error =>
         log ErrorLevel "Failed to write SSE event" error ;;
         ret false).

(** The literal of line 447, ['data: [DONE]\\n\\n']: in a JavaScript string
    literal [\\] is one backslash, so the value ends in backslash, n,
    backslash, n. *)
Definition DONE_LITERAL : string :=
  "data: [DONE]" ++ BACKSLASH ++ "n" ++ BACKSLASH ++ "n".

Definition writeDone : M ResponseState bool :=
  can <- res_canWrite ;;
  if negb can then ret false
  else
    try_catch
      (safeWrite DONE_LITERAL)
      (fun error =>
         log ErrorLevel "Failed to write SSE DONE" error ;;
         ret false).

(** *** Everything a caller can do to one [ResponseState] in one synchronous
    stretch.  Code that shares the response (the route handler, the timeout
    manager, a disconnect listener) is a list of these. *)
Inductive Op : Type :=
| OpWriteHead (statusCode : Z) (headers : Headers)       (* res.writeHead *)
| OpWrite (data : string)                                (* res.write *)
| OpEnd (data : option string)                           (* res.end *)
| OpResSafeWriteHead (statusCode : Z) (headers : Headers)
| OpResSafeWrite (data : string)
| OpResSafeEnd (data : option string)
| OpMarkStreamingStarted
| OpMarkStreamingCompleted
| OpSafeWriteHeaders (statusCode : Z) (headers : Headers)
| OpSafeWrite (data : string)
| OpSafeEnd (data : option string)
| OpTerminate (reason : string)        (* coordinatedTermination, up to its await *)
| OpResume (p : Pending)               (* a suspended coordinatedTermination resumes *)
| OpDestroy
| OpWriteEvent (data : Error + string) (eventType : option string)
| OpWriteDone.

Definition ignore {S A} (m : M S A) : M S unit := m ;; ret tt.

Definition op_call (o : Op) : M ResponseState unit :=
  match o with
  | OpWriteHead c h => ignore (res_writeHead c h)
  | OpWrite d => ignore (res_write d)
  | OpEnd d => ignore (res_end d)
  | OpResSafeWriteHead c h => ignore (res_safeWriteHead c h)
  | OpResSafeWrite d => ignore (res_safeWrite d)
  | OpResSafeEnd d => ignore (res_safeEnd d)
  | OpMarkStreamingStarted => res_markStreamingStarted
  | OpMarkStreamingCompleted => res_markStreamingCompleted
  | OpSafeWriteHeaders c h => ignore (safeWriteHeaders c h)
  | OpSafeWrite d => ignore (safeWrite d)
  | OpSafeEnd d => ignore (safeEnd d)
  | OpTerminate r => ignore (coordinatedTermination_enter r)
  | OpResume p => coordinatedTermination_resume p
  | OpDestroy => destroy
  | OpWriteEvent d t => ignore (writeEvent d t)
  | OpWriteDone => ignore writeDone
  end.

(** The state an operation leaves behind, whether it returned or threw. *)
Definition exec_op (o : Op) (s : ResponseState) : ResponseState := fst (op_call o s).

Definition exec_ops (ops : list Op) (s : ResponseState) : ResponseState :=
  fold_left (fun acc o => exec_op o acc) ops s.

(** Other code runs while the present call is suspended. *)
Definition interleave (ops : list Op) : M ResponseState unit := modify (exec_ops ops).

(** One whole call [await this.coordinatedTermination(reason)] as its caller
    lives it: [others] is what the rest of the program does to the response
    between the call and its resumption. *)
Definition coordinatedTermination (reason : string) (others : list Op)
  : M ResponseState unit :=
  p <- coordinatedTermination_enter reason ;;
  interleave others ;;
  coordinatedTermination_resume p.

(** *** [withStreamingErrorBoundary] *)

(** An async function handed to the boundary: what it does to the response
    before its promise settles, and how the promise settles. *)
Inductive Outcome (A : Type) : Type :=
| Resolves (a : A)
| RejectsWith (e : Error).
Arguments Resolves {A} a.
Arguments RejectsWith {A} e.

Record AsyncFn (A : Type) : Type := mkAsyncFn {
  fn_body : list Op;
  fn_settles : Outcome A
}.
Arguments mkAsyncFn {A} fn_body fn_settles.
Arguments fn_body {A} a.
Arguments fn_settles {A} a.

(** [await f(...)] *)
Definition await_call {A} (f : AsyncFn A) : M ResponseState A :=
  interleave (fn_body f) ;;
  match fn_settles f with
  | Resolves a => ret a
  | RejectsWith e => throw e
  end.

(** The headers of the boundary's error response (lines 364-367). *)
Definition errorHeaders : Headers :=
  [("Content-Type", "application/json"); ("Connection", "close")].

(** [JSON.stringify(errorResponse)] (lines 369-377). *)
Definition errorResponse : string :=
  "{" ++ DQ ++ "error" ++ DQ ++ ":{"
      ++ DQ ++ "message" ++ DQ ++ ":" ++ DQ ++ "Internal streaming error" ++ DQ ++ ","
      ++ DQ ++ "type" ++ DQ ++ ":" ++ DQ ++ "api_error" ++ DQ ++ ","
      ++ DQ ++ "code" ++ DQ ++ ":" ++ DQ ++ "streaming_error" ++ DQ ++ "}}".

(** Lines 352-359: [others] runs while coordinatedTermination is suspended,
    [later] between the settling of its promise and the resumption of the
    boundary. *)
Definition boundary_terminate (others later : list Op) : M ResponseState unit :=
  try_catch
    (settled <- promise_of (coordinatedTermination "error_boundary" others) ;;
     interleave later ;;
     await settled)
    (fun terminationError =>
       log Warn "Coordinated termination failed in error boundary" terminationError).

(** Lines 361-391. *)
Definition boundary_error_response : M ResponseState unit :=
  can <- res_canWriteHeaders ;;
  if can then
    try_catch
      (safeWriteHeaders 500 errorHeaders ;;
       safeWrite errorResponse ;;
       safeEnd None ;;
       ret tt)
      (fun writeError =>
         log ErrorLevel "Failed to send error response in stream" writeError)
  else
    log Debug "Skipping error response - headers already sent or response ended" "".

(** Lines 393-403. *)
Definition boundary_error_handler (error : Error)
    (errorHandler : option (Error -> AsyncFn unit)) : M ResponseState unit :=
  match errorHandler with
  | Some handler =>
      try_catch
        (await_call (handler error))
        (fun handlerError => log ErrorLevel "Error handler failed" handlerError)
  | None => ret tt
  end.

(** The [catch (error)] block of the boundary. *)
Definition boundary_catch {A} (error : Error)
    (errorHandler : option (Error -> AsyncFn unit)) (others later : list Op)
  : M ResponseState A :=
  log ErrorLevel "Streaming error boundary triggered" error ;;
  boundary_terminate others later ;;
  boundary_error_response ;;
  boundary_error_handler error errorHandler ;;
  destroy ;;
  throw error.

Definition withStreamingErrorBoundary {A} (fn : AsyncFn A)
    (errorHandler : option (Error -> AsyncFn unit)) (others later : list Op)
  : M ResponseState A :=
  try_catch
    (await_call fn)
    (fun error => boundary_catch error errorHandler others later).

(** *** Concurrent calls of [coordinatedTermination]

    The microtask queue is first-in first-out.  Both awaits wait on a promise
    that is already settled, so each call's continuation is queued at the
    call and runs at its turn. *)
Record World : Type := mkWorld {
  w_state : ResponseState;
  w_queue : list (nat * Pending);   (* suspended calls, oldest first *)
  w_next : nat                      (* number of calls made so far *)
}.

Inductive Action : Type :=
| Invoke (reason : string)   (* someone calls coordinatedTermination(reason) *)
| Tick.                      (* the event loop runs the next microtask *)

Definition settle (id : nat) (c : Completion unit) : M ResponseState unit :=
  match c with
  | Normal _ => emit (CallSettled id Fulfilled)
  | Throw e => emit (CallSettled id (Rejected e))
  | OutOfFuel => ret tt
  end.

Section Scheduler.

Variable perform : string -> M ResponseState unit.

Definition step_with (a : Action) (w : World) : World :=
  match a with
  | Invoke reason =>
      match coordinatedTermination_enter_with perform reason (w_state w) with
      | (s, Normal p) => mkWorld s (w_queue w ++ [(w_next w, p)]) (S (w_next w))
      | (s, Throw e) =>
          (* a throw before the first await rejects the call's promise *)
          mkWorld (fst (emit (CallSettled (w_next w) (Rejected e)) s))
                  (w_queue w) (S (w_next w))
      | (s, OutOfFuel) => mkWorld s (w_queue w) (S (w_next w))
      end
  | Tick =>
      match w_queue w with
      | [] => w
      | (id, p) :: rest =>
          let '(s, c) := coordinatedTermination_resume p (w_state w) in
          mkWorld (fst (settle id c s)) rest (w_next w)
      end
  end.

Definition run_with (sched : list Action) (w : World) : World :=
  fold_left (fun acc a => step_with a acc) sched w.

End Scheduler.

Definition step := step_with _performTermination.
Definition run := run_with _performTermination.

Definition start (s : ResponseState) : World := mkWorld s [] 0.

(** *** Relations between the states of one response *)

(** Terminal writes still owed to the transport: the ones it has received,
    plus one while [isEnded] is unset. *)
Definition end_budget (s : ResponseState) : nat :=
  count is_end_call (trace s) + (if isEnded s then 0 else 1).

(** [s'] is a later state of the response [s]: the three lifecycle flags only
    go from false to true, the transport is the same object, the past of the
    trace is kept, and no terminal write was added beyond the budget. *)
Record evolves (s s' : ResponseState) : Prop := mkEvolves {
  ev_ended : isEnded s = true -> isEnded s' = true;
  ev_destroyed : isDestroyed s = true -> isDestroyed s' = true;
  ev_headers : isHeadersSent s = true -> isHeadersSent s' = true;
  ev_res : res s' = res s;
  ev_socket : socketDestroyable s' = socketDestroyable s;
  ev_trace : exists new, trace s' = (trace s ++ new)%list;
  ev_budget : end_budget s' <= end_budget s
}.

(** While a termination episode is in progress the response can no longer be
    written: the flag is raised in the same synchronous stretch that runs
    [_performTermination]. *)
Definition grounded (s : ResponseState) : Prop :=
  isTerminationInProgress s = true -> canWrite s = false.

(** Events of the response proper, as opposed to the marks of the
    termination protocol. *)
Definition is_plain (e : Event) : bool :=
  match e with
  | Real _ | Log _ _ _ => true
  | _ => false
  end.

(** The states a program can bring a fresh [ResponseState] to. *)
Definition reachable (s : ResponseState) : Prop :=
  exists res0 socket id ops, s = exec_ops ops (new_ResponseState res0 socket id).

(** Calls of the two guarded writers, for runs that mix them. *)
Inductive WriteCall : Type :=
| CallSafeWrite (data : string)
| CallSafeWriteHeaders (statusCode : Z) (headers : Headers).

Definition write_call (c : WriteCall) : M ResponseState bool :=
  match c with
  | CallSafeWrite d => safeWrite d
  | CallSafeWriteHeaders code h => safeWriteHeaders code h
  end.

(** A run of calls of [safeWriteHeaders], by their arguments. *)
Definition header_calls (args : list (Z * Headers)) : list (M ResponseState bool) :=
  map (fun a => safeWriteHeaders (fst a) (snd a)) args.

Definition is_true (c : Completion bool) : bool :=
  match c with Normal true => true | _ => false end.

Definition is_normal {A} (c : Completion A) : bool :=
  match c with Normal _ => true | _ => false end.

(** The state in which the boundary, having caught the handler's failure
    and waited for coordinated termination, evaluates
    [responseState.res.canWriteHeaders()] (line 362). *)
Definition boundary_state_at_check {A} (fn : AsyncFn A) (error : Error)
    (others later : list Op) (s : ResponseState) : ResponseState :=
  fst ((interleave (fn_body fn) ;;
        log ErrorLevel "Streaming error boundary triggered" error ;;
        boundary_terminate others later) s).

(** A termination operation that fails: what [_performTermination] comes to
    when a collaborator it calls throws [e] inside its [try] block, whose
    [catch] logs the error and throws it again (lines 259-266). *)
Definition failing_perform (e : Error) (reason : string) : M ResponseState unit :=
  log ErrorLevel "Error during termination execution" e ;;
  throw e.

(** The line a call logs when it joins an episode already in progress. *)
Definition join_log (reason : string) : Event :=
  Log Debug "Termination already in progress, waiting" reason.

(** The line the call that starts an episode logs. *)
Definition start_log (reason : string) : Event :=
  Log Debug "Starting coordinated termination" reason.

Definition is_settled (e : Event) : bool :=
  match e with CallSettled _ _ => true | _ => false end.

(** The frame the stream terminator is specified to be: [data: [DONE]] and
    two line feeds. *)
Definition DONE_FRAME : string := "data: [DONE]" ++ LF ++ LF.

End State.

(** * [ResponseManager] *)

Module Manager.

(** What an end-callback may do, as far as the manager can tell: call
    [res.end] again, write headers through [res.writeHead], let some other
    writer make the transport send its headers, or throw. *)
Inductive CbStep : Type :=
| CallEnd (chunk : option string)
| CallWriteHead (statusCode : Z) (headers : Headers)
| TransportSendsHeaders
| Raise (e : Error).

Record Callback : Type := mkCallback {
  cb_id : nat;               (* which callback this is, for the trace *)
  cb_body : list CbStep
}.

Record ResponseManager : Type := mkResponseManager {
  requestId : string;
  isEnded : bool;
  endCallbacks : list Callback;
  headersSent : bool;
  (* [this.res] *)
  res : Transport;
  res_headersSent : bool;    (* res.headersSent, the transport's own flag *)
  trace : list Event
}.

Definition set_isEnded (b : bool) (s : ResponseManager) : ResponseManager :=
  mkResponseManager (requestId s) b (endCallbacks s) (headersSent s) (res s)
    (res_headersSent s) (trace s).
Definition set_endCallbacks (l : list Callback) (s : ResponseManager) : ResponseManager :=
  mkResponseManager (requestId s) (isEnded s) l (headersSent s) (res s)
    (res_headersSent s) (trace s).
Definition set_headersSent (b : bool) (s : ResponseManager) : ResponseManager :=
  mkResponseManager (requestId s) (isEnded s) (endCallbacks s) b (res s)
    (res_headersSent s) (trace s).
Definition set_res_headersSent (b : bool) (s : ResponseManager) : ResponseManager :=
  mkResponseManager (requestId s) (isEnded s) (endCallbacks s) (headersSent s) (res s)
    b (trace s).
Definition set_trace (t : list Event) (s : ResponseManager) : ResponseManager :=
  mkResponseManager (requestId s) (isEnded s) (endCallbacks s) (headersSent s) (res s)
    (res_headersSent s) t.

(** [new ResponseManager(res, requestId)]; [sent] is [res.headersSent] at
    that time. *)
Definition new_ResponseManager (res0 : Transport) (sent : bool) (id : string)
  : ResponseManager :=
  mkResponseManager id false [] false res0 sent [].

Definition emit (e : Event) : M ResponseManager unit :=
  modify (fun s => set_trace (trace s ++ [e]) s).

Definition log (l : Level) (message detail : string) : M ResponseManager unit :=
  emit (Log l message detail).

(** A call to a saved original method.  A header write that returns leaves
    the transport with [headersSent] set. *)
Definition original (c : TCall) : M ResponseManager bool :=
  fun s =>
    let s' := set_trace (trace s ++ [Real c]) s in
    match res s (transport_calls (trace s)) c with
    | Returns v =>
        (match c with
         | OriginalWriteHead _ _ => set_res_headersSent true s'
         | _ => s'
         end, Normal v)
    | Raises e => (s', Throw e)
    end.

Definition onEnd (callback : Callback) : M ResponseManager unit :=
  modify (fun s => set_endCallbacks (endCallbacks s ++ [callback]) s).

Definition hasEnded (s : ResponseManager) : bool := isEnded s.

Definition areHeadersSent (s : ResponseManager) : bool :=
  headersSent s || res_headersSent s.

(** The shim installed by [_trackHeaders]. *)
Definition res_writeHead (statusCode : Z) (headers : Headers) : M ResponseManager bool :=
  modify (set_headersSent true) ;;
  original (OriginalWriteHead statusCode headers).

(** [for (const x of l) { body x }] *)
Fixpoint for_of {S A} (l : list A) (body : A -> M S unit) : M S unit :=
  match l with
  | [] => ret tt
  | x :: rest => body x ;; for_of rest body
  end.

Section Callbacks.

(** [res.end] as the callback finds it on the response. *)
Variable end_ : option string -> M ResponseManager unit.

Definition run_step (a : CbStep) : M ResponseManager unit :=
  match a with
  | CallEnd chunk => end_ chunk
  | CallWriteHead c h => res_writeHead c h ;; ret tt
  | TransportSendsHeaders => modify (set_res_headersSent true)
  | Raise e => throw e
  end.

(** [callback()]; the trace notes the [isEnded] flag the callback finds. *)
Definition call_callback (callback : Callback) : M ResponseManager unit :=
  flag <- gets isEnded ;;
  emit (CallbackInvoked (cb_id callback) flag) ;;
  for_of (cb_body callback) run_step.

(** Lines 40-56. *)
Definition run_callbacks (callbacks : list Callback) : M ResponseManager unit :=
  for_of callbacks (fun callback =>
    try_catch
      (call_callback callback)
      (fun error =>
         log ErrorLevel "End callback failed" error ;;
         sent <- gets areHeadersSent ;;
         if negb sent then throw error else ret tt)).

End Callbacks.

(** Lines 58-63: the call of the saved [originalEnd], without arguments once
    the manager has seen the headers written. *)
Definition forward_end (chunk : option string) : M ResponseManager unit :=
  sent <- gets headersSent ;;
  if sent then original (OriginalEnd None) ;; ret tt
  else original (OriginalEnd chunk) ;; ret tt.

(** The function installed as [res.end] by [_overrideEnd].  A callback may
    call it again, so it is defined with a budget of nested calls. *)
Fixpoint res_end (fuel : nat) (chunk : option string) : M ResponseManager unit :=
  match fuel with
  | O => fun s => (s, OutOfFuel)
  | S fuel' =>
      ended <- gets isEnded ;;
      if ended then
        log Debug "Response already ended, skipping" ""
      else
        modify (set_isEnded true) ;;
        callbacks <- gets endCallbacks ;;
        run_callbacks (res_end fuel') callbacks ;;
        forward_end chunk
  end.

(** The state a call of [res.end] leaves behind. *)
Definition after_end (fuel : nat) (chunk : option string) (s : ResponseManager)
  : ResponseManager := fst (res_end fuel chunk s).

Definition callback_ids (t : list Event) : list nat :=
  flat_map (fun e => match e with CallbackInvoked id _ => [id] | _ => [] end) t.

Definition callback_flags (t : list Event) : list bool :=
  flat_map (fun e => match e with CallbackInvoked _ b => [b] | _ => [] end) t.

(** The argument the saved [originalEnd] is called with. *)
Definition forwarded (chunk : option string) (s : ResponseManager) : option string :=
  if headersSent s then None else chunk.

(** The manager as it was found, with one more line in the trace. *)
Definition logged (e : Event) (s : ResponseManager) : ResponseManager :=
  set_trace (trace s ++ [e]) s.

(** What a callback running inside [res.end] can change: the flag stays set,
    the registry is the same, headers once sent stay sent, and the trace
    only grows, by events that are neither the start of a callback nor a
    terminal write. *)
Record during (s s' : ResponseManager) : Prop := mkDuring {
  du_ended : isEnded s' = true;
  du_callbacks : endCallbacks s' = endCallbacks s;
  du_sent : areHeadersSent s = true -> areHeadersSent s' = true;
  du_res : res s' = res s;
  du_trace : exists new,
      trace s' = (trace s ++ new)%list /\
      count is_callback new = 0 /\ count is_end_call new = 0
}.

Definition inside_end (s s' : ResponseManager) : Prop :=
  isEnded s = true -> during s s'.

(** Register callbacks in order on a fresh manager. *)
Definition register (callbacks : list Callback) (s : ResponseManager) : ResponseManager :=
  fold_left (fun acc cb => fst (onEnd cb acc)) callbacks s.

(** Three callbacks for examples: one calls [res.end] again, one writes
    headers and then fails, one does nothing. *)
Definition example_callbacks : list Callback :=
  [ mkCallback 0 [CallEnd None];
    mkCallback 1 [CallWriteHead 200 []; Raise "metrics failed"];
    mkCallback 2 [] ].

(** Two callbacks of which the first fails before any header is written. *)
Definition failing_callbacks : list Callback :=
  [ mkCallback 0 [Raise "boom"]; mkCallback 1 [] ].

Definition example_manager (callbacks : list Callback) : ResponseManager :=
  register callbacks (new_ResponseManager (fun _ _ => Returns true) false "req-1").

(** A computation that, started inside [res.end], stays inside it and comes
    to an end. *)
Definition runs_inside_end (m : M ResponseManager unit) : Prop :=
  forall s, isEnded s = true ->
            during s (fst (m s)) /\ snd (m s) <> OutOfFuel.

(** The line logged for a callback that threw [e]. *)
Definition callback_failed (e : Error) : Event :=
  Log ErrorLevel "End callback failed" e.

(** What the callback loop over [cbs] has done when it stops in [s'], having
    started in [s]: [new] is what it added to the trace and [k] the number of
    callbacks it called. *)
Record looped (cbs : list Callback) (s s' : ResponseManager)
    (new : list Event) (k : nat) : Prop := mkLooped {
  lo_trace : trace s' = (trace s ++ new)%list;
  lo_ids : callback_ids new = firstn k (map cb_id cbs);
  lo_flags : callback_flags new = repeat true k;
  lo_no_end : count is_end_call new = 0;
  lo_ended : isEnded s' = true;
  lo_callbacks : endCallbacks s' = endCallbacks s;
  lo_sent : areHeadersSent s = true -> areHeadersSent s' = true;
  lo_res : res s' = res s
}.

End Manager.

(** * Further notions for [ResponseState] *)

Module StateProps.

Import State.

(** A body chunk or a terminal write reaching the transport. *)
Definition is_write_or_end (e : Event) : bool :=
  match e with
  | Real (OriginalWrite _) | Real (OriginalEnd _) => true
  | _ => false
  end.

(** [s'] is a later state of [s] as far as streaming and closing go: the
    flags [isEnded], [isStreaming] and [streamingCompleted] are never
    cleared, and once [isEnded] is set neither a chunk nor a terminal write
    is added to the trace. *)
Record steady (s s' : ResponseState) : Prop := mkSteady {
  sd_ended : isEnded s = true -> isEnded s' = true;
  sd_streaming : isStreaming s = true -> isStreaming s' = true;
  sd_completed : streamingCompleted s = true -> streamingCompleted s' = true;
  sd_quiet : exists new,
      trace s' = (trace s ++ new)%list /\
      (isEnded s = true -> count is_write_or_end new = 0)
}.

(** Header writes still owed to the transport: the ones it has received,
    plus one while [isHeadersSent] is unset. *)
Definition header_budget (s : ResponseState) : nat :=
  count is_writeHead_call (trace s) + (if isHeadersSent s then 0 else 1).

Definition header_once (s s' : ResponseState) : Prop :=
  header_budget s' <= header_budget s.

(** [res.safeWriteHead] is the one entry point that calls the saved
    [originalWriteHead] without recording it in [isHeadersSent]. *)
Definition uses_res_safeWriteHead (o : Op) : bool :=
  match o with
  | OpResSafeWriteHead _ _ => true
  | _ => false
  end.

Definition guarded_ops (ops : list Op) : bool :=
  forallb (fun o => negb (uses_res_safeWriteHead o)) ops.

(** Calls of [res.safeWriteHead], by their arguments. *)
Definition raw_header_calls (args : list (Z * Headers)) : list (M ResponseState bool) :=
  map (fun a => res_safeWriteHead (fst a) (snd a)) args.

(** The frame of one server-sent event: the [data:] line, after an [event:]
    line when an event type other than the empty string is given. *)
Definition sse_frame (json : string) (eventType : option string) : string :=
  match eventType with
  | Some t =>
      if t =? "" then "data: " ++ json ++ LF ++ LF
      else "event: " ++ t ++ LF ++ "data: " ++ json ++ LF ++ LF
  | None => "data: " ++ json ++ LF ++ LF
  end.

(** *** The event loop, for any schedule *)

Definition lock_of (p : Pending) : Promise :=
  match p with
  | Joined lock => lock
  | Driving _ lock => lock
  end.

Definition is_driving (entry : nat * Pending) : bool :=
  match snd entry with
  | Driving _ _ => true
  | Joined _ => false
  end.

Definition is_rejected (e : Event) : bool :=
  match e with
  | CallSettled _ (Rejected _) => true
  | _ => false
  end.

Definition is_invoke (a : Action) : bool :=
  match a with
  | Invoke _ => true
  | Tick => false
  end.

(** The number of calls of [coordinatedTermination] a schedule makes. *)
Definition invocations (sched : list Action) : nat :=
  List.length (filter is_invoke sched).

(** The suspended calls that drive an episode. *)
Definition drivers (w : World) : nat :=
  List.length (filter is_driving (w_queue w)).

(** What holds of the event loop at every point of a run started in [s0]
    with an empty queue: the lock and every captured lock are fulfilled; a
    driver is suspended exactly while the flag is raised; every call made is
    either suspended or settled; no call has been rejected. *)
Record well_scheduled (s0 : ResponseState) (w : World) : Prop := mkWellScheduled {
  ws_lock : terminationLock (w_state w) = Fulfilled;
  ws_queue : Forall (fun entry => lock_of (snd entry) = Fulfilled) (w_queue w);
  ws_driver : drivers w = if isTerminationInProgress (w_state w) then 1 else 0;
  ws_settled : count is_settled (trace (w_state w)) + List.length (w_queue w)
               = count is_settled (trace s0) + w_next w;
  ws_rejected : count is_rejected (trace (w_state w)) = count is_rejected (trace s0);
  ws_evolves : evolves s0 (w_state w)
}.

(** Let the event loop run every microtask now queued. *)
Definition drain (w : World) : World :=
  run (repeat Tick (List.length (w_queue w))) w.

End StateProps.

(** * The mock response of the test utilities

    [TestUtils.createMockResponse()] of [tests/test-utils.js], called without
    options: the object a test hands to [new ResponseState(res, id)].  Its own
    flags are functions of the calls it has received. *)

Module Mock.

Definition header_error : Error :=
  "Cannot set headers after they are sent to the client".

Definition is_header_write (c : TCall) : bool :=
  match c with OriginalWriteHead _ _ => true | _ => false end.

Definition is_terminal_write (c : TCall) : bool :=
  match c with OriginalEnd _ => true | _ => false end.

(** [res.headersSent]: set by the first [writeHead]; a later one throws
    before touching it. *)
Definition headersSent (history : list TCall) : bool :=
  existsb is_header_write history.

(** [res.writableEnded]: set by the first [end]. *)
Definition writableEnded (history : list TCall) : bool :=
  existsb is_terminal_write history.

Definition createMockResponse : Transport :=
  fun history c =>
    match c with
    | OriginalWriteHead _ _ =>
        if headersSent history then Raises header_error
        else Returns true                      (* return this *)
    | OriginalWrite _ =>
        if writableEnded history then Returns false
        else Returns true
    | OriginalEnd _ => Returns true            (* return this *)
    | SocketDestroy => Returns true            (* res.socket is null: never called *)
    end.

(** [new ResponseState(TestUtils.createMockResponse(), id)] *)
Definition mock_state (id : string) : State.ResponseState :=
  State.new_ResponseState createMockResponse false id.

End Mock.

(** * [TestUtils.assertNoHeaderErrors] *)

Module TestUtils.

(** An element of the [assertions] array: a string, or a value of another
    type, which the function skips. *)
Inductive JsValue : Type :=
| JsString (s : string)
| JsOther.

(** [s.includes(sub)] *)
Definition includes (s sub : string) : bool :=
  match index 0 sub s with
  | Some _ => true
  | None => false
  end.

Definition headerErrorMessages : list string :=
  [ "Cannot set headers after they are sent to the client";
    "Cannot write headers after they are sent" ].

Fixpoint assertNoHeaderErrors (assertions : list JsValue) : Completion unit :=
  match assertions with
  | [] => Normal tt
  | JsString assertion :: rest =>
      if existsb (fun errorMsg => includes assertion errorMsg) headerErrorMessages
      then Throw ("Header error detected: " ++ assertion)
      else assertNoHeaderErrors rest
  | JsOther :: rest => assertNoHeaderErrors rest
  end.

(** [sub] occurs in [s] at some position. *)
Definition occurs_in (sub s : string) : Prop :=
  exists k, substring k (String.length sub) s = sub.

Definition offending (v : JsValue) : Prop :=
  match v with
  | JsString s => exists m, In m headerErrorMessages /\ occurs_in m s
  | JsOther => False
  end.

End TestUtils.

(** * Further notions for [ResponseManager] *)

Module ManagerProps.

Import Manager.

(** What the rest of the program can do to a response wrapped by a manager. *)
Inductive MOp : Type :=
| MEnd (chunk : option string)                       (* res.end(chunk) *)
| MWriteHead (statusCode : Z) (headers : Headers)    (* res.writeHead(...) *)
| MOnEnd (callback : Callback)                       (* manager.onEnd(callback) *)
| MTransportSendsHeaders.                            (* another writer flushes headers *)

Definition m_call (fuel : nat) (o : MOp) : M ResponseManager unit :=
  match o with
  | MEnd chunk => res_end fuel chunk
  | MWriteHead c h => res_writeHead c h ;; ret tt
  | MOnEnd callback => onEnd callback
  | MTransportSendsHeaders => modify (set_res_headersSent true)
  end.

Definition m_exec (fuel : nat) (o : MOp) (s : ResponseManager) : ResponseManager :=
  fst (m_call fuel o s).

Definition m_exec_all (fuel : nat) (ops : list MOp) (s : ResponseManager)
  : ResponseManager :=
  fold_left (fun acc o => m_exec fuel o acc) ops s.

Definition m_end_budget (s : ResponseManager) : nat :=
  count is_end_call (trace s) + (if isEnded s then 0 else 1).

(** A later state of the manager: flags only rise, the trace only grows, and
    no terminal write is added beyond the one owed while [isEnded] is unset. *)
Record m_evolves (s s' : ResponseManager) : Prop := mkMEvolves {
  me_ended : isEnded s = true -> isEnded s' = true;
  me_sent : headersSent s = true -> headersSent s' = true;
  me_budget : m_end_budget s' <= m_end_budget s;
  me_silent : exists new,
      trace s' = (trace s ++ new)%list /\
      (isEnded s = true ->
       count is_callback new = 0 /\ count is_end_call new = 0)
}.

Definition sent_kept (s s' : ResponseManager) : Prop :=
  headersSent s = true -> headersSent s' = true.

(** The registry [endCallbacks] is the same in both states. *)
Definition same_registry (s s' : ResponseManager) : Prop :=
  endCallbacks s' = endCallbacks s.

(** The callbacks a sequence of operations hands to [onEnd], in order. *)
Definition registered (ops : list MOp) : list Callback :=
  flat_map (fun o => match o with MOnEnd callback => [callback] | _ => [] end) ops.

(** Calls of the shim installed by [_trackHeaders], by their arguments. *)
Definition shim_calls (args : list (Z * Headers)) : list (M ResponseManager bool) :=
  map (fun a => res_writeHead (fst a) (snd a)) args.

End ManagerProps.

(** * Properties *)

Open Scope list_scope.

(** ** Laws of the monad *)

Section Laws.

Context {S : Type}.

Lemma returns_ret {A} (a : A) : returns (@ret S A a).
Proof. intros s. exists a. reflexivity. Qed.

Lemma returns_gets {A} (f : S -> A) : returns (gets f).
Proof. intros s. exists (f s). reflexivity. Qed.

Lemma returns_modify (f : S -> S) : returns (modify f).
Proof. intros s. exists tt. reflexivity. Qed.

Lemma returns_bind {A B} (m : M S A) (k : A -> M S B) :
  returns m -> (forall a, returns (k a)) -> returns (bind m k).
Proof.
  intros Hm Hk s. unfold bind.
  destruct (Hm s) as [a Ha]. destruct (m s) as [s1 c]. simpl in Ha. subst c.
  apply Hk.
Qed.

Lemma returns_defined {A} (m : M S A) : returns m -> defined m.
Proof. intros H s. destruct (H s) as [a Ha]. rewrite Ha. discriminate. Qed.

Lemma defined_throw {A} (e : Error) : defined (@throw S A e).
Proof. intros s. simpl. discriminate. Qed.

Lemma defined_bind {A B} (m : M S A) (k : A -> M S B) :
  defined m -> (forall a, defined (k a)) -> defined (bind m k).
Proof.
  intros Hm Hk s. unfold bind. specialize (Hm s).
  destruct (m s) as [s1 [a|e|]]; simpl in *; try discriminate.
  - apply Hk.
  - congruence.
Qed.

Lemma defined_try_catch {A} (m : M S A) (h : Error -> M S A) :
  defined m -> (forall e, defined (h e)) -> defined (try_catch m h).
Proof.
  intros Hm Hh s. unfold try_catch. specialize (Hm s).
  destruct (m s) as [s1 [a|e|]]; simpl in *; try discriminate.
  - apply Hh.
  - congruence.
Qed.

Lemma returns_try_catch {A} (m : M S A) (h : Error -> M S A) :
  defined m -> (forall e, returns (h e)) -> returns (try_catch m h).
Proof.
  intros Hm Hh s. unfold try_catch. specialize (Hm s).
  destruct (m s) as [s1 [a|e|]]; simpl in *.
  - exists a. reflexivity.
  - apply Hh.
  - congruence.
Qed.

Lemma returns_try_finally {A} (m : M S A) (f : M S unit) :
  returns m -> returns f -> returns (try_finally m f).
Proof.
  intros Hm Hf s. unfold try_finally.
  destruct (Hm s) as [a Ha]. destruct (m s) as [s1 c]. simpl in Ha. subst c.
  destruct (Hf s1) as [u Hu]. destruct (f s1) as [s2 c]. simpl in Hu. subst c.
  exists a. reflexivity.
Qed.

Lemma defined_try_finally {A} (m : M S A) (f : M S unit) :
  defined m -> returns f -> defined (try_finally m f).
Proof.
  intros Hm Hf s. unfold try_finally. specialize (Hm s).
  destruct (m s) as [s1 c]. simpl in Hm.
  destruct (Hf s1) as [u Hu]. destruct (f s1) as [s2 c']. simpl in Hu. subst c'.
  exact Hm.
Qed.

Lemma returns_promise_of {A} (m : M S A) : defined m -> returns (promise_of m).
Proof.
  intros Hm s. unfold promise_of. specialize (Hm s).
  destruct (m s) as [s1 [a|e|]]; simpl in *.
  - exists Fulfilled. reflexivity.
  - exists (Rejected e). reflexivity.
  - congruence.
Qed.

Lemma defined_await (p : Promise) : defined (@await S p).
Proof. intros s. destruct p; simpl; discriminate. Qed.

(** A relation that every step respects is respected by the whole. *)
Variable R : S -> S -> Prop.
Hypothesis R_refl : forall s, R s s.
Hypothesis R_trans : forall s1 s2 s3, R s1 s2 -> R s2 s3 -> R s1 s3.

Lemma keeps_ret {A} (a : A) : keeps R (@ret S A a).
Proof. intros s. apply R_refl. Qed.

Lemma keeps_throw {A} (e : Error) : keeps R (@throw S A e).
Proof. intros s. apply R_refl. Qed.

Lemma keeps_gets {A} (f : S -> A) : keeps R (gets f).
Proof. intros s. apply R_refl. Qed.

Lemma keeps_await (p : Promise) : keeps R (@await S p).
Proof. intros s. destruct p; apply R_refl. Qed.

Lemma keeps_bind {A B} (m : M S A) (k : A -> M S B) :
  keeps R m -> (forall a, keeps R (k a)) -> keeps R (bind m k).
Proof.
  intros Hm Hk s. unfold bind. specialize (Hm s).
  destruct (m s) as [s1 [a|e|]]; simpl in *; auto.
  eapply R_trans; [exact Hm | apply Hk].
Qed.

Lemma keeps_try_catch {A} (m : M S A) (h : Error -> M S A) :
  keeps R m -> (forall e, keeps R (h e)) -> keeps R (try_catch m h).
Proof.
  intros Hm Hh s. unfold try_catch. specialize (Hm s).
  destruct (m s) as [s1 [a|e|]]; simpl in *; auto.
  eapply R_trans; [exact Hm | apply Hh].
Qed.

Lemma keeps_try_finally {A} (m : M S A) (f : M S unit) :
  keeps R m -> keeps R f -> keeps R (try_finally m f).
Proof.
  intros Hm Hf s. unfold try_finally. specialize (Hm s).
  destruct (m s) as [s1 c]. simpl in Hm. specialize (Hf s1).
  destruct (f s1) as [s2 [u|e|]]; simpl in *; eapply R_trans; eauto.
Qed.

Lemma keeps_promise_of {A} (m : M S A) : keeps R m -> keeps R (promise_of m).
Proof.
  intros Hm s. unfold promise_of. specialize (Hm s).
  destruct (m s) as [s1 [a|e|]]; simpl in *; auto.
Qed.

Lemma keeps_fold {A} (f : A -> S -> S) :
  (forall a s, R s (f a s)) ->
  forall l s, R s (fold_left (fun acc a => f a acc) l s).
Proof.
  intros Hf l. induction l as [|a l IH]; intros s; simpl.
  - apply R_refl.
  - eapply R_trans; [apply Hf | apply IH].
Qed.

(** What follows a step only moves the state further along [R]. *)
Lemma after_bind {A B} (m : M S A) (k : A -> M S B) (s : S) :
  (forall a, keeps R (k a)) -> R (fst (m s)) (fst (bind m k s)).
Proof.
  intros Hk. unfold bind. destruct (m s) as [s1 [a|e|]]; simpl; auto.
  apply Hk.
Qed.

Lemma after_try_catch {A} (m : M S A) (h : Error -> M S A) (s : S) :
  (forall e, keeps R (h e)) -> R (fst (m s)) (fst (try_catch m h s)).
Proof.
  intros Hh. unfold try_catch. destruct (m s) as [s1 [a|e|]]; simpl; auto.
  apply Hh.
Qed.

End Laws.

Lemma fst_promise_of {S A} (m : M S A) (s : S) : fst (promise_of m s) = fst (m s).
Proof. unfold promise_of. destruct (m s) as [s1 [a|e|]]; reflexivity. Qed.

(** A step that returns hands the state it leaves to what follows. *)
Lemma seq_returns {S B} (m : M S unit) (k : M S B) (s : S) :
  returns m -> (m ;; k) s = k (fst (m s)).
Proof.
  intros Hm. unfold bind. destruct (Hm s) as [a Ha].
  destruct (m s) as [s1 c]. simpl in *. subst c. reflexivity.
Qed.

(** ** Counting events *)

Lemma count_app (p : Event -> bool) (t1 t2 : list Event) :
  count p (t1 ++ t2) = count p t1 + count p t2.
Proof. unfold count. rewrite filter_app, length_app. reflexivity. Qed.

Lemma count_nil (p : Event -> bool) : count p [] = 0.
Proof. reflexivity. Qed.

Lemma count_cons (p : Event -> bool) (e : Event) (t : list Event) :
  count p (e :: t) = (if p e then 1 else 0) + count p t.
Proof. unfold count. simpl. destruct (p e); reflexivity. Qed.

Lemma transport_calls_app (t1 t2 : list Event) :
  transport_calls (t1 ++ t2) = transport_calls t1 ++ transport_calls t2.
Proof.
  induction t1 as [|e t1 IH]; simpl; [reflexivity|].
  destruct e; simpl; rewrite ?IH; reflexivity.
Qed.

(** * Properties of [ResponseState] *)

Module StateFacts.

Import State.

(** ** Later states *)

Lemma evolves_refl (s : ResponseState) : evolves s s.
Proof.
  constructor; auto. exists []. rewrite app_nil_r. reflexivity.
Qed.

Lemma evolves_trans (s1 s2 s3 : ResponseState) :
  evolves s1 s2 -> evolves s2 s3 -> evolves s1 s3.
Proof.
  intros [e1 d1 h1 r1 k1 [n1 t1] b1] [e2 d2 h2 r2 k2 [n2 t2] b2].
  constructor; auto; try congruence; try lia.
  exists (n1 ++ n2). rewrite t2, t1, app_assoc. reflexivity.
Qed.

Create HintDb js.
#[local] Hint Resolve evolves_refl : js.

Ltac fields :=
  cbn [requestId isHeadersSent isEnded isDestroyed isStreaming streamingCompleted
       isTerminationInProgress terminationLock terminationReason res
       socketDestroyable trace
       set_isHeadersSent set_isEnded set_isDestroyed set_isStreaming
       set_streamingCompleted set_isTerminationInProgress set_terminationLock
       set_terminationReason set_trace canWrite canWriteHeaders
       negb andb orb] in *.

Lemma end_budget_emit (s : ResponseState) (e : Event) :
  is_end_call e = false ->
  end_budget (set_trace (trace s ++ [e]) s) = end_budget s.
Proof.
  intros H. unfold end_budget. fields.
  rewrite count_app, count_cons, H, count_nil. lia.
Qed.

Lemma keeps_emit (e : Event) : is_end_call e = false -> keeps evolves (emit e).
Proof.
  intros H s. unfold emit, modify. cbn [fst].
  constructor; fields; auto.
  - eexists. reflexivity.
  - rewrite end_budget_emit by exact H. lia.
Qed.

Lemma keeps_log (l : Level) (m d : string) : keeps evolves (log l m d).
Proof. apply keeps_emit. reflexivity. Qed.

Lemma keeps_set_other (f : ResponseState -> ResponseState) :
  (forall s, isEnded (f s) = isEnded s /\ isDestroyed (f s) = isDestroyed s /\
             isHeadersSent (f s) = isHeadersSent s /\ res (f s) = res s /\
             socketDestroyable (f s) = socketDestroyable s /\ trace (f s) = trace s) ->
  keeps evolves (modify f).
Proof.
  intros Hf s. unfold modify. cbn [fst].
  destruct (Hf s) as (He & Hd & Hh & Hr & Hk & Ht).
  constructor; try congruence.
  - exists []. rewrite app_nil_r. exact Ht.
  - unfold end_budget. rewrite He, Ht. lia.
Qed.

(** Evaluate a method at a state in constructor form. *)
Ltac run_js :=
  cbv [bind ret throw gets modify try_catch try_finally promise_of await ignore
       emit log original fst snd
       safeWriteHeaders safeWrite safeEnd res_writeHead res_write res_end
       res_safeWriteHead res_safeWrite res_safeEnd res_canWrite res_canWriteHeaders
       res_markStreamingStarted res_markStreamingCompleted
       mark_completed_if_streaming destroy _performTermination
       requestId isHeadersSent isEnded isDestroyed isStreaming streamingCompleted
       isTerminationInProgress terminationLock terminationReason res
       socketDestroyable trace
       set_isHeadersSent set_isEnded set_isDestroyed set_isStreaming
       set_streamingCompleted set_isTerminationInProgress set_terminationLock
       set_terminationReason set_trace canWrite canWriteHeaders
       negb andb orb] in *.

Ltac case_transport :=
  repeat match goal with
         | |- context [match ?r ?h ?c with Returns _ => _ | Raises _ => _ end] =>
             destruct (r h c)
         end.

Ltac solve_trace :=
  rewrite <- ?app_assoc; cbn [app]; eexists; reflexivity.

Ltac solve_budget :=
  unfold end_budget; run_js;
  rewrite ?count_app, ?count_cons, ?count_nil; cbn [is_end_call]; lia.

Ltac evolves_by_cases :=
  constructor; run_js;
  first [ solve [auto]
        | solve [exists []; rewrite app_nil_r; reflexivity]
        | solve [solve_trace]
        | solve_budget ].

Lemma keeps_res_end (d : option string) : keeps evolves (res_end d).
Proof.
  intros [id hs en de st sc ip lk rsn tp sk t].
  destruct en, st, sc; run_js; case_transport; run_js; evolves_by_cases.
Qed.

Lemma keeps_res_safeEnd (d : option string) : keeps evolves (res_safeEnd d).
Proof.
  intros [id hs en de st sc ip lk rsn tp sk t].
  destruct en, de, st, sc; run_js; case_transport; run_js; evolves_by_cases.
Qed.

Ltac by_cases tac :=
  intros [id hs en de st sc ip lk rsn tp sk t];
  destruct hs, en, de, st, sc, ip, sk; run_js;
  repeat (progress case_transport; run_js);
  tac.

Lemma keeps_res_writeHead c h : keeps evolves (res_writeHead c h).
Proof. by_cases evolves_by_cases. Qed.

Lemma keeps_res_write d : keeps evolves (res_write d).
Proof. by_cases evolves_by_cases. Qed.

Lemma keeps_res_safeWriteHead c h : keeps evolves (res_safeWriteHead c h).
Proof. by_cases evolves_by_cases. Qed.

Lemma keeps_res_safeWrite d : keeps evolves (res_safeWrite d).
Proof. by_cases evolves_by_cases. Qed.

Lemma keeps_safeWriteHeaders c h : keeps evolves (safeWriteHeaders c h).
Proof. by_cases evolves_by_cases. Qed.

Lemma keeps_safeWrite d : keeps evolves (safeWrite d).
Proof. by_cases evolves_by_cases. Qed.

Lemma keeps_safeEnd d : keeps evolves (safeEnd d).
Proof. by_cases evolves_by_cases. Qed.

Lemma keeps_destroy : keeps evolves destroy.
Proof.
  intros [id hs en de st sc ip lk rsn tp sk t].
  destruct en, sk; run_js; repeat (progress case_transport; run_js);
    evolves_by_cases.
Qed.

Lemma keeps_performTermination r : keeps evolves (_performTermination r).
Proof. by_cases evolves_by_cases. Qed.

Lemma keeps_mark_started : keeps evolves res_markStreamingStarted.
Proof. by_cases evolves_by_cases. Qed.

Lemma keeps_mark_completed : keeps evolves res_markStreamingCompleted.
Proof. by_cases evolves_by_cases. Qed.

Lemma keeps_canWrite : keeps evolves res_canWrite.
Proof. apply keeps_gets. apply evolves_refl. Qed.

Lemma keeps_canWriteHeaders : keeps evolves res_canWriteHeaders.
Proof. apply keeps_gets. apply evolves_refl. Qed.

#[local] Hint Resolve keeps_canWrite keeps_canWriteHeaders : js.
#[local] Hint Resolve keeps_log keeps_res_end keeps_res_safeEnd keeps_res_writeHead
  keeps_res_write keeps_res_safeWriteHead keeps_res_safeWrite keeps_safeWriteHeaders
  keeps_safeWrite keeps_safeEnd keeps_destroy keeps_performTermination
  keeps_mark_started keeps_mark_completed : js.

(** Break a computation into its steps. *)
Ltac keeps_steps :=
  repeat first
    [ solve [auto with js]
    | match goal with
      | |- keeps _ (ret _) => apply keeps_ret; apply evolves_refl
      | |- keeps _ (throw _) => apply keeps_throw; apply evolves_refl
      | |- keeps _ (gets _) => apply keeps_gets; apply evolves_refl
      | |- keeps _ (await _) => apply keeps_await; apply evolves_refl
      | |- keeps _ (bind _ _) =>
          apply keeps_bind; [apply evolves_trans | | intros ?]
      | |- keeps _ (try_catch _ _) =>
          apply keeps_try_catch; [apply evolves_trans | | intros ?]
      | |- keeps _ (try_finally _ _) =>
          apply keeps_try_finally; [apply evolves_trans | | ]
      | |- keeps _ (promise_of _) => apply keeps_promise_of
      | |- keeps _ (let _ := _ in _) => cbv zeta
      | |- keeps _ (if ?b then _ else _) => destruct b
      | |- keeps _ (match ?x with _ => _ end) => destruct x
      end ].

Lemma keeps_enter r : keeps evolves (coordinatedTermination_enter r).
Proof.
  unfold coordinatedTermination_enter, coordinatedTermination_enter_with.
  keeps_steps; try (apply keeps_emit; reflexivity);
    apply keeps_set_other; intros s; repeat split; reflexivity.
Qed.

Lemma keeps_resume p : keeps evolves (coordinatedTermination_resume p).
Proof.
  unfold coordinatedTermination_resume. destruct p; keeps_steps.
  apply keeps_set_other; intros s; repeat split; reflexivity.
Qed.

Lemma keeps_writeEvent d t : keeps evolves (writeEvent d t).
Proof. unfold writeEvent. keeps_steps. Qed.

Lemma keeps_writeDone : keeps evolves writeDone.
Proof. unfold writeDone. keeps_steps. Qed.

#[local] Hint Resolve keeps_enter keeps_resume keeps_writeEvent keeps_writeDone : js.

Lemma keeps_op (o : Op) : keeps evolves (op_call o).
Proof. destruct o; unfold op_call, ignore; keeps_steps. Qed.

Lemma evolves_exec_op (o : Op) (s : ResponseState) : evolves s (exec_op o s).
Proof. apply keeps_op. Qed.

Lemma evolves_exec_ops (ops : list Op) (s : ResponseState) :
  evolves s (exec_ops ops s).
Proof.
  unfold exec_ops. apply keeps_fold.
  - apply evolves_refl.
  - apply evolves_trans.
  - intros o s0. apply evolves_exec_op.
Qed.

Lemma keeps_interleave (ops : list Op) : keeps evolves (interleave ops).
Proof. intros s. unfold interleave, modify. cbn [fst]. apply evolves_exec_ops. Qed.

#[local] Hint Resolve keeps_interleave : js.

(** ** Writes after the response is closed *)

Lemma safeWrite_closed (s : ResponseState) (d : string) :
  canWrite s = false -> safeWrite d s = (s, Normal false).
Proof.
  destruct s as [id hs en de st sc ip lk rsn tp sk t]. run_js.
  destruct en, de; intros H; try discriminate; reflexivity.
Qed.

Lemma safeWriteHeaders_closed (s : ResponseState) (c : Z) (h : Headers) :
  canWriteHeaders s = false -> safeWriteHeaders c h s = (s, Normal false).
Proof.
  destruct s as [id hs en de st sc ip lk rsn tp sk t]. run_js.
  destruct hs, en, de; intros H; try discriminate; reflexivity.
Qed.

Lemma ended_cannot_write (s : ResponseState) :
  isEnded s = true -> canWrite s = false /\ canWriteHeaders s = false.
Proof.
  unfold canWrite, canWriteHeaders. intros ->.
  destruct (isHeadersSent s); auto.
Qed.

(** C7.  Once [isEnded] is true, every call of [safeWrite] and of
    [safeWriteHeaders], in any number and any order, returns [false] without
    throwing; the state is left as it was, so nothing reaches the transport,
    whatever that transport would have answered. *)
Theorem write_after_end_is_safe (s : ResponseState) (calls : list WriteCall) :
  isEnded s = true ->
  run_calls (map write_call calls) s = (s, map (fun _ => Normal false) calls).
Proof.
  intros Hended. destruct (ended_cannot_write s Hended) as [Hw Hh].
  induction calls as [|c calls IH]; simpl; [reflexivity|].
  assert (E : write_call c s = (s, Normal false)).
  { destruct c; simpl.
    - apply safeWrite_closed; assumption.
    - apply safeWriteHeaders_closed; assumption. }
  rewrite E, IH. reflexivity.
Qed.

Lemma write_after_end_is_safe_witness :
  let s := set_isEnded true
             (new_ResponseState (fun _ _ => Raises "write EPIPE") false "req-1") in
  let calls := [CallSafeWrite "chunk"; CallSafeWriteHeaders 200 []; CallSafeWrite "x"] in
  run_calls (map write_call calls) s = (s, [Normal false; Normal false; Normal false]).
Proof.
  intros s calls. apply (write_after_end_is_safe s calls). reflexivity.
Defined.

(** ** Header writes *)

Lemma header_calls_cons (s : ResponseState) c h (args : list (Z * Headers)) :
  run_calls (header_calls ((c, h) :: args)) s =
  let '(s1, r) := safeWriteHeaders c h s in
  let '(s2, rest) := run_calls (header_calls args) s1 in
  (s2, r :: rest).
Proof. reflexivity. Qed.

Lemma header_calls_closed (s : ResponseState) (args : list (Z * Headers)) :
  canWriteHeaders s = false ->
  run_calls (header_calls args) s = (s, map (fun _ => Normal false) args).
Proof.
  intros H. induction args as [|[c h] args IH]; [reflexivity|].
  rewrite header_calls_cons, safeWriteHeaders_closed by exact H.
  rewrite IH. reflexivity.
Qed.

(** The one call that finds the headers writable. *)
Lemma safeWriteHeaders_open (s : ResponseState) (c : Z) (h : Headers) :
  canWriteHeaders s = true ->
  exists s' b new,
    safeWriteHeaders c h s = (s', Normal b) /\
    canWriteHeaders s' = false /\
    trace s' = trace s ++ new /\
    count is_writeHead_call new = 1.
Proof.
  destruct s as [id hs en de st sc ip lk rsn tp sk t]. run_js.
  destruct hs, en, de; intros H; try discriminate.
  destruct (tp (transport_calls t) (OriginalWriteHead c h)); run_js.
  - do 3 eexists. split; [reflexivity|]. run_js.
    split; [reflexivity|]. split; reflexivity.
  - do 3 eexists. split; [reflexivity|]. run_js.
    split; [reflexivity|]. rewrite <- app_assoc. split; reflexivity.
Qed.

Lemma all_false_normal {A} (l : list A) :
  Forall (fun c : Completion bool => is_normal c = true)
         (map (fun _ => Normal false) l).
Proof. induction l; simpl; constructor; auto. Qed.

Lemma all_false_no_true {A} (l : list A) :
  List.length (filter is_true (map (fun _ : A => Normal false) l)) = 0.
Proof. induction l; simpl; auto. Qed.

(** What the one call that finds the headers writable returns: [true] when
    the transport's header write returns, [false] when it throws. *)
Lemma safeWriteHeaders_answer (s : ResponseState) (c : Z) (h : Headers) :
  canWriteHeaders s = true ->
  snd (safeWriteHeaders c h s) =
    match res s (transport_calls (trace s)) (OriginalWriteHead c h) with
    | Returns _ => Normal true
    | Raises _ => Normal false
    end.
Proof.
  destruct s as [id hs en de st sc ip lk rsn tp sk t]. run_js.
  destruct hs, en, de; intros H; try discriminate.
  destruct (tp (transport_calls t) (OriginalWriteHead c h)); reflexivity.
Qed.

Lemma safeWriteHeaders_calls (s : ResponseState) (c : Z) (h : Headers) :
  canWriteHeaders s = true ->
  transport_calls (trace (fst (safeWriteHeaders c h s))) =
    transport_calls (trace s) ++ [OriginalWriteHead c h].
Proof.
  destruct s as [id hs en de st sc ip lk rsn tp sk t]. run_js.
  destruct hs, en, de; intros H; try discriminate.
  destruct (tp (transport_calls t) (OriginalWriteHead c h)); run_js;
    rewrite ?transport_calls_app; cbn [transport_calls];
    rewrite ?app_nil_r; reflexivity.
Qed.

(** C8.  Whatever the state and however many calls of [safeWriteHeaders] are
    made on it, the transport's own header write is invoked at most once, no
    call throws, at most one call returns [true], and every call but the
    first returns [false].  The first call itself returns [true] exactly
    when it finds [canWriteHeaders()] true and the transport's header write
    does not throw, and in that state it is the call that makes the one
    header write; it returns [false] otherwise. *)
Theorem headers_written_at_most_once (s : ResponseState) (args : list (Z * Headers)) :
  exists new,
    trace (fst (run_calls (header_calls args) s)) = trace s ++ new /\
    count is_writeHead_call new <= 1 /\
    List.length (filter is_true (snd (run_calls (header_calls args) s))) <= 1 /\
    Forall (fun c => is_normal c = true) (snd (run_calls (header_calls args) s)) /\
    tl (snd (run_calls (header_calls args) s)) = map (fun _ => Normal false) (tl args) /\
    match args with
    | [] => new = []
    | (c, h) :: _ =>
        hd_error (snd (run_calls (header_calls args) s)) =
          Some (if canWriteHeaders s then
                  match res s (transport_calls (trace s)) (OriginalWriteHead c h) with
                  | Returns _ => Normal true
                  | Raises _ => Normal false
                  end
                else Normal false) /\
        count is_writeHead_call new = (if canWriteHeaders s then 1 else 0) /\
        transport_calls new =
          (if canWriteHeaders s then [OriginalWriteHead c h] else [])
    end.
Proof.
  destruct (canWriteHeaders s) eqn:Hcan.
  - destruct args as [|[c h] args].
    + exists []. simpl. rewrite app_nil_r. repeat split; auto.
    + pose proof (safeWriteHeaders_answer s c h Hcan) as Hans.
      pose proof (safeWriteHeaders_calls s c h Hcan) as Hcalls.
      destruct (safeWriteHeaders_open s c h Hcan) as (s' & b & new & E & Hc' & Ht & Hn).
      exists new. rewrite header_calls_cons, E.
      rewrite E in Hans, Hcalls. cbn [fst snd] in Hans, Hcalls.
      rewrite (header_calls_closed s' args Hc'). cbn [fst snd tl hd_error].
      repeat split.
      * exact Ht.
      * lia.
      * destruct b; simpl; rewrite all_false_no_true; lia.
      * constructor; [reflexivity | apply all_false_normal].
      * rewrite Hans. reflexivity.
      * exact Hn.
      * rewrite Ht, transport_calls_app in Hcalls.
        apply app_inv_head in Hcalls. exact Hcalls.
  - exists []. rewrite header_calls_closed by exact Hcan. simpl.
    rewrite app_nil_r. repeat split; auto.
    + rewrite all_false_no_true. lia.
    + apply all_false_normal.
    + destruct args; reflexivity.
    + destruct args as [|[c h] args]; [reflexivity|]. repeat split.
Qed.

(** ** [destroy] *)

Lemma destroy_spec (s : ResponseState) :
  snd (destroy s) = Normal tt /\
  isDestroyed (fst (destroy s)) = true /\
  isEnded (fst (destroy s)) = true /\
  count is_socket_destroy (trace (fst (destroy s))) =
    count is_socket_destroy (trace s) + (if socketDestroyable s then 1 else 0).
Proof.
  destruct s as [id hs en de st sc ip lk rsn tp sk t].
  destruct sk; run_js.
  - destruct (tp (transport_calls t) SocketDestroy); run_js;
      repeat split; rewrite ?count_app, ?count_cons, ?count_nil;
      cbn [is_socket_destroy]; lia.
  - repeat split. lia.
Qed.

Lemma closed_forever (s : ResponseState) (ops : list Op) :
  canWrite s = false ->
  canWrite (exec_ops ops s) = false /\ canWriteHeaders (exec_ops ops s) = false.
Proof.
  intros H. destruct (evolves_exec_ops ops s) as [He Hd _ _ _ _ _].
  unfold canWrite, canWriteHeaders in *.
  destruct (isEnded s) eqn:E1.
  - rewrite (He eq_refl). destruct (isHeadersSent (exec_ops ops s)); auto.
  - destruct (isDestroyed s) eqn:E2; [|discriminate].
    rewrite (Hd eq_refl).
    destruct (isHeadersSent (exec_ops ops s)), (isEnded (exec_ops ops s)); auto.
Qed.

(** C4, as the code has it.  [destroy()] never throws and leaves [isDestroyed]
    and [isEnded] set; from then on no operation on the response makes
    [canWrite()] or [canWriteHeaders()] true again.  The close of the
    connection is not guarded: every call of [destroy()] on a response whose
    socket has a [destroy] function calls [socket.destroy()] once more. *)
Theorem destroy_is_terminal (s : ResponseState) (ops : list Op) :
  snd (destroy s) = Normal tt /\
  canWrite (exec_ops ops (fst (destroy s))) = false /\
  canWriteHeaders (exec_ops ops (fst (destroy s))) = false /\
  count is_socket_destroy (trace (fst (destroy s))) =
    count is_socket_destroy (trace s) + (if socketDestroyable s then 1 else 0).
Proof.
  destruct (destroy_spec s) as (Hn & Hd & He & Hc).
  repeat split; auto; apply closed_forever;
    apply ended_cannot_write; exact He.
Qed.

(** C4 as stated fails: on a fresh response with a socket, two calls of
    [destroy()] call [socket.destroy()] twice. *)
Lemma destroy_twice_closes_twice :
  ~ count is_socket_destroy
      (trace (exec_ops [OpDestroy; OpDestroy]
                (new_ResponseState (fun _ _ => Returns true) true "req-1"))) <= 1.
Proof. vm_compute. lia. Qed.

(** ** The stream terminator *)

Lemma DONE_LITERAL_spelled : DONE_LITERAL = "data: [DONE]\n\n"%string.
Proof. reflexivity. Qed.

(** C5 fails on the code.  On a writable response [writeDone()] hands the
    transport one chunk and returns what the write returned ([false] if it
    threw), but the chunk is the sixteen characters of [DONE_LITERAL], ending
    in backslash, n, backslash, n, not the fourteen of [DONE_FRAME] with its
    two line feeds. *)
Theorem writeDone_writes_escaped_literal (s : ResponseState) :
  canWrite s = true ->
  transport_calls (trace (fst (writeDone s))) =
    transport_calls (trace s) ++ [OriginalWrite DONE_LITERAL] /\
  snd (writeDone s) =
    match res s (transport_calls (trace s)) (OriginalWrite DONE_LITERAL) with
    | Returns v => Normal v
    | Raises _ => Normal false
    end /\
  DONE_LITERAL <> DONE_FRAME /\
  String.length DONE_LITERAL = 16 /\
  String.length DONE_FRAME = 14.
Proof.
  intros Hcan.
  destruct s as [id hs en de st sc ip lk rsn tp sk t].
  unfold writeDone. run_js.
  destruct en, de; try discriminate. run_js.
  repeat split; try (vm_compute; congruence).
  - destruct (tp (transport_calls t) (OriginalWrite DONE_LITERAL)); run_js;
      rewrite !transport_calls_app; simpl; rewrite ?app_nil_r; reflexivity.
  - destruct (tp (transport_calls t) (OriginalWrite DONE_LITERAL)); reflexivity.
Qed.

Lemma writeDone_writes_escaped_literal_witness :
  transport_calls
    (trace (fst (writeDone (new_ResponseState (fun _ _ => Returns true) false "req-1")))) =
    [OriginalWrite DONE_LITERAL] /\
  DONE_LITERAL <> DONE_FRAME.
Proof.
  pose proof (writeDone_writes_escaped_literal
                (new_ResponseState (fun _ _ => Returns true) false "req-1")
                eq_refl) as H.
  split; [exact (proj1 H) | exact (proj1 (proj2 (proj2 H)))].
Defined.

(** ** Coordinated termination *)

Ltac solve_spec :=
  do 2 eexists; split; [reflexivity|]; run_js;
  split; [rewrite <- ?app_assoc; cbn [app]; reflexivity|];
  repeat split; reflexivity.

(** The class's termination operation never rejects; it leaves the response
    closed and does not touch the termination flag or lock. *)
Lemma performTermination_spec (r : string) (s : ResponseState) :
  exists s' new,
    _performTermination r s = (s', Normal tt) /\
    trace s' = trace s ++ new /\
    forallb is_plain new = true /\
    isTerminationInProgress s' = isTerminationInProgress s /\
    terminationLock s' = terminationLock s /\
    canWrite s' = false.
Proof. revert s. by_cases solve_spec. Qed.

(** A call that finds no episode in progress starts one and runs the
    termination operation before it suspends. *)
Lemma enter_drives (r : string) (s : ResponseState) :
  isTerminationInProgress s = false ->
  exists s1 mid,
    coordinatedTermination_enter r s = (s1, Normal (Driving r Fulfilled)) /\
    trace s1 = trace s ++ [start_log r; PerformBegin] ++ mid ++ [PerformEnd] /\
    forallb is_plain mid = true /\
    isTerminationInProgress s1 = true /\
    terminationLock s1 = Fulfilled /\
    canWrite s1 = false.
Proof.
  intros Hflag.
  destruct s as [id hs en de st sc ip lk rsn tp sk t].
  cbn [isTerminationInProgress] in Hflag. subst ip.
  unfold coordinatedTermination_enter, coordinatedTermination_enter_with.
  cbv [bind gets modify log emit fst snd isTerminationInProgress
       set_isTerminationInProgress set_terminationReason set_trace trace
       requestId isHeadersSent isEnded isDestroyed isStreaming streamingCompleted
       terminationLock terminationReason res socketDestroyable promise_of].
  match goal with
  | |- context [_performTermination r ?s0] =>
      destruct (performTermination_spec r s0) as (s' & new & E & Ht & Hp & Hf & Hl & Hc)
  end.
  rewrite E.
  destruct s' as [id' hs' en' de' st' sc' ip' lk' rsn' tp' sk' t'].
  cbn [trace isTerminationInProgress terminationLock] in Ht, Hf, Hl.
  subst t' ip' lk'.
  exists (set_terminationLock Fulfilled
            (set_trace
               (((t ++ [start_log r]) ++ [PerformBegin]) ++ new ++ [PerformEnd])
               (mkResponseState id' hs' en' de' st' sc' true lk rsn' tp' sk' []))),
         new.
  split.
  { cbv [ret set_terminationLock set_trace trace requestId isHeadersSent isEnded
         isDestroyed isStreaming streamingCompleted isTerminationInProgress
         terminationLock terminationReason res socketDestroyable start_log].
    rewrite <- !app_assoc. reflexivity. }
  cbn [set_terminationLock set_trace trace requestId isHeadersSent isEnded
       isDestroyed isStreaming streamingCompleted isTerminationInProgress
       terminationLock terminationReason res socketDestroyable].
  split; [rewrite <- !app_assoc; reflexivity|].
  repeat split; auto.
Qed.

(** A call that finds an episode in progress only logs and captures the
    episode's lock. *)
Lemma enter_joins (r : string) (s : ResponseState) :
  isTerminationInProgress s = true ->
  coordinatedTermination_enter r s =
    (set_trace (trace s ++ [join_log r]) s, Normal (Joined (terminationLock s))).
Proof.
  intros Hflag.
  unfold coordinatedTermination_enter, coordinatedTermination_enter_with.
  cbv [bind gets]. rewrite Hflag. reflexivity.
Qed.

(** *** The event loop *)

Lemma run_app (a b : list Action) (w : World) :
  run (a ++ b) w = run b (run a w).
Proof. unfold run, run_with. apply fold_left_app. Qed.

Lemma run_cons (a : Action) (l : list Action) (w : World) :
  run (a :: l) w = run l (step a w).
Proof. reflexivity. Qed.

Lemma step_invoke_joins (r : string) (s : ResponseState) q n :
  isTerminationInProgress s = true ->
  step (Invoke r) (mkWorld s q n) =
    mkWorld (set_trace (trace s ++ [join_log r]) s)
            (q ++ [(n, Joined (terminationLock s))]) (S n).
Proof.
  intros H. unfold step, step_with. cbn [w_state w_queue w_next].
  change (coordinatedTermination_enter_with _performTermination r s)
    with (coordinatedTermination_enter r s).
  rewrite enter_joins by exact H. reflexivity.
Qed.

Lemma run_invoke_joiners (rs : list string) :
  forall (s : ResponseState) q n,
    isTerminationInProgress s = true ->
    run (map Invoke rs) (mkWorld s q n) =
      mkWorld (set_trace (trace s ++ map join_log rs) s)
              (q ++ map (fun i => (i, Joined (terminationLock s)))
                      (seq n (List.length rs)))
              (n + List.length rs).
Proof.
  induction rs as [|r rs IH]; intros s q n H.
  - simpl. rewrite !app_nil_r, Nat.add_0_r. destruct s; reflexivity.
  - cbn [map]. rewrite run_cons, step_invoke_joins by exact H.
    rewrite IH by exact H.
    cbn [set_trace trace terminationLock List.length seq map
         requestId isHeadersSent isEnded isDestroyed isStreaming
         streamingCompleted isTerminationInProgress terminationReason res
         socketDestroyable].
    rewrite <- !app_assoc. cbn [app].
    f_equal. lia.
Qed.

Lemma step_tick_driver (s : ResponseState) id r q n :
  step Tick (mkWorld s ((id, Driving r Fulfilled) :: q) n) =
    mkWorld (set_trace (trace s ++ [CallSettled id Fulfilled])
               (set_isTerminationInProgress false s)) q n.
Proof. reflexivity. Qed.

Lemma step_tick_joiner (s : ResponseState) id q n :
  step Tick (mkWorld s ((id, Joined Fulfilled) :: q) n) =
    mkWorld (set_trace (trace s ++ [CallSettled id Fulfilled]) s) q n.
Proof. reflexivity. Qed.

Lemma run_ticks_joiners (ids : list nat) :
  forall (s : ResponseState) n,
    run (repeat Tick (List.length ids))
        (mkWorld s (map (fun i => (i, Joined Fulfilled)) ids) n) =
      mkWorld (set_trace (trace s ++ map (fun i => CallSettled i Fulfilled) ids) s)
              [] n.
Proof.
  induction ids as [|i ids IH]; intros s n.
  - simpl. rewrite app_nil_r. destruct s; reflexivity.
  - cbn [List.length repeat map]. rewrite run_cons, step_tick_joiner, IH.
    cbn [set_trace trace requestId isHeadersSent isEnded isDestroyed isStreaming
         streamingCompleted isTerminationInProgress terminationLock
         terminationReason res socketDestroyable].
    rewrite <- !app_assoc. reflexivity.
Qed.

(** The whole run of [n] calls made before any of them is resumed, then
    resumed in turn: the state is the one the first call's synchronous part
    left, with the flag cleared, and the trace lists the joiners' log lines
    and then the settling of every call. *)
Lemma run_concurrent_calls (s s1 : ResponseState) (r0 : string) (rs : list string) :
  coordinatedTermination_enter r0 s = (s1, Normal (Driving r0 Fulfilled)) ->
  isTerminationInProgress s1 = true ->
  terminationLock s1 = Fulfilled ->
  run (map Invoke (r0 :: rs) ++ repeat Tick (S (List.length rs))) (start s) =
    mkWorld
      (set_trace (trace s1 ++ map join_log rs
                    ++ map (fun i => CallSettled i Fulfilled)
                         (seq 0 (S (List.length rs))))
         (set_isTerminationInProgress false s1))
      [] (S (List.length rs)).
Proof.
  intros E Hflag Hlock.
  rewrite run_app. cbn [map]. rewrite run_cons.
  assert (S1 : step (Invoke r0) (start s) = mkWorld s1 [(0, Driving r0 Fulfilled)] 1).
  { unfold step, step_with, start. cbn [w_state w_queue w_next].
    change (coordinatedTermination_enter_with _performTermination r0 s)
      with (coordinatedTermination_enter r0 s).
    rewrite E. reflexivity. }
  rewrite S1, run_invoke_joiners by exact Hflag.
  rewrite Hlock. cbn [app repeat]. rewrite run_cons, step_tick_driver.
  rewrite <- (length_seq (List.length rs) 1) at 1.
  rewrite run_ticks_joiners.
  cbn [set_trace trace requestId isHeadersSent isEnded isDestroyed isStreaming
       streamingCompleted isTerminationInProgress terminationLock
       terminationReason res socketDestroyable set_isTerminationInProgress].
  rewrite <- !app_assoc. cbn [app seq map]. reflexivity.
Qed.

Lemma count_none (p : Event -> bool) (l : list Event) :
  (forall e, In e l -> p e = false) -> count p l = 0.
Proof.
  induction l as [|e l IH]; intros H; [reflexivity|].
  rewrite count_cons, (H e (or_introl eq_refl)), IH; [reflexivity|].
  intros e' He'. apply H. right. exact He'.
Qed.

Lemma count_plain (p : Event -> bool) (l : list Event) :
  (forall e, is_plain e = true -> p e = false) ->
  forallb is_plain l = true -> count p l = 0.
Proof.
  intros Hp Hl. apply count_none. intros e He.
  apply Hp. rewrite forallb_forall in Hl. apply Hl. exact He.
Qed.

Lemma count_map_none {A} (p : Event -> bool) (f : A -> Event) (l : list A) :
  (forall a, p (f a) = false) -> count p (map f l) = 0.
Proof.
  intros H. apply count_none. intros e He.
  apply in_map_iff in He. destruct He as (a & <- & _). apply H.
Qed.

Lemma count_map_all {A} (p : Event -> bool) (f : A -> Event) (l : list A) :
  (forall a, p (f a) = true) -> count p (map f l) = List.length l.
Proof.
  intros H. induction l as [|a l IH]; [reflexivity|].
  cbn [map]. rewrite count_cons, H, IH. reflexivity.
Qed.

Lemma plain_not_perform e : is_plain e = true -> is_perform_begin e = false.
Proof. destruct e; simpl; congruence. Qed.

Lemma plain_not_settled e : is_plain e = true -> is_settled e = false.
Proof. destruct e; simpl; congruence. Qed.

Lemma count_le_budget (s : ResponseState) :
  count is_end_call (trace s) <= end_budget s.
Proof. unfold end_budget. lia. Qed.

(** C1.  [n >= 1] calls of [coordinatedTermination], with any reasons, all
    made before any of them is resumed, on a response with no termination in
    progress: the termination operation is executed exactly once; no call
    settles before that execution has ended; each of the [n] calls then
    resolves (none rejects, none stays suspended); and the transport's [end]
    is invoked at most once more, and at most once over the whole life of
    the response when it had not been invoked more often than the guard
    allows before. *)
Theorem coordinated_termination_single_flight
    (s : ResponseState) (r0 : string) (rs : list string) :
  isTerminationInProgress s = false ->
  let n := S (List.length rs) in
  let w := run (map Invoke (r0 :: rs) ++ repeat Tick n) (start s) in
  exists before after,
    trace (w_state w) = trace s ++ before ++ [PerformEnd] ++ after /\
    count is_perform_begin (before ++ [PerformEnd] ++ after) = 1 /\
    count is_perform_begin before = 1 /\
    count is_settled before = 0 /\
    (forall i, i < n -> In (CallSettled i Fulfilled) after) /\
    count is_settled after = n /\
    w_queue w = [] /\
    isTerminationInProgress (w_state w) = false /\
    count is_end_call (before ++ [PerformEnd] ++ after) <= 1 /\
    end_budget (w_state w) <= end_budget s /\
    (end_budget s <= 1 -> count is_end_call (trace (w_state w)) <= 1).
Proof.
  intros Hflag n w.
  destruct (enter_drives r0 s Hflag) as (s1 & mid & E & Ht & Hp & Hf & Hl & Hc).
  pose proof (keeps_enter r0 s) as Hev. rewrite E in Hev. cbn [fst] in Hev.
  destruct Hev as [_ _ _ _ _ _ Hb].
  subst w n. rewrite (run_concurrent_calls s s1 r0 rs E Hf Hl).
  cbn [w_state w_queue].
  set (after := map join_log rs
                  ++ map (fun i => CallSettled i Fulfilled)
                       (seq 0 (S (List.length rs)))).
  exists ([start_log r0; PerformBegin] ++ mid), after.
  assert (Hmid_p : count is_perform_begin mid = 0)
    by (apply count_plain; [exact plain_not_perform | exact Hp]).
  assert (Hmid_s : count is_settled mid = 0)
    by (apply count_plain; [exact plain_not_settled | exact Hp]).
  assert (Hafter_p : count is_perform_begin after = 0).
  { unfold after. rewrite count_app, !count_map_none by reflexivity. lia. }
  assert (Hafter_e : count is_end_call after = 0).
  { unfold after. rewrite count_app, !count_map_none by reflexivity. lia. }
  assert (Hdrive_e : count is_end_call ([start_log r0; PerformBegin] ++ mid) <= 1).
  { unfold end_budget in Hb. rewrite Ht in Hb.
    rewrite !count_app, !count_cons, !count_nil in Hb.
    rewrite !count_app, !count_cons, !count_nil.
    cbn [is_end_call start_log] in *.
    destruct (isEnded s1), (isEnded s); lia. }
  assert (Hfinal : end_budget
                     (set_trace (trace s1 ++ after)
                        (set_isTerminationInProgress false s1))
                   = end_budget s1).
  { unfold end_budget.
    cbn [set_trace set_isTerminationInProgress trace isEnded].
    rewrite count_app, Hafter_e. lia. }
  repeat split.
  - cbn [set_trace trace]. rewrite Ht. rewrite <- !app_assoc. reflexivity.
  - rewrite !count_app, !count_cons, !count_nil, Hmid_p, Hafter_p. reflexivity.
  - rewrite !count_app, !count_cons, !count_nil, Hmid_p. reflexivity.
  - rewrite !count_app, !count_cons, !count_nil, Hmid_s. reflexivity.
  - intros i Hi. unfold after. apply in_or_app. right.
    apply in_map_iff. exists i. split; [reflexivity|].
    apply in_seq. lia.
  - unfold after. rewrite count_app, count_map_none by reflexivity.
    rewrite count_map_all by reflexivity. rewrite length_seq. reflexivity.
  - rewrite !count_app, !count_cons, !count_nil, Hafter_e in *.
    cbn [is_end_call] in *. lia.
  - rewrite Hfinal. exact Hb.
  - intros Hs.
    pose proof (count_le_budget
                  (set_trace (trace s1 ++ after)
                     (set_isTerminationInProgress false s1))) as Hle.
    rewrite Hfinal in Hle. lia.
Qed.

Lemma coordinated_termination_single_flight_witness :
  let s := new_ResponseState (fun _ _ => Returns true) false "req-1" in
  let w := run (map Invoke ["timeout"; "client_disconnect"; "error"]
                  ++ repeat Tick 3) (start s) in
  exists before after,
    trace (w_state w) = trace s ++ before ++ [PerformEnd] ++ after /\
    count is_perform_begin (before ++ [PerformEnd] ++ after) = 1 /\
    count is_perform_begin before = 1 /\
    count is_settled before = 0 /\
    (forall i, i < 3 -> In (CallSettled i Fulfilled) after) /\
    count is_settled after = 3 /\
    w_queue w = [] /\
    isTerminationInProgress (w_state w) = false /\
    count is_end_call (before ++ [PerformEnd] ++ after) <= 1 /\
    end_budget (w_state w) <= end_budget s /\
    (end_budget s <= 1 -> count is_end_call (trace (w_state w)) <= 1).
Proof.
  intros s w.
  exact (coordinated_termination_single_flight s "timeout"
           ["client_disconnect"; "error"] eq_refl).
Defined.

(** *** A termination that fails *)

Lemma resume_joined (lock : Promise) (s : ResponseState) :
  coordinatedTermination_resume (Joined lock) s =
    (s, match lock with Fulfilled => Normal tt | Rejected e => Throw e end).
Proof. destruct lock; reflexivity. Qed.

Lemma resume_driving (r : string) (lock : Promise) (s : ResponseState) :
  coordinatedTermination_resume (Driving r lock) s =
    (set_isTerminationInProgress false
       match lock with
       | Fulfilled => s
       | Rejected e =>
           set_trace (trace s ++ [Log Warn "Error during coordinated termination" e]) s
       end,
     Normal tt).
Proof. destruct lock; reflexivity. Qed.

(** C2 fails on the code for the caller that joined.  When the lock it
    awaits is rejected with [e], the joined call logs nothing and throws [e]
    to its caller (its [await] at line 201 is outside every [try]); only the
    call that drove the episode logs a warning and returns.  The run shown is
    two calls made in the same stretch on a fresh response whose termination
    operation fails with [boom]: call 0 resolves, call 1 rejects. *)
Theorem joined_call_rethrows_failure :
  (forall s e,
     coordinatedTermination_resume (Joined (Rejected e)) s = (s, Throw e)) /\
  (forall s r e,
     coordinatedTermination_resume (Driving r (Rejected e)) s =
       (set_isTerminationInProgress false
          (set_trace (trace s ++ [Log Warn "Error during coordinated termination" e]) s),
        Normal tt)) /\
  trace (w_state
           (run_with (failing_perform "boom")
              [Invoke "timeout"; Invoke "client_disconnect"; Tick; Tick]
              (start (new_ResponseState (fun _ _ => Returns true) false "req-1")))) =
    [ start_log "timeout"; PerformBegin;
      Log ErrorLevel "Error during termination execution" "boom";
      PerformEnd;
      join_log "client_disconnect";
      Log Warn "Error during coordinated termination" "boom";
      CallSettled 0 Fulfilled;
      CallSettled 1 (Rejected "boom") ].
Proof.
  split; [|split].
  - intros s e. apply (resume_joined (Rejected e)).
  - intros s r e. apply (resume_driving r (Rejected e)).
  - vm_compute. reflexivity.
Qed.

(** ** The response stays closed *)

Lemma evolves_closed (s s' : ResponseState) :
  evolves s s' -> canWrite s = false ->
  canWrite s' = false /\ canWriteHeaders s' = false.
Proof.
  intros [He Hd _ _ _ _ _] H.
  unfold canWrite, canWriteHeaders in *.
  destruct (isEnded s) eqn:E1.
  - rewrite (He eq_refl). destruct (isHeadersSent s'); auto.
  - destruct (isDestroyed s) eqn:E2; [|discriminate].
    rewrite (Hd eq_refl).
    destruct (isHeadersSent s'), (isEnded s'); auto.
Qed.

(** Operations other than the two halves of [coordinatedTermination] leave
    the termination flag alone. *)
Lemma flag_kept_op (o : Op) (s : ResponseState) :
  match o with OpTerminate _ | OpResume _ => False | _ => True end ->
  isTerminationInProgress (exec_op o s) = isTerminationInProgress s.
Proof.
  unfold exec_op, op_call.
  destruct o; intros H; try contradiction; clear H; revert s;
    try (by_cases reflexivity).
  - unfold writeEvent. destruct data as [e|j]; destruct (truthy eventType);
      by_cases reflexivity.
  - unfold writeDone. by_cases reflexivity.
Qed.

Lemma enter_closes (r : string) (s : ResponseState) :
  grounded s ->
  canWrite (fst (coordinatedTermination_enter r s)) = false /\
  grounded (fst (coordinatedTermination_enter r s)).
Proof.
  intros Hg. destruct (isTerminationInProgress s) eqn:Hflag.
  - rewrite enter_joins by exact Hflag. cbn [fst].
    assert (canWrite (set_trace (trace s ++ [join_log r]) s) = false)
      by (exact (Hg Hflag)).
    split; [assumption | intros _; assumption].
  - destruct (enter_drives r s Hflag) as (s1 & mid & E & _ & _ & _ & _ & Hc).
    rewrite E. cbn [fst]. split; [assumption | intros _; assumption].
Qed.

Lemma grounded_exec_op (o : Op) (s : ResponseState) :
  grounded s -> grounded (exec_op o s).
Proof.
  intros Hg.
  assert (Hother :
            isTerminationInProgress (exec_op o s) = isTerminationInProgress s ->
            grounded (exec_op o s)).
  { intros Hk Hflag. rewrite Hk in Hflag.
    apply (evolves_closed s); [apply evolves_exec_op | exact (Hg Hflag)]. }
  destruct o; try (apply Hother; apply flag_kept_op; exact I).
  - (* the call, up to its await *)
    unfold exec_op, op_call, ignore, bind.
    destruct (enter_closes reason s Hg) as [_ Hg'].
    destruct (coordinatedTermination_enter reason s) as [s1 [p|e|]]; exact Hg'.
  - (* a resumption *)
    unfold exec_op, op_call. destruct p as [lock|r lock].
    + rewrite resume_joined. exact Hg.
    + rewrite resume_driving. intros Hflag. discriminate.
Qed.

Lemma grounded_exec_ops (ops : list Op) (s : ResponseState) :
  grounded s -> grounded (exec_ops ops s).
Proof.
  revert s. induction ops as [|o ops IH]; intros s Hg; [exact Hg|].
  apply IH. apply grounded_exec_op. exact Hg.
Qed.

Lemma reachable_grounded (s : ResponseState) : reachable s -> grounded s.
Proof.
  intros (res0 & socket & id & ops & ->).
  apply grounded_exec_ops. intros H. discriminate.
Qed.

Lemma reachable_end_budget (s : ResponseState) : reachable s -> end_budget s <= 1.
Proof.
  intros (res0 & socket & id & ops & ->).
  destruct (evolves_exec_ops ops (new_ResponseState res0 socket id))
    as [_ _ _ _ _ _ Hb].
  exact Hb.
Qed.

(** ** Which methods never throw *)

Ltac solve_returns := eexists; reflexivity.

Lemma returns_log l m d : returns (log l m d).
Proof. apply returns_modify. Qed.

Lemma returns_safeWriteHeaders c h : returns (safeWriteHeaders c h).
Proof. by_cases solve_returns. Qed.

Lemma returns_safeWrite d : returns (safeWrite d).
Proof. by_cases solve_returns. Qed.

Lemma returns_safeEnd d : returns (safeEnd d).
Proof. by_cases solve_returns. Qed.

Lemma returns_destroy : returns destroy.
Proof. intros s. exists tt. apply destroy_spec. Qed.

Lemma returns_interleave ops : returns (interleave ops).
Proof. apply returns_modify. Qed.

Lemma returns_enter r : returns (coordinatedTermination_enter r).
Proof.
  intros s. destruct (isTerminationInProgress s) eqn:Hflag.
  - rewrite enter_joins by exact Hflag. eexists. reflexivity.
  - destruct (enter_drives r s Hflag) as (s1 & mid & E & _). rewrite E.
    eexists. reflexivity.
Qed.

Lemma defined_resume p : defined (coordinatedTermination_resume p).
Proof.
  intros s. destruct p as [lock|r lock].
  - rewrite resume_joined. destruct lock; discriminate.
  - rewrite resume_driving. discriminate.
Qed.

#[local] Hint Resolve returns_log returns_safeWriteHeaders returns_safeWrite
  returns_safeEnd returns_destroy returns_interleave returns_enter : js.
#[local] Hint Resolve defined_resume : js.

Ltac returns_steps :=
  repeat first
    [ solve [auto with js]
    | match goal with
      | |- returns (ret _) => apply returns_ret
      | |- returns (gets _) => apply returns_gets
      | |- returns res_canWriteHeaders => apply returns_gets
      | |- returns (bind _ _) => apply returns_bind; [| intros ?]
      | |- returns (try_catch _ _) => apply returns_try_catch; [| intros ?]
      | |- returns (promise_of _) => apply returns_promise_of
      | |- defined (throw _) => apply defined_throw
      | |- defined (await _) => apply defined_await
      | |- defined (bind _ _) => apply defined_bind; [| intros ?]
      | |- defined (try_catch _ _) => apply defined_try_catch; [| intros ?]
      | |- defined (if ?b then _ else _) => destruct b
      | |- returns (if ?b then _ else _) => destruct b
      | |- defined (match ?x with _ => _ end) => destruct x
      | |- returns (match ?x with _ => _ end) => destruct x
      | |- defined _ => apply returns_defined
      end ].

Lemma defined_coordinatedTermination r others :
  defined (coordinatedTermination r others).
Proof. unfold coordinatedTermination. returns_steps. Qed.

Lemma keeps_coordinatedTermination r others :
  keeps evolves (coordinatedTermination r others).
Proof. unfold coordinatedTermination. keeps_steps. Qed.

#[local] Hint Resolve defined_coordinatedTermination keeps_coordinatedTermination : js.

Lemma returns_boundary_terminate others later :
  returns (boundary_terminate others later).
Proof. unfold boundary_terminate. returns_steps. Qed.

Lemma returns_boundary_error_response : returns boundary_error_response.
Proof. unfold boundary_error_response. returns_steps. Qed.

Lemma returns_boundary_error_handler e h : returns (boundary_error_handler e h).
Proof. unfold boundary_error_handler, await_call. returns_steps. Qed.

(** ** The error boundary *)

Lemma coordinatedTermination_closes r others (s : ResponseState) :
  grounded s -> canWrite (fst (coordinatedTermination r others s)) = false.
Proof.
  intros Hg. unfold coordinatedTermination.
  apply (evolves_closed (fst (coordinatedTermination_enter r s))).
  - apply after_bind; [apply evolves_refl|]. intros p. keeps_steps.
  - exact (proj1 (enter_closes r s Hg)).
Qed.

Lemma boundary_terminate_closes others later (s : ResponseState) :
  grounded s -> canWrite (fst (boundary_terminate others later s)) = false.
Proof.
  intros Hg. unfold boundary_terminate.
  apply (evolves_closed (fst (coordinatedTermination "error_boundary" others s))).
  - match goal with
    | |- evolves _ (fst (try_catch ?m ?h ?s0)) =>
        apply (evolves_trans _ (fst (m s0)));
        [| apply (after_try_catch evolves evolves_refl m h s0);
           intros e; keeps_steps ]
    end.
    rewrite <- (fst_promise_of (coordinatedTermination "error_boundary" others) s).
    apply after_bind; [apply evolves_refl|]. intros p. keeps_steps.
  - apply coordinatedTermination_closes. exact Hg.
Qed.

Lemma boundary_state_at_check_eq {A} (fn : AsyncFn A) e others later s :
  boundary_state_at_check fn e others later s =
    fst (boundary_terminate others later
           (set_trace (trace (exec_ops (fn_body fn) s)
                         ++ [Log ErrorLevel "Streaming error boundary triggered" e])
              (exec_ops (fn_body fn) s))).
Proof. reflexivity. Qed.

Lemma grounded_logged (s : ResponseState) (e : Event) :
  grounded s -> grounded (set_trace (trace s ++ [e]) s).
Proof. intros Hg. exact Hg. Qed.

Lemma boundary_error_response_skips (s : ResponseState) :
  canWriteHeaders s = false ->
  boundary_error_response s =
    (set_trace
       (trace s ++ [Log Debug
                      "Skipping error response - headers already sent or response ended"
                      ""]) s,
     Normal tt).
Proof.
  intros H. unfold boundary_error_response, res_canWriteHeaders, bind, gets.
  rewrite H. reflexivity.
Qed.

(** C10.  On a response in a state the program can reach (no termination is
    in progress, or the one in progress has already run), a call of
    [coordinatedTermination], whatever other code does to the response while
    it is suspended and however it settles, leaves [isEnded] or [isDestroyed]
    true, hence [canWriteHeaders()] false.  So when the boundary, after any
    handler failure, reaches its test of [canWriteHeaders()], the test is
    false: it only logs that the error response is skipped, and the branch
    that writes the 500 payload is never taken. *)
Theorem error_payload_branch_unreachable (s : ResponseState) :
  grounded s ->
  (forall reason others,
     let s' := fst (coordinatedTermination reason others s) in
     (isEnded s' = true \/ isDestroyed s' = true) /\ canWriteHeaders s' = false) /\
  (forall A (fn : AsyncFn A) e others later,
     let s1 := boundary_state_at_check fn e others later s in
     canWriteHeaders s1 = false /\
     boundary_error_response s1 =
       (set_trace
          (trace s1 ++ [Log Debug
                          "Skipping error response - headers already sent or response ended"
                          ""]) s1,
        Normal tt)).
Proof.
  intros Hg. split.
  - intros reason others s'.
    pose proof (coordinatedTermination_closes reason others s Hg) as Hc.
    fold s' in Hc. split.
    + unfold canWrite in Hc.
      destruct (isEnded s'); [left; reflexivity|].
      destruct (isDestroyed s'); [right; reflexivity | discriminate].
    + apply (evolves_closed s' s'); [apply evolves_refl | exact Hc].
  - intros A fn e others later s1.
    assert (Hc : canWrite s1 = false).
    { subst s1. rewrite boundary_state_at_check_eq.
      apply boundary_terminate_closes, grounded_logged, grounded_exec_ops, Hg. }
    assert (Hh : canWriteHeaders s1 = false)
      by (apply (evolves_closed s1 s1); [apply evolves_refl | exact Hc]).
    split; [exact Hh | apply boundary_error_response_skips; exact Hh].
Qed.

Lemma error_payload_branch_unreachable_witness :
  let s := exec_ops [OpSafeWriteHeaders 200 []; OpTerminate "timeout"]
             (new_ResponseState (fun _ _ => Returns true) true "req-1") in
  (forall reason others,
     let s' := fst (coordinatedTermination reason others s) in
     (isEnded s' = true \/ isDestroyed s' = true) /\ canWriteHeaders s' = false) /\
  (forall A (fn : AsyncFn A) e others later,
     let s1 := boundary_state_at_check fn e others later s in
     canWriteHeaders s1 = false /\
     boundary_error_response s1 =
       (set_trace
          (trace s1 ++ [Log Debug
                          "Skipping error response - headers already sent or response ended"
                          ""]) s1,
        Normal tt)).
Proof.
  intros s. apply (error_payload_branch_unreachable s).
  intros _. vm_compute. reflexivity.
Defined.

Lemma enter_trace (r : string) (s : ResponseState) :
  exists req rest,
    trace (fst (coordinatedTermination_enter r s)) = trace s ++ req :: rest /\
    (req = start_log r \/ req = join_log r).
Proof.
  destruct (isTerminationInProgress s) eqn:Hflag.
  - rewrite enter_joins by exact Hflag. exists (join_log r), []. auto.
  - destruct (enter_drives r s Hflag) as (s1 & mid & E & Ht & _).
    rewrite E. cbn [fst]. rewrite Ht.
    exists (start_log r), (PerformBegin :: mid ++ [PerformEnd]). auto.
Qed.

Lemma boundary_terminate_after_enter others later (s : ResponseState) :
  evolves (fst (coordinatedTermination_enter "error_boundary" s))
          (fst (boundary_terminate others later s)).
Proof.
  unfold boundary_terminate.
  match goal with
  | |- evolves _ (fst (try_catch ?m ?h ?s0)) =>
      apply (evolves_trans _ (fst (m s0)));
      [| apply (after_try_catch evolves evolves_refl m h s0);
         intros e; keeps_steps ]
  end.
  apply (evolves_trans _ (fst (coordinatedTermination "error_boundary" others s))).
  - unfold coordinatedTermination.
    apply after_bind; [apply evolves_refl|]. intros p. keeps_steps.
  - rewrite <- (fst_promise_of (coordinatedTermination "error_boundary" others) s).
    apply after_bind; [apply evolves_refl|]. intros p. keeps_steps.
Qed.

Lemma safeWriteHeaders_first_event (s : ResponseState) (c : Z) (h : Headers) :
  canWriteHeaders s = true ->
  exists rest,
    trace (fst (safeWriteHeaders c h s)) = trace s ++ Real (OriginalWriteHead c h) :: rest.
Proof.
  destruct s as [id hs en de st sc ip lk rsn tp sk t]. run_js.
  destruct hs, en, de; intros H; try discriminate.
  destruct (tp (transport_calls t) (OriginalWriteHead c h)); run_js.
  - exists []. reflexivity.
  - eexists. rewrite <- app_assoc. reflexivity.
Qed.

Lemma boundary_error_response_attempts (s : ResponseState) :
  canWriteHeaders s = true ->
  boundary_error_response s =
    try_catch
      (safeWriteHeaders 500 errorHeaders ;;
       safeWrite errorResponse ;;
       safeEnd None ;;
       ret tt)
      (fun writeError =>
         log ErrorLevel "Failed to send error response in stream" writeError) s.
Proof.
  intros H. unfold boundary_error_response, res_canWriteHeaders.
  unfold bind at 1. unfold gets. rewrite H. reflexivity.
Qed.

(** C9.  When the handler's promise rejects with [e], whatever the handler
    and other code did to the response: the boundary logs the failure
    and at once calls [coordinatedTermination('error_boundary')]; at its test
    of [canWriteHeaders()], a false answer means nothing is sent to the
    transport, a true one that the 500 header write is the next thing sent;
    the optional error handler runs; [destroy()] runs last, so [isDestroyed]
    and [isEnded] are true at the end; and the boundary throws [e] itself,
    whatever termination, the error response or the error handler did. *)
Theorem error_boundary_rethrows_original {A} (fn : AsyncFn A)
    (errorHandler : option (Error -> AsyncFn unit)) (others later : list Op)
    (s : ResponseState) (e : Error) :
  fn_settles fn = RejectsWith e ->
  let s0 := exec_ops (fn_body fn) s in
  let s1 := boundary_state_at_check fn e others later s in
  let s2 := fst (boundary_error_response s1) in
  let s3 := fst (boundary_error_handler e errorHandler s2) in
  withStreamingErrorBoundary fn errorHandler others later s =
    (fst (destroy s3), Throw e) /\
  isDestroyed (fst (destroy s3)) = true /\
  isEnded (fst (destroy s3)) = true /\
  (exists req rest,
     trace s1 = trace s0
                  ++ Log ErrorLevel "Streaming error boundary triggered" e
                  :: req :: rest /\
     (req = start_log "error_boundary" \/ req = join_log "error_boundary")) /\
  (canWriteHeaders s1 = false ->
     transport_calls (trace s2) = transport_calls (trace s1)) /\
  (canWriteHeaders s1 = true ->
     exists rest,
       trace s2 = trace s1 ++ Real (OriginalWriteHead 500 errorHeaders) :: rest).
Proof.
  intros Hfn s0 s1 s2 s3.
  destruct (destroy_spec s3) as (_ & Hd & He & _).
  split; [|split; [exact Hd | split; [exact He | split; [|split]]]].
  - unfold withStreamingErrorBoundary, try_catch, await_call.
    rewrite Hfn. cbv [bind interleave modify throw].
    fold s0. unfold boundary_catch.
    rewrite seq_returns by apply returns_log.
    rewrite seq_returns by apply returns_boundary_terminate.
    rewrite seq_returns by apply returns_boundary_error_response.
    rewrite seq_returns by apply returns_boundary_error_handler.
    rewrite seq_returns by apply returns_destroy.
    reflexivity.
  - subst s1. rewrite boundary_state_at_check_eq. fold s0.
    set (sL := set_trace
                 (trace s0 ++ [Log ErrorLevel "Streaming error boundary triggered" e])
                 s0).
    destruct (enter_trace "error_boundary" sL) as (req & rest & Ht & Hreq).
    destruct (boundary_terminate_after_enter others later sL)
      as [_ _ _ _ _ [new Hnew] _].
    exists req, (rest ++ new). split; [|exact Hreq].
    rewrite Hnew, Ht. unfold sL. cbn [set_trace trace].
    rewrite <- !app_assoc. reflexivity.
  - intros Hcan. subst s2.
    rewrite boundary_error_response_skips by exact Hcan.
    cbn [fst set_trace trace]. rewrite transport_calls_app. simpl.
    apply app_nil_r.
  - intros Hcan. subst s2.
    destruct (safeWriteHeaders_first_event s1 500 errorHeaders Hcan) as [rest Hrest].
    assert (Hev : evolves (fst (safeWriteHeaders 500 errorHeaders s1))
                          (fst (boundary_error_response s1))).
    { rewrite boundary_error_response_attempts by exact Hcan.
      match goal with
      | |- evolves _ (fst (try_catch ?m ?h ?s0)) =>
          apply (evolves_trans _ (fst (m s0)));
          [| apply (after_try_catch evolves evolves_refl m h s0);
             intros we; keeps_steps ]
      end.
      apply (after_bind evolves evolves_refl (safeWriteHeaders 500 errorHeaders)).
      intros b. keeps_steps. }
    destruct Hev as [_ _ _ _ _ [new Hnew] _].
    exists (rest ++ new). rewrite Hnew, Hrest, <- app_assoc. reflexivity.
Qed.

Lemma error_boundary_rethrows_original_witness :
  let s := new_ResponseState (fun _ _ => Returns true) true "req-1" in
  let fn := mkAsyncFn
              [OpSafeWriteHeaders 200 []; OpMarkStreamingStarted;
               OpWriteEvent (inr "{}") None]
              (@RejectsWith unit "upstream failed") in
  let s1 := boundary_state_at_check fn "upstream failed" [OpSafeWrite "late"] [] s in
  let s3 := fst (boundary_error_handler "upstream failed" None
                   (fst (boundary_error_response s1))) in
  withStreamingErrorBoundary fn None [OpSafeWrite "late"] [] s =
    (fst (destroy s3), Throw "upstream failed") /\
  isDestroyed (fst (destroy s3)) = true /\
  isEnded (fst (destroy s3)) = true.
Proof.
  intros s fn s1 s3.
  pose proof (error_boundary_rethrows_original fn None [OpSafeWrite "late"] [] s
                "upstream failed" eq_refl) as H.
  split; [exact (proj1 H) | split].
  - exact (proj1 (proj2 H)).
  - exact (proj1 (proj2 (proj2 H))).
Defined.

(** ** Further properties of [ResponseState] *)

Import StateProps.

Lemma count_weaker (p q : Event -> bool) (l : list Event) :
  (forall e, p e = true -> q e = true) -> count q l = 0 -> count p l = 0.
Proof.
  intros Hpq. induction l as [|e l IH]; intros H; [reflexivity|].
  rewrite count_cons in *. destruct (q e) eqn:Hq; [lia|].
  destruct (p e) eqn:Hp; [rewrite (Hpq e Hp) in Hq; discriminate|].
  apply IH. lia.
Qed.

(** *** Nothing is written once the response has ended *)

Lemma steady_refl (s : ResponseState) : steady s s.
Proof.
  constructor; auto. exists []. rewrite app_nil_r. split; reflexivity.
Qed.

Lemma steady_trans (s1 s2 s3 : ResponseState) :
  steady s1 s2 -> steady s2 s3 -> steady s1 s3.
Proof.
  intros [e1 r1 c1 (n1 & t1 & q1)] [e2 r2 c2 (n2 & t2 & q2)].
  constructor; auto.
  exists (n1 ++ n2). split; [rewrite t2, t1, app_assoc; reflexivity|].
  intros H. rewrite count_app, (q1 H), (q2 (e1 H)). reflexivity.
Qed.

Ltac steady_by_cases :=
  constructor; run_js;
  first [ solve [auto]
        | eexists; split;
          [ first [ symmetry; apply app_nil_r
                  | rewrite <- ?app_assoc; cbn [app]; reflexivity ]
          | let H := fresh in intros H; first [discriminate H | reflexivity] ] ].

Lemma steady_res_writeHead c h : keeps steady (res_writeHead c h).
Proof. by_cases steady_by_cases. Qed.
Lemma steady_res_write d : keeps steady (res_write d).
Proof. by_cases steady_by_cases. Qed.
Lemma steady_res_end d : keeps steady (res_end d).
Proof. by_cases steady_by_cases. Qed.
Lemma steady_res_safeWriteHead c h : keeps steady (res_safeWriteHead c h).
Proof. by_cases steady_by_cases. Qed.
Lemma steady_res_safeWrite d : keeps steady (res_safeWrite d).
Proof. by_cases steady_by_cases. Qed.
Lemma steady_res_safeEnd d : keeps steady (res_safeEnd d).
Proof. by_cases steady_by_cases. Qed.
Lemma steady_mark_started : keeps steady res_markStreamingStarted.
Proof. by_cases steady_by_cases. Qed.
Lemma steady_mark_completed : keeps steady res_markStreamingCompleted.
Proof. by_cases steady_by_cases. Qed.
Lemma steady_safeWriteHeaders c h : keeps steady (safeWriteHeaders c h).
Proof. by_cases steady_by_cases. Qed.
Lemma steady_safeWrite d : keeps steady (safeWrite d).
Proof. by_cases steady_by_cases. Qed.
Lemma steady_safeEnd d : keeps steady (safeEnd d).
Proof. by_cases steady_by_cases. Qed.
Lemma steady_destroy : keeps steady destroy.
Proof. by_cases steady_by_cases. Qed.
Lemma steady_performTermination r : keeps steady (_performTermination r).
Proof. by_cases steady_by_cases. Qed.

Lemma steady_emit (e : Event) :
  is_write_or_end e = false -> keeps steady (emit e).
Proof.
  intros He s. unfold emit, modify. cbn [fst]. constructor; auto.
  exists [e]. split; [reflexivity|]. intros _.
  rewrite count_cons, He. reflexivity.
Qed.

Lemma steady_log l m d : keeps steady (log l m d).
Proof. apply steady_emit. reflexivity. Qed.

Lemma steady_set_other (f : ResponseState -> ResponseState) :
  (forall s, isEnded (f s) = isEnded s /\ isStreaming (f s) = isStreaming s /\
             streamingCompleted (f s) = streamingCompleted s /\
             trace (f s) = trace s) ->
  keeps steady (modify f).
Proof.
  intros Hf s. unfold modify. cbn [fst].
  destruct (Hf s) as (He & Hs & Hc & Ht).
  constructor; try congruence.
  exists []. rewrite app_nil_r. split; [exact Ht | reflexivity].
Qed.

Create HintDb steadydb.
#[local] Hint Resolve steady_res_writeHead steady_res_write steady_res_end
  steady_res_safeWriteHead steady_res_safeWrite steady_res_safeEnd
  steady_mark_started steady_mark_completed steady_safeWriteHeaders
  steady_safeWrite steady_safeEnd steady_destroy steady_performTermination
  steady_log : steadydb.

(** Break a computation into its steps, for a relation with the given proofs
    of reflexivity and transitivity. *)
Ltac chain refl trans leaf :=
  repeat first
    [ solve [leaf]
    | match goal with
      | |- keeps _ (ret _) => apply keeps_ret; apply refl
      | |- keeps _ (throw _) => apply keeps_throw; apply refl
      | |- keeps _ (gets _) => apply keeps_gets; apply refl
      | |- keeps _ res_canWrite => apply keeps_gets; apply refl
      | |- keeps _ res_canWriteHeaders => apply keeps_gets; apply refl
      | |- keeps _ (await _) => apply keeps_await; apply refl
      | |- keeps _ (bind _ _) => apply keeps_bind; [apply trans | | intros ?]
      | |- keeps _ (try_catch _ _) =>
          apply keeps_try_catch; [apply trans | | intros ?]
      | |- keeps _ (try_finally _ _) =>
          apply keeps_try_finally; [apply trans | | ]
      | |- keeps _ (promise_of _) => apply keeps_promise_of
      | |- keeps _ (let _ := _ in _) => cbv zeta
      | |- keeps _ (if ?b then _ else _) => destruct b
      | |- keeps _ (match ?x with _ => _ end) => destruct x
      end ].

Ltac steady_steps := chain steady_refl steady_trans ltac:(auto with steadydb).

Lemma steady_enter r : keeps steady (coordinatedTermination_enter r).
Proof.
  unfold coordinatedTermination_enter, coordinatedTermination_enter_with.
  steady_steps; try (apply steady_emit; reflexivity);
    apply steady_set_other; intros s; repeat split; reflexivity.
Qed.

Lemma steady_resume p : keeps steady (coordinatedTermination_resume p).
Proof.
  unfold coordinatedTermination_resume. destruct p; steady_steps.
  apply steady_set_other; intros s; repeat split; reflexivity.
Qed.

Lemma steady_writeEvent d t : keeps steady (writeEvent d t).
Proof. unfold writeEvent. steady_steps. Qed.

Lemma steady_writeDone : keeps steady writeDone.
Proof. unfold writeDone. steady_steps. Qed.

#[local] Hint Resolve steady_enter steady_resume steady_writeEvent
  steady_writeDone : steadydb.

Lemma steady_op (o : Op) : keeps steady (op_call o).
Proof. destruct o; unfold op_call, ignore; steady_steps. Qed.

Lemma steady_exec_ops (ops : list Op) (s : ResponseState) :
  steady s (exec_ops ops s).
Proof.
  unfold exec_ops. apply keeps_fold.
  - apply steady_refl.
  - apply steady_trans.
  - intros o s0. apply steady_op.
Qed.

(** X1.  Over the whole life of a [ResponseState], whatever sequence of
    operations is applied to it after construction, the transport's [end] is
    invoked at most once. *)
Theorem terminal_write_at_most_once
    (res0 : Transport) (socket : bool) (id : string) (ops : list Op) :
  count is_end_call (trace (exec_ops ops (new_ResponseState res0 socket id))) <= 1.
Proof.
  destruct (evolves_exec_ops ops (new_ResponseState res0 socket id))
    as [_ _ _ _ _ _ Hb].
  pose proof (count_le_budget (exec_ops ops (new_ResponseState res0 socket id))).
  change (end_budget (new_ResponseState res0 socket id)) with 1 in Hb. lia.
Qed.

(** X2.  Once [isEnded] is set, no operation of the class, the overridden
    [res] methods or the SSE writer hands the transport another chunk or
    another terminal write, and [isEnded] stays set. *)
Theorem nothing_written_after_end (s : ResponseState) (ops : list Op) :
  isEnded s = true ->
  exists new,
    trace (exec_ops ops s) = trace s ++ new /\
    count is_write_or_end new = 0 /\
    isEnded (exec_ops ops s) = true.
Proof.
  intros H. destruct (steady_exec_ops ops s) as [He _ _ (new & Ht & Hq)].
  exists new. auto.
Qed.

Lemma nothing_written_after_end_witness :
  let s := exec_ops [OpSafeWriteHeaders 200 []; OpSafeEnd None]
             (new_ResponseState (fun _ _ => Returns true) true "req-1") in
  let ops := [OpWrite "late"; OpEnd (Some "again"); OpWriteDone; OpResSafeEnd None;
              OpTerminate "timeout"; OpDestroy] in
  exists new,
    trace (exec_ops ops s) = trace s ++ new /\
    count is_write_or_end new = 0 /\
    isEnded (exec_ops ops s) = true.
Proof.
  intros s ops. exact (nothing_written_after_end s ops eq_refl).
Defined.

(** *** Header writes over all entry points *)

Lemma header_once_refl (s : ResponseState) : header_once s s.
Proof. unfold header_once. lia. Qed.

Lemma header_once_trans (s1 s2 s3 : ResponseState) :
  header_once s1 s2 -> header_once s2 s3 -> header_once s1 s3.
Proof. unfold header_once. lia. Qed.

Ltac header_by_cases :=
  unfold header_once, header_budget; run_js;
  rewrite ?count_app, ?count_cons, ?count_nil; cbn [is_writeHead_call]; lia.

Lemma header_res_writeHead c h : keeps header_once (res_writeHead c h).
Proof. by_cases header_by_cases. Qed.
Lemma header_res_write d : keeps header_once (res_write d).
Proof. by_cases header_by_cases. Qed.
Lemma header_res_end d : keeps header_once (res_end d).
Proof. by_cases header_by_cases. Qed.
Lemma header_res_safeWrite d : keeps header_once (res_safeWrite d).
Proof. by_cases header_by_cases. Qed.
Lemma header_res_safeEnd d : keeps header_once (res_safeEnd d).
Proof. by_cases header_by_cases. Qed.
Lemma header_mark_started : keeps header_once res_markStreamingStarted.
Proof. by_cases header_by_cases. Qed.
Lemma header_mark_completed : keeps header_once res_markStreamingCompleted.
Proof. by_cases header_by_cases. Qed.
Lemma header_safeWriteHeaders c h : keeps header_once (safeWriteHeaders c h).
Proof. by_cases header_by_cases. Qed.
Lemma header_safeWrite d : keeps header_once (safeWrite d).
Proof. by_cases header_by_cases. Qed.
Lemma header_safeEnd d : keeps header_once (safeEnd d).
Proof. by_cases header_by_cases. Qed.
Lemma header_destroy : keeps header_once destroy.
Proof. by_cases header_by_cases. Qed.
Lemma header_performTermination r : keeps header_once (_performTermination r).
Proof. by_cases header_by_cases. Qed.

Lemma header_emit (e : Event) :
  is_writeHead_call e = false -> keeps header_once (emit e).
Proof.
  intros He s. unfold emit, modify, header_once, header_budget. cbn [fst].
  cbn [set_trace trace isHeadersSent].
  rewrite count_app, count_cons, He, count_nil. lia.
Qed.

Lemma header_log l m d : keeps header_once (log l m d).
Proof. apply header_emit. reflexivity. Qed.

Lemma header_set_other (f : ResponseState -> ResponseState) :
  (forall s, isHeadersSent (f s) = isHeadersSent s /\ trace (f s) = trace s) ->
  keeps header_once (modify f).
Proof.
  intros Hf s. unfold modify, header_once, header_budget. cbn [fst].
  destruct (Hf s) as [-> ->]. lia.
Qed.

Create HintDb headerdb.
#[local] Hint Resolve header_res_writeHead header_res_write header_res_end
  header_res_safeWrite header_res_safeEnd header_mark_started
  header_mark_completed header_safeWriteHeaders header_safeWrite header_safeEnd
  header_destroy header_performTermination header_log : headerdb.

Ltac header_steps :=
  chain header_once_refl header_once_trans ltac:(auto with headerdb).

Lemma header_enter r : keeps header_once (coordinatedTermination_enter r).
Proof.
  unfold coordinatedTermination_enter, coordinatedTermination_enter_with.
  header_steps; try (apply header_emit; reflexivity);
    try (apply header_set_other; intros s; split; reflexivity).
Qed.

Lemma header_resume p : keeps header_once (coordinatedTermination_resume p).
Proof.
  unfold coordinatedTermination_resume. destruct p; header_steps;
    apply header_set_other; intros s; split; reflexivity.
Qed.

Lemma header_writeEvent d t : keeps header_once (writeEvent d t).
Proof. unfold writeEvent. header_steps. Qed.

Lemma header_writeDone : keeps header_once writeDone.
Proof. unfold writeDone. header_steps. Qed.

#[local] Hint Resolve header_enter header_resume header_writeEvent
  header_writeDone : headerdb.

Lemma header_op (o : Op) :
  uses_res_safeWriteHead o = false -> keeps header_once (op_call o).
Proof.
  destruct o; intros H; try discriminate H; unfold op_call, ignore; header_steps.
Qed.

Lemma header_exec_ops (ops : list Op) :
  guarded_ops ops = true ->
  forall s, header_once s (exec_ops ops s).
Proof.
  induction ops as [|o ops IH]; intros H s.
  - apply header_once_refl.
  - cbn [guarded_ops forallb] in H. apply andb_true_iff in H. destruct H as [Ho H].
    apply negb_true_iff in Ho.
    apply (header_once_trans s (exec_op o s)).
    + apply (header_op o Ho).
    + apply IH. exact H.
Qed.

(** X3.  As long as [res.safeWriteHead] is not used, whatever else is done to
    a [ResponseState] after construction, through the overridden
    [res.writeHead], [safeWriteHeaders], termination or the SSE writer, the
    transport's [writeHead] is invoked at most once. *)
Theorem guarded_header_writes_at_most_once
    (res0 : Transport) (socket : bool) (id : string) (ops : list Op) :
  guarded_ops ops = true ->
  count is_writeHead_call
    (trace (exec_ops ops (new_ResponseState res0 socket id))) <= 1.
Proof.
  intros H.
  pose proof (header_exec_ops ops H (new_ResponseState res0 socket id)) as Hb.
  unfold header_once, header_budget in Hb.
  cbn [new_ResponseState isHeadersSent trace] in Hb.
  rewrite count_nil in Hb.
  destruct (isHeadersSent (exec_ops ops (new_ResponseState res0 socket id))); lia.
Qed.

Lemma guarded_header_writes_at_most_once_witness :
  count is_writeHead_call
    (trace (exec_ops [OpWriteHead 200 []; OpSafeWriteHeaders 500 []; OpWriteHead 404 []]
              (new_ResponseState (fun _ _ => Returns true) false "req-1"))) <= 1.
Proof.
  apply (guarded_header_writes_at_most_once (fun _ _ => Returns true) false "req-1").
  reflexivity.
Defined.

(** One call of [res.safeWriteHead] while headers are unsent and the response
    has not ended: the header write reaches the transport and the state is
    not told. *)
Lemma res_safeWriteHead_open (s : ResponseState) (c : Z) (h : Headers) :
  isHeadersSent s = false -> isEnded s = false ->
  fst (res_safeWriteHead c h s) =
    set_trace (trace s ++ [Real (OriginalWriteHead c h)]) s.
Proof.
  destruct s as [id hs en de st sc ip lk rsn tp sk t]. run_js.
  intros -> ->. run_js.
  destruct (tp (transport_calls t) (OriginalWriteHead c h)); reflexivity.
Qed.

Lemma raw_header_calls_cons (s : ResponseState) c h (args : list (Z * Headers)) :
  run_calls (raw_header_calls ((c, h) :: args)) s =
  let '(s1, r) := res_safeWriteHead c h s in
  let '(s2, rest) := run_calls (raw_header_calls args) s1 in
  (s2, r :: rest).
Proof. reflexivity. Qed.

(** X4.  [res.safeWriteHead] does not set [isHeadersSent]: while the response
    has not ended, each of any number of calls reaches the transport's
    [writeHead], and afterwards the state still reports headers as unsent. *)
Theorem res_safeWriteHead_writes_every_time
    (s : ResponseState) (args : list (Z * Headers)) :
  isHeadersSent s = false ->
  isEnded s = false ->
  exists new,
    trace (fst (run_calls (raw_header_calls args) s)) = trace s ++ new /\
    count is_writeHead_call new = List.length args /\
    isHeadersSent (fst (run_calls (raw_header_calls args) s)) = false /\
    canWriteHeaders (fst (run_calls (raw_header_calls args) s)) = canWriteHeaders s.
Proof.
  revert s. induction args as [|[c h] args IH]; intros s Hh He.
  - exists []. cbn. rewrite app_nil_r. auto.
  - rewrite raw_header_calls_cons.
    pose proof (res_safeWriteHead_open s c h Hh He) as E.
    destruct (res_safeWriteHead c h s) as [s1 r]. cbn [fst] in E. subst s1.
    destruct (IH (set_trace (trace s ++ [Real (OriginalWriteHead c h)]) s) Hh He)
      as (new & Ht & Hn & Hs & Hc).
    destruct (run_calls (raw_header_calls args)
                (set_trace (trace s ++ [Real (OriginalWriteHead c h)]) s))
      as [s2 rest].
    cbn [fst] in *. exists (Real (OriginalWriteHead c h) :: new).
    split; [rewrite Ht; cbn [trace set_trace]; rewrite <- app_assoc; reflexivity|].
    split; [rewrite count_cons, Hn; reflexivity|].
    split; [exact Hs | exact Hc].
Qed.

Lemma res_safeWriteHead_writes_every_time_witness :
  let s := new_ResponseState (fun _ _ => Returns true) false "req-1" in
  let args := [(200%Z, @nil (string * string)); (200%Z, []); (500%Z, [])] in
  exists new,
    trace (fst (run_calls (raw_header_calls args) s)) = trace s ++ new /\
    count is_writeHead_call new = 3 /\
    isHeadersSent (fst (run_calls (raw_header_calls args) s)) = false /\
    canWriteHeaders (fst (run_calls (raw_header_calls args) s)) = canWriteHeaders s.
Proof.
  intros s args.
  exact (res_safeWriteHead_writes_every_time s args eq_refl eq_refl).
Defined.

(** *** Transport failures *)

Lemma end_is_write_or_end (e : Event) :
  is_end_call e = true -> is_write_or_end e = true.
Proof. destruct e as [[]| | | | |]; simpl; congruence. Qed.

Lemma safeEnd_failed (s : ResponseState) (d : option string) (e : Error) :
  canWrite s = true ->
  res s (transport_calls (trace s)) (OriginalEnd d) = Raises e ->
  snd (safeEnd d s) = Normal false /\
  isEnded (fst (safeEnd d s)) = true /\
  trace (fst (safeEnd d s)) =
    trace s ++ [Real (OriginalEnd d); Log ErrorLevel "Failed to end response" e].
Proof.
  destruct s as [id hs en de st sc ip lk rsn tp sk t]. run_js.
  destruct en, de; intros Hcan Hraise; try discriminate.
  destruct st, sc; run_js; rewrite Hraise; run_js;
    rewrite <- ?app_assoc; repeat split; reflexivity.
Qed.

(** X5.  When the transport's [end] throws inside [safeEnd], the failure is
    logged and [safeEnd] returns [false], but [isEnded] is already set: no
    later operation calls the transport's [end] again. *)
Theorem failed_end_is_not_retried
    (s : ResponseState) (d : option string) (e : Error) (ops : list Op) :
  canWrite s = true ->
  res s (transport_calls (trace s)) (OriginalEnd d) = Raises e ->
  snd (safeEnd d s) = Normal false /\
  isEnded (fst (safeEnd d s)) = true /\
  trace (fst (safeEnd d s)) =
    trace s ++ [Real (OriginalEnd d); Log ErrorLevel "Failed to end response" e] /\
  count is_end_call (trace (exec_ops ops (fst (safeEnd d s)))) =
    count is_end_call (trace (fst (safeEnd d s))).
Proof.
  intros Hcan Hraise.
  destruct (safeEnd_failed s d e Hcan Hraise) as (Hr & He & Ht).
  repeat split; auto.
  destruct (steady_exec_ops ops (fst (safeEnd d s))) as [_ _ _ (new & Hn & Hq)].
  rewrite Hn, count_app.
  rewrite (count_weaker is_end_call is_write_or_end new end_is_write_or_end (Hq He)).
  lia.
Qed.

Lemma failed_end_is_not_retried_witness :
  let s := new_ResponseState (fun _ _ => Raises "write EPIPE") false "req-1" in
  let ops := [OpSafeEnd None; OpEnd None; OpTerminate "timeout"; OpResSafeEnd None] in
  snd (safeEnd None s) = Normal false /\
  isEnded (fst (safeEnd None s)) = true /\
  trace (fst (safeEnd None s)) =
    trace s ++ [Real (OriginalEnd None);
                Log ErrorLevel "Failed to end response" "write EPIPE"] /\
  count is_end_call (trace (exec_ops ops (fst (safeEnd None s)))) =
    count is_end_call (trace (fst (safeEnd None s))).
Proof.
  intros s ops.
  exact (failed_end_is_not_retried s None "write EPIPE" ops eq_refl eq_refl).
Defined.

(** X6.  On a writable response [safeWrite] hands the transport exactly the
    chunk it was given and returns what the transport's [write] returned, so
    [false] may mean the chunk was accepted under back-pressure; it returns
    [false] if the write threw.  Either way the response stays writable. *)
Theorem safeWrite_returns_transport_answer (s : ResponseState) (d : string) :
  canWrite s = true ->
  transport_calls (trace (fst (safeWrite d s))) =
    transport_calls (trace s) ++ [OriginalWrite d] /\
  snd (safeWrite d s) =
    match res s (transport_calls (trace s)) (OriginalWrite d) with
    | Returns v => Normal v
    | Raises _ => Normal false
    end /\
  canWrite (fst (safeWrite d s)) = true.
Proof.
  destruct s as [id hs en de st sc ip lk rsn tp sk t]. run_js.
  destruct en, de; intros Hcan; try discriminate.
  destruct (tp (transport_calls t) (OriginalWrite d)); run_js;
    rewrite !transport_calls_app; cbn [transport_calls]; rewrite ?app_nil_r;
    repeat split; reflexivity.
Qed.

Lemma safeWrite_returns_transport_answer_witness :
  let s := new_ResponseState (fun _ _ => Returns false) false "req-1" in
  transport_calls (trace (fst (safeWrite "chunk" s))) = [OriginalWrite "chunk"] /\
  snd (safeWrite "chunk" s) = Normal false /\
  canWrite (fst (safeWrite "chunk" s)) = true.
Proof.
  intros s.
  exact (safeWrite_returns_transport_answer s "chunk" eq_refl).
Defined.

(** X7.  The overridden [res.writeHead] looks only at [isHeadersSent].  After
    a response whose headers were never sent has been ended with [safeEnd],
    [safeWriteHeaders] refuses and touches nothing, but [res.writeHead] still
    passes the header write on to the transport. *)
Theorem writeHead_passes_after_end
    (s : ResponseState) (d : option string) (c : Z) (h : Headers) :
  canWriteHeaders s = true ->
  let s1 := fst (safeEnd d s) in
  isEnded s1 = true /\
  safeWriteHeaders c h s1 = (s1, Normal false) /\
  transport_calls (trace (fst (res_writeHead c h s1))) =
    transport_calls (trace s1) ++ [OriginalWriteHead c h].
Proof.
  destruct s as [id hs en de st sc ip lk rsn tp sk t]. run_js.
  destruct hs, en, de; intros Hcan; try discriminate.
  destruct st, sc; run_js;
    destruct (tp (transport_calls t) (OriginalEnd d)); run_js;
    (split; [reflexivity|]); (split; [reflexivity|]);
    match goal with
    | |- context [tp ?hist (OriginalWriteHead c h)] =>
        destruct (tp hist (OriginalWriteHead c h))
    end; run_js; rewrite !transport_calls_app; cbn [transport_calls];
    rewrite ?app_nil_r; reflexivity.
Qed.

Lemma writeHead_passes_after_end_witness :
  let s := new_ResponseState (fun _ _ => Returns true) false "req-1" in
  let s1 := fst (safeEnd None s) in
  isEnded s1 = true /\
  safeWriteHeaders 200 [] s1 = (s1, Normal false) /\
  transport_calls (trace (fst (res_writeHead 200 [] s1))) =
    transport_calls (trace s1) ++ [OriginalWriteHead 200 []].
Proof.
  intros s. exact (writeHead_passes_after_end s None 200 [] eq_refl).
Defined.

(** *** More on coordinated termination *)

Ltac by_cases_enter tac :=
  unfold coordinatedTermination_enter, coordinatedTermination_enter_with;
  by_cases tac.

Ltac solve_fact :=
  intros; try discriminate; rewrite ?transport_calls_app; cbn [transport_calls];
  rewrite ?app_nil_r; reflexivity.

Lemma enter_completes_streaming (r : string) (s : ResponseState) :
  isTerminationInProgress s = false -> isStreaming s = true ->
  streamingCompleted (fst (coordinatedTermination_enter r s)) = true.
Proof. revert s. by_cases_enter solve_fact. Qed.

Lemma enter_records_reason (r : string) (s : ResponseState) :
  isTerminationInProgress s = false ->
  terminationReason (fst (coordinatedTermination_enter r s)) = Some r.
Proof. revert s. by_cases_enter solve_fact. Qed.


Lemma steady_interleave (ops : list Op) : keeps steady (interleave ops).
Proof. intros s. unfold interleave, modify. cbn [fst]. apply steady_exec_ops. Qed.

#[local] Hint Resolve steady_interleave : steadydb.

(** X8.  A call of [coordinatedTermination] that starts an episode on a
    response that is streaming leaves [streamingCompleted] set, and the
    response ended or destroyed, whatever other code does to the response
    while the call is suspended. *)
Theorem termination_completes_streaming
    (s : ResponseState) (r : string) (others : list Op) :
  isTerminationInProgress s = false ->
  isStreaming s = true ->
  streamingCompleted (fst (coordinatedTermination r others s)) = true /\
  canWrite (fst (coordinatedTermination r others s)) = false.
Proof.
  intros Hflag Hs.
  assert (Hst : steady (fst (coordinatedTermination_enter r s))
                       (fst (coordinatedTermination r others s))).
  { unfold coordinatedTermination. apply after_bind; [apply steady_refl|].
    intros p. steady_steps. }
  split.
  - exact (sd_completed _ _ Hst (enter_completes_streaming r s Hflag Hs)).
  - apply coordinatedTermination_closes. intros H. congruence.
Qed.

Lemma termination_completes_streaming_witness :
  let s := exec_ops [OpSafeWriteHeaders 200 []; OpMarkStreamingStarted]
             (new_ResponseState (fun _ _ => Returns true) false "req-1") in
  let s' := fst (coordinatedTermination "timeout" [OpWriteDone] s) in
  streamingCompleted s' = true /\ canWrite s' = false.
Proof.
  intros s s'.
  exact (termination_completes_streaming s "timeout" [OpWriteDone] eq_refl eq_refl).
Defined.

(** X9.  Among calls of [coordinatedTermination] made before any of them is
    resumed, the reason of the first is the one recorded: the calls that
    join do not overwrite [terminationReason], and the end of the episode
    does not clear it. *)
Theorem first_reason_is_recorded
    (s : ResponseState) (r0 : string) (rs : list string) :
  isTerminationInProgress s = false ->
  terminationReason
    (w_state (run (map Invoke (r0 :: rs) ++ repeat Tick (S (List.length rs)))
                (start s))) = Some r0.
Proof.
  intros Hflag.
  destruct (enter_drives r0 s Hflag) as (s1 & mid & E & _ & _ & Hf & Hl & _).
  rewrite (run_concurrent_calls s s1 r0 rs E Hf Hl). cbn [w_state].
  pose proof (enter_records_reason r0 s Hflag) as Hr. rewrite E in Hr.
  exact Hr.
Qed.

Lemma first_reason_is_recorded_witness :
  terminationReason
    (w_state (run (map Invoke ["timeout"; "client_disconnect"] ++ repeat Tick 2)
                (start (new_ResponseState (fun _ _ => Returns true) false "req-1"))))
  = Some "timeout".
Proof.
  exact (first_reason_is_recorded
           (new_ResponseState (fun _ _ => Returns true) false "req-1")
           "timeout" ["client_disconnect"] eq_refl).
Defined.



(** *** The event loop under any schedule *)

Lemma plain_not_rejected e : is_plain e = true -> is_rejected e = false.
Proof. destruct e; simpl; congruence. Qed.

Lemma step_invoke_drives (r : string) (s : ResponseState) q n :
  isTerminationInProgress s = false ->
  step (Invoke r) (mkWorld s q n) =
    mkWorld (fst (coordinatedTermination_enter r s))
            (q ++ [(n, Driving r Fulfilled)]) (S n).
Proof.
  intros H. destruct (enter_drives r s H) as (s1 & mid & E & _).
  unfold step, step_with. cbn [w_state w_queue w_next].
  change (coordinatedTermination_enter_with _performTermination r s)
    with (coordinatedTermination_enter r s).
  rewrite E. reflexivity.
Qed.

Lemma step_evolves (a : Action) (w : World) :
  evolves (w_state w) (w_state (step a w)).
Proof.
  destruct w as [s q n]. destruct a as [r|]; unfold step, step_with;
    cbn [w_state w_queue w_next].
  - pose proof (keeps_enter r s) as He.
    change (coordinatedTermination_enter_with _performTermination r s)
      with (coordinatedTermination_enter r s).
    destruct (coordinatedTermination_enter r s) as [s1 [p|e|]];
      cbn [fst w_state] in *; try exact He.
    apply (evolves_trans s s1); [exact He|].
    apply (keeps_emit (CallSettled n (Rejected e)) eq_refl).
  - destruct q as [|[id p] rest]; [apply evolves_refl|].
    pose proof (keeps_resume p s) as Hr.
    destruct (coordinatedTermination_resume p s) as [s1 c].
    cbn [fst w_state] in *.
    apply (evolves_trans s s1); [exact Hr|].
    destruct c as [u|e|]; unfold settle.
    + apply (keeps_emit (CallSettled id Fulfilled) eq_refl).
    + apply (keeps_emit (CallSettled id (Rejected e)) eq_refl).
    + apply evolves_refl.
Qed.

Lemma drivers_snoc (s : ResponseState) q n entry :
  drivers (mkWorld s (q ++ [entry]) n) =
    List.length (filter is_driving q) + (if is_driving entry then 1 else 0).
Proof.
  unfold drivers. cbn [w_queue]. rewrite filter_app, length_app. cbn [filter].
  destruct (is_driving entry); reflexivity.
Qed.

(** Every step of the event loop keeps the loop well scheduled. *)
Lemma well_scheduled_step (s0 : ResponseState) (a : Action) (w : World) :
  well_scheduled s0 w -> well_scheduled s0 (step a w).
Proof.
  intros W.
  assert (Hev : evolves s0 (w_state (step a w)))
    by (apply (evolves_trans s0 (w_state w)); [apply W | apply step_evolves]).
  destruct W as [Wl Wq Wd Ws Wr _]. destruct w as [s q n].
  cbn [w_state w_queue w_next] in *. unfold drivers in Wd. cbn [w_queue] in Wd.
  destruct a as [r|].
  - (* a call is made *)
    destruct (isTerminationInProgress s) eqn:Hflag.
    + rewrite step_invoke_joins in * by exact Hflag.
      constructor; cbn [w_state w_queue w_next set_trace trace terminationLock
                        isTerminationInProgress]; try exact Hev.
      * exact Wl.
      * apply Forall_app. split; [exact Wq|]. constructor; [exact Wl | constructor].
      * rewrite drivers_snoc, Hflag. cbn [is_driving snd]. lia.
      * rewrite count_app, count_cons, count_nil, length_app.
        cbn [is_settled join_log List.length]. lia.
      * rewrite count_app, count_cons, count_nil.
        cbn [is_rejected join_log]. lia.
    + rewrite step_invoke_drives in * by exact Hflag.
      destruct (enter_drives r s Hflag) as (s1 & mid & E & Ht & Hp & Hf & Hl & _).
      rewrite E in *. cbn [fst] in *.
      constructor; cbn [w_state w_queue w_next]; try exact Hev.
      * exact Hl.
      * apply Forall_app. split; [exact Wq|]. constructor; [reflexivity | constructor].
      * rewrite drivers_snoc, Hf. cbn [is_driving snd]. lia.
      * rewrite Ht, !count_app, !count_cons, !count_nil, length_app.
        rewrite (count_plain is_settled mid plain_not_settled Hp).
        cbn [is_settled start_log List.length]. lia.
      * rewrite Ht, !count_app, !count_cons, !count_nil.
        rewrite (count_plain is_rejected mid plain_not_rejected Hp).
        cbn [is_rejected start_log]. lia.
  - (* the next microtask runs *)
    destruct q as [|[id p] rest].
    + constructor; cbn [w_state w_queue w_next]; auto.
    + inversion Wq as [|x l Hp Hrest]; subst. cbn [snd] in Hp.
      destruct p as [lock|r lock]; cbn [lock_of] in Hp; subst lock.
      * rewrite step_tick_joiner in *.
        constructor; cbn [w_state w_queue w_next set_trace trace terminationLock
                          isTerminationInProgress]; try exact Hev.
        -- exact Wl.
        -- exact Hrest.
        -- unfold drivers. cbn [w_queue]. cbn [filter is_driving snd] in Wd. exact Wd.
        -- rewrite count_app, count_cons, count_nil.
           cbn [is_settled List.length] in *. lia.
        -- rewrite count_app, count_cons, count_nil. cbn [is_rejected]. lia.
      * rewrite step_tick_driver in *.
        constructor; cbn [w_state w_queue w_next set_trace trace terminationLock
                          isTerminationInProgress set_isTerminationInProgress];
          try exact Hev.
        -- exact Wl.
        -- exact Hrest.
        -- unfold drivers. cbn [w_queue].
           cbn [filter is_driving snd List.length] in Wd.
           destruct (isTerminationInProgress s); lia.
        -- rewrite count_app, count_cons, count_nil.
           cbn [is_settled List.length] in *. lia.
        -- rewrite count_app, count_cons, count_nil. cbn [is_rejected]. lia.
Qed.

Lemma well_scheduled_start (s : ResponseState) :
  isTerminationInProgress s = false -> terminationLock s = Fulfilled ->
  well_scheduled s (start s).
Proof.
  intros Hf Hl. constructor; cbn [start w_state w_queue w_next].
  - exact Hl.
  - constructor.
  - unfold drivers. cbn [w_queue filter List.length]. rewrite Hf. reflexivity.
  - cbn [List.length]. lia.
  - reflexivity.
  - apply evolves_refl.
Qed.

Lemma well_scheduled_run (s0 : ResponseState) (sched : list Action) :
  forall w, well_scheduled s0 w -> well_scheduled s0 (run sched w).
Proof.
  induction sched as [|a sched IH]; intros w W; [exact W|].
  rewrite run_cons. apply IH. apply well_scheduled_step. exact W.
Qed.

Lemma step_counts_invocation (a : Action) (w : World) :
  w_next (step a w) = w_next w + (if is_invoke a then 1 else 0).
Proof.
  destruct w as [s q n]. destruct a as [r|]; unfold step, step_with;
    cbn [w_state w_queue w_next is_invoke].
  - destruct (coordinatedTermination_enter_with _performTermination r s)
      as [s1 [p|e|]]; cbn [w_next]; lia.
  - destruct q as [|[id p] rest]; cbn [w_next]; [lia|].
    destruct (coordinatedTermination_resume p s) as [s1 c]. cbn [w_next]. lia.
Qed.

Lemma run_counts_invocations (sched : list Action) :
  forall w, w_next (run sched w) = w_next w + invocations sched.
Proof.
  unfold invocations.
  induction sched as [|a sched IH]; intros w; [cbn; lia|].
  rewrite run_cons, IH, step_counts_invocation. cbn [filter].
  destruct (is_invoke a); cbn [List.length]; lia.
Qed.

Lemma tick_shortens_queue (w : World) :
  List.length (w_queue (step Tick w)) = pred (List.length (w_queue w)).
Proof.
  destruct w as [s q n]. unfold step, step_with. cbn [w_state w_queue w_next].
  destruct q as [|[id p] rest]; [reflexivity|].
  destruct (coordinatedTermination_resume p s) as [s1 c]. reflexivity.
Qed.

Lemma ticks_empty_queue (k : nat) :
  forall w, List.length (w_queue w) <= k -> w_queue (run (repeat Tick k) w) = [].
Proof.
  induction k as [|k IH]; intros w H.
  - cbn. destruct (w_queue w); [reflexivity | cbn in H; lia].
  - cbn [repeat]. rewrite run_cons. apply IH.
    rewrite tick_shortens_queue. lia.
Qed.

(** X11.  Whatever the order in which calls of [coordinatedTermination] are
    made and resumed, on a response with no termination in progress: at
    every point at most one suspended call drives an episode, and one does
    exactly while [isTerminationInProgress] is raised; once the queue has
    been run, every call made has settled, none was rejected, the flag is
    lowered, and the transport's [end] has been invoked no more than the
    guard allows. *)
Theorem any_interleaving_settles (s : ResponseState) (sched : list Action) :
  isTerminationInProgress s = false ->
  terminationLock s = Fulfilled ->
  let w := run sched (start s) in
  drivers w = (if isTerminationInProgress (w_state w) then 1 else 0) /\
  w_queue (drain w) = [] /\
  isTerminationInProgress (w_state (drain w)) = false /\
  count is_settled (trace (w_state (drain w))) =
    count is_settled (trace s) + invocations sched /\
  count is_rejected (trace (w_state (drain w))) = count is_rejected (trace s) /\
  end_budget (w_state (drain w)) <= end_budget s.
Proof.
  intros Hf Hl w.
  pose proof (well_scheduled_run s sched (start s) (well_scheduled_start s Hf Hl))
    as W.
  fold w in W.
  pose proof (well_scheduled_run s (repeat Tick (List.length (w_queue w))) w W)
    as D.
  fold (drain w) in D.
  assert (Hq : w_queue (drain w) = [])
    by (apply ticks_empty_queue; lia).
  assert (Hn : w_next (drain w) = invocations sched).
  { unfold drain. rewrite run_counts_invocations. unfold w.
    rewrite run_counts_invocations. cbn [start w_next].
    replace (invocations (repeat Tick (List.length (w_queue (run sched (start s))))))
      with 0; [lia|].
    unfold invocations.
    induction (List.length (w_queue (run sched (start s)))); [reflexivity|].
    cbn [repeat filter is_invoke]. assumption. }
  destruct D as [_ _ Dd Ds Dr De]. unfold drivers in Dd.
  rewrite Hq in *. cbn [filter List.length] in *.
  split; [apply W|]. split; [reflexivity|].
  split; [destruct (isTerminationInProgress (w_state (drain w))); [discriminate | reflexivity]|].
  split; [lia|]. split; [exact Dr | apply De].
Qed.

Lemma any_interleaving_settles_witness :
  let s := new_ResponseState (fun _ _ => Returns true) false "req-1" in
  let sched := [Invoke "timeout"; Invoke "error"; Tick; Invoke "client_disconnect";
                Tick; Invoke "late"] in
  let w := run sched (start s) in
  drivers w = (if isTerminationInProgress (w_state w) then 1 else 0) /\
  w_queue (drain w) = [] /\
  isTerminationInProgress (w_state (drain w)) = false /\
  count is_settled (trace (w_state (drain w))) =
    count is_settled (trace s) + invocations sched /\
  count is_rejected (trace (w_state (drain w))) = count is_rejected (trace s) /\
  end_budget (w_state (drain w)) <= end_budget s.
Proof.
  intros s sched w.
  exact (any_interleaving_settles s sched eq_refl eq_refl).
Defined.

(** *** The SSE writer *)

Lemma try_catch_returns {A} (m : M ResponseState A) (h : Error -> M ResponseState A)
    (s : ResponseState) :
  returns m -> try_catch m h s = m s.
Proof.
  intros Hm. unfold try_catch. destruct (Hm s) as [a Ha].
  destruct (m s) as [s1 c]. cbn [snd] in Ha. subst c. reflexivity.
Qed.

Lemma writeEvent_open (s : ResponseState) (json : string) (eventType : option string) :
  canWrite s = true ->
  writeEvent (inr json) eventType s = safeWrite (sse_frame json eventType) s.
Proof.
  intros Hcan. unfold writeEvent, res_canWrite. unfold bind at 1. unfold gets.
  rewrite Hcan. cbn [negb].
  assert (E : sse_frame json eventType =
              (if truthy eventType
               then "event: " ++ match eventType with Some t => t | None => "" end
                      ++ LF ++ "data: " ++ json ++ LF ++ LF
               else "data: " ++ json ++ LF ++ LF)%string).
  { unfold sse_frame, truthy. destruct eventType as [t|]; [|reflexivity].
    destruct (t =? "")%string; reflexivity. }
  rewrite E. unfold try_catch, bind, ret. cbv zeta.
  match goal with
  | |- context [safeWrite ?c s] =>
      pose proof (returns_safeWrite c s) as [v Hv];
      destruct (safeWrite c s) as [s1 r]; cbn [snd] in Hv; subst r; reflexivity
  end.
Qed.

(** X12.  On a writable response [writeEvent] never throws and hands the
    transport at most one chunk.  With a payload that serializes to [json]
    the chunk is [data: json] and two line feeds, preceded by [event: t] and
    one line feed when an event type [t] other than the empty string is
    given (an empty event type counts as none); the result is what the
    transport's [write] returned, [false] if it threw.  With a payload whose
    serialization throws, nothing is sent and the result is [false]. *)
Theorem writeEvent_frames (s : ResponseState) (json : string)
    (eventType : option string) (e : Error) :
  canWrite s = true ->
  transport_calls (trace (fst (writeEvent (inr json) eventType s))) =
    transport_calls (trace s) ++ [OriginalWrite (sse_frame json eventType)] /\
  snd (writeEvent (inr json) eventType s) =
    match res s (transport_calls (trace s))
            (OriginalWrite (sse_frame json eventType)) with
    | Returns v => Normal v
    | Raises _ => Normal false
    end /\
  writeEvent (inl e) eventType s =
    (set_trace (trace s ++ [Log ErrorLevel "Failed to write SSE event" e]) s,
     Normal false) /\
  sse_frame json (Some ""%string) = sse_frame json None.
Proof.
  intros Hcan. rewrite writeEvent_open by exact Hcan.
  destruct (safeWrite_returns_transport_answer s (sse_frame json eventType) Hcan)
    as (Ht & Hr & _).
  split; [exact Ht|]. split; [exact Hr|]. split; [|reflexivity].
  unfold writeEvent, res_canWrite. unfold bind at 1. unfold gets.
  rewrite Hcan. reflexivity.
Qed.

Lemma writeEvent_frames_witness :
  let s := new_ResponseState (fun _ _ => Returns true) false "req-1" in
  transport_calls (trace (fst (writeEvent (inr "{}") (Some "delta") s))) =
    [OriginalWrite ("event: delta" ++ LF ++ "data: {}" ++ LF ++ LF)%string] /\
  snd (writeEvent (inr "{}") (Some "delta") s) = Normal true.
Proof.
  intros s.
  pose proof (writeEvent_frames s "{}" (Some "delta") "circular" eq_refl) as H.
  split; [exact (proj1 H) | exact (proj1 (proj2 H))].
Defined.

Lemma returns_writeEvent d t : returns (writeEvent d t).
Proof. unfold writeEvent. returns_steps. apply returns_gets. Qed.

Lemma returns_writeDone : returns writeDone.
Proof. unfold writeDone. returns_steps. apply returns_gets. Qed.

(** X13.  [writeEvent] and [writeDone] never throw, in any state and for any
    payload, even when serialization or the transport fails; on a response
    that is ended or destroyed they return [false] and leave it untouched. *)
Theorem sse_writer_never_throws (s : ResponseState)
    (data : Error + string) (eventType : option string) :
  (exists b, snd (writeEvent data eventType s) = Normal b) /\
  (exists b, snd (writeDone s) = Normal b) /\
  (canWrite s = false ->
   writeEvent data eventType s = (s, Normal false) /\
   writeDone s = (s, Normal false)).
Proof.
  split; [apply returns_writeEvent|]. split; [apply returns_writeDone|].
  intros Hcan. unfold writeEvent, writeDone, res_canWrite.
  unfold bind, gets. rewrite Hcan. split; reflexivity.
Qed.

(** *** On the mock response of the test utilities *)

Lemma mock_headers_unsent (t : list Event) :
  count is_writeHead_call t = 0 -> Mock.headersSent (transport_calls t) = false.
Proof.
  unfold Mock.headersSent.
  induction t as [|e t IH]; intros H; [reflexivity|].
  rewrite count_cons in H.
  destruct e as [[]| | | | |]; cbn in *; try discriminate; apply IH; lia.
Qed.

Lemma mock_not_ended (t : list Event) :
  count is_end_call t = 0 -> Mock.writableEnded (transport_calls t) = false.
Proof.
  unfold Mock.writableEnded.
  induction t as [|e t IH]; intros H; [reflexivity|].
  rewrite count_cons in H.
  destruct e as [[]| | | | |]; cbn in *; try discriminate; apply IH; lia.
Qed.

Lemma mock_headers_sent (t : list Event) c h :
  Mock.headersSent (transport_calls (t ++ [Real (OriginalWriteHead c h)])) = true.
Proof.
  unfold Mock.headersSent. rewrite transport_calls_app, existsb_app.
  cbn. apply orb_true_r.
Qed.

Lemma safeWriteHeaders_on_mock (s : ResponseState) (c : Z) (h : Headers) :
  res s = Mock.createMockResponse ->
  header_budget s <= 1 ->
  snd (safeWriteHeaders c h s) = Normal (canWriteHeaders s) /\
  exists v, snd (res_writeHead c h s) = Normal v.
Proof.
  destruct s as [id hs en de st sc ip lk rsn tp sk t].
  unfold header_budget. cbn [res isHeadersSent trace]. intros -> Hb.
  destruct hs, en, de; run_js;
    try (split; [reflexivity | eexists; reflexivity]);
    unfold Mock.createMockResponse;
    rewrite (mock_headers_unsent t) by lia;
    (split; [reflexivity | eexists; reflexivity]).
Qed.

Lemma sse_writer_never_throws_witness :
  let s := fst (safeEnd None (Mock.mock_state "req-1")) in
  writeEvent (inr "{}"%string) (Some "delta"%string) s = (s, Normal false) /\
  writeDone s = (s, Normal false).
Proof.
  intros s.
  apply (proj2 (proj2 (sse_writer_never_throws s (inr "{}"%string) (Some "delta"%string)))).
  reflexivity.
Defined.

(** X14.  A [ResponseState] wrapped around the test utilities' mock response
    never provokes the mock's "Cannot set headers after they are sent"
    error as long as [res.safeWriteHead] is not used: after any such
    sequence of operations [safeWriteHeaders] returns exactly
    [canWriteHeaders()], and the overridden [res.writeHead] does not throw. *)
Theorem mock_header_error_never_fires
    (id : string) (ops : list Op) (c : Z) (h : Headers) :
  guarded_ops ops = true ->
  let s := exec_ops ops (Mock.mock_state id) in
  snd (safeWriteHeaders c h s) = Normal (canWriteHeaders s) /\
  exists v, snd (res_writeHead c h s) = Normal v.
Proof.
  intros H s. apply safeWriteHeaders_on_mock.
  - apply (ev_res _ _ (evolves_exec_ops ops (Mock.mock_state id))).
  - pose proof (header_exec_ops ops H (Mock.mock_state id)) as Hb.
    exact Hb.
Qed.

Lemma mock_header_error_never_fires_witness :
  let s := exec_ops [OpWriteHead 200 []; OpSafeWrite "a"; OpTerminate "timeout"]
             (Mock.mock_state "req-1") in
  snd (safeWriteHeaders 500 [] s) = Normal (canWriteHeaders s) /\
  exists v, snd (res_writeHead 500 [] s) = Normal v.
Proof.
  intros s.
  exact (mock_header_error_never_fires "req-1"
           [OpWriteHead 200 []; OpSafeWrite "a"; OpTerminate "timeout"]
           500 [] eq_refl).
Defined.

(** X15.  On the mock response, after any sequence of operations, [safeWrite]
    and [safeEnd] return exactly [canWrite()]: the mock's [write] is never
    reached once it has been ended, so its [false] is never seen. *)
Theorem mock_writes_report_the_guard
    (id : string) (ops : list Op) (d : string) (chunk : option string) :
  let s := exec_ops ops (Mock.mock_state id) in
  snd (safeWrite d s) = Normal (canWrite s) /\
  snd (safeEnd chunk s) = Normal (canWrite s).
Proof.
  intros s.
  pose proof (ev_res _ _ (evolves_exec_ops ops (Mock.mock_state id))) as Hres.
  pose proof (ev_budget _ _ (evolves_exec_ops ops (Mock.mock_state id))) as Hb.
  fold s in Hres, Hb. clearbody s.
  change (res (Mock.mock_state id)) with Mock.createMockResponse in Hres.
  change (end_budget (Mock.mock_state id)) with 1 in Hb.
  destruct s as [i hs en de st sc ip lk rsn tp sk t].
  unfold end_budget in Hb. cbn [res isEnded trace] in *. subst tp.
  destruct en, de, st, sc; run_js; try (split; reflexivity);
    assert (Hno : Mock.writableEnded (transport_calls t) = false)
      by (apply mock_not_ended; lia);
    unfold Mock.createMockResponse; rewrite ?Hno;
    split; reflexivity.
Qed.

(** X16.  On the mock response, [res.safeWriteHead] breaks the guard: after
    one call on a response whose headers are unsent, the state still allows
    headers, so a second call throws the mock's header error to its caller,
    and [safeWriteHeaders] reaches the mock, catches that error, logs it and
    returns [false]. *)
Theorem res_safeWriteHead_provokes_header_error
    (s : ResponseState) (c c' : Z) (h h' : Headers) :
  res s = Mock.createMockResponse ->
  canWriteHeaders s = true ->
  let s1 := fst (res_safeWriteHead c h s) in
  canWriteHeaders s1 = true /\
  snd (res_safeWriteHead c' h' s1) = Throw Mock.header_error /\
  snd (safeWriteHeaders c' h' s1) = Normal false /\
  In (Log ErrorLevel "Failed to write headers" Mock.header_error)
     (trace (fst (safeWriteHeaders c' h' s1))).
Proof.
  destruct s as [id hs en de st sc ip lk rsn tp sk t].
  cbn [res]. intros ->. run_js.
  destruct hs, en, de; intros Hcan; try discriminate.
  destruct (Mock.createMockResponse (transport_calls t) (OriginalWriteHead c h));
    run_js; unfold Mock.createMockResponse; rewrite mock_headers_sent;
    (split; [reflexivity|]); (split; [reflexivity|]); (split; [reflexivity|]);
    cbn [fst trace]; apply in_or_app; right; left; reflexivity.
Qed.

Lemma res_safeWriteHead_provokes_header_error_witness :
  let s := Mock.mock_state "req-1" in
  let s1 := fst (res_safeWriteHead 200 [] s) in
  canWriteHeaders s1 = true /\
  snd (res_safeWriteHead 200 [] s1) = Throw Mock.header_error /\
  snd (safeWriteHeaders 200 [] s1) = Normal false /\
  In (Log ErrorLevel "Failed to write headers" Mock.header_error)
     (trace (fst (safeWriteHeaders 200 [] s1))).
Proof.
  intros s.
  exact (res_safeWriteHead_provokes_header_error s 200 200 [] [] eq_refl eq_refl).
Defined.

End StateFacts.

(** * Properties of [ResponseManager] *)

Module ManagerFacts.

Import Manager.

Lemma callback_ids_app (t1 t2 : list Event) :
  callback_ids (t1 ++ t2) = callback_ids t1 ++ callback_ids t2.
Proof. unfold callback_ids. apply flat_map_app. Qed.

Lemma callback_flags_app (t1 t2 : list Event) :
  callback_flags (t1 ++ t2) = callback_flags t1 ++ callback_flags t2.
Proof. unfold callback_flags. apply flat_map_app. Qed.

Lemma no_callback_events (t : list Event) :
  count is_callback t = 0 -> callback_ids t = [] /\ callback_flags t = [].
Proof.
  induction t as [|e t IH]; intros H; [split; reflexivity|].
  rewrite count_cons in H.
  destruct e; simpl in H; try discriminate; simpl; apply IH; lia.
Qed.

(** ** Inside [res.end] *)

Lemma during_here (s : ResponseManager) : isEnded s = true -> during s s.
Proof.
  intros H. constructor; auto.
  exists []. rewrite app_nil_r. repeat split; reflexivity.
Qed.

Lemma during_trans (s1 s2 s3 : ResponseManager) :
  during s1 s2 -> during s2 s3 -> during s1 s3.
Proof.
  intros [e1 c1 h1 r1 (n1 & t1 & k1 & x1)] [e2 c2 h2 r2 (n2 & t2 & k2 & x2)].
  constructor; auto; try congruence.
  exists (n1 ++ n2). rewrite t2, t1, app_assoc, !count_app.
  repeat split; lia.
Qed.

Lemma during_logged (s : ResponseManager) (e : Event) :
  isEnded s = true -> is_callback e = false -> is_end_call e = false ->
  during s (logged e s).
Proof.
  intros H Hc He. constructor; auto.
  exists [e]. unfold logged. cbn [trace set_trace].
  rewrite !count_cons, Hc, He, !count_nil. repeat split; reflexivity.
Qed.

Lemma inside_ret : runs_inside_end (ret tt).
Proof. intros s H. split; [apply during_here; exact H | discriminate]. Qed.

Lemma inside_throw (e : Error) : runs_inside_end (throw e).
Proof. intros s H. split; [apply during_here; exact H | discriminate]. Qed.

Lemma inside_bind (m k : M ResponseManager unit) :
  runs_inside_end m -> runs_inside_end k -> runs_inside_end (m ;; k).
Proof.
  intros Hm Hk s H. unfold bind.
  destruct (Hm s H) as [Hd Hf].
  destruct (m s) as [s1 [u|e|]]; cbn [fst snd] in *.
  - destruct (Hk s1 (du_ended _ _ Hd)) as [Hd' Hf'].
    split; [eapply during_trans; eauto | exact Hf'].
  - split; [exact Hd | discriminate].
  - congruence.
Qed.

(** Calling [res.end] again from inside [res.end] only logs. *)
Lemma reentrant_end (fuel : nat) (chunk : option string) (s : ResponseManager) :
  1 <= fuel -> isEnded s = true ->
  res_end fuel chunk s =
    (logged (Log Debug "Response already ended, skipping" "") s, Normal tt).
Proof.
  intros Hf H. destruct fuel as [|fuel]; [lia|].
  cbn [res_end]. unfold bind at 1. unfold gets. rewrite H. reflexivity.
Qed.

Lemma inside_reentrant_end (fuel : nat) (chunk : option string) :
  1 <= fuel -> runs_inside_end (res_end fuel chunk).
Proof.
  intros Hf s H. rewrite reentrant_end by assumption. cbn [fst snd].
  split; [|discriminate]. apply during_logged; auto.
Qed.

Lemma inside_writeHead (c : Z) (h : Headers) :
  runs_inside_end (res_writeHead c h ;; ret tt).
Proof.
  intros s H. destruct s as [id en cbs hs tp rhs t].
  cbn [isEnded] in H. subst en.
  cbv [res_writeHead bind modify original ret fst snd set_headersSent set_trace
       set_res_headersSent requestId isEnded endCallbacks headersSent res
       res_headersSent trace].
  destruct (tp (transport_calls t) (OriginalWriteHead c h)); cbn [fst snd];
    (split; [|discriminate]);
    (constructor; cbn [isEnded endCallbacks res trace];
     first [ reflexivity
           | intros _; unfold areHeadersSent; reflexivity
           | exists [Real (OriginalWriteHead c h)]; repeat split; reflexivity ]).
Qed.

Lemma inside_transport_sends : runs_inside_end (modify (set_res_headersSent true)).
Proof.
  intros s H. split; [|discriminate].
  cbv [modify fst]. constructor; auto.
  - intros _. unfold areHeadersSent. cbn [set_res_headersSent res_headersSent headersSent].
    apply orb_true_r.
  - exists []. cbn [set_res_headersSent trace]. rewrite app_nil_r.
    repeat split; reflexivity.
Qed.

Lemma inside_run_step (fuel : nat) (a : CbStep) :
  1 <= fuel -> runs_inside_end (run_step (res_end fuel) a).
Proof.
  intros Hf. destruct a; cbn [run_step].
  - apply inside_reentrant_end; exact Hf.
  - apply inside_writeHead.
  - apply inside_transport_sends.
  - apply inside_throw.
Qed.

Lemma inside_for_of {A} (body : A -> M ResponseManager unit) (l : list A) :
  (forall a, runs_inside_end (body a)) -> runs_inside_end (for_of l body).
Proof.
  intros Hb. induction l as [|a l IH]; cbn [for_of].
  - apply inside_ret.
  - apply inside_bind; [apply Hb | exact IH].
Qed.

(** One callback, called inside [res.end]: it finds the flag set, and
    whatever it does adds no start of a callback and no terminal write. *)
Lemma call_callback_spec (fuel : nat) (cb : Callback) (s : ResponseManager) :
  1 <= fuel -> isEnded s = true ->
  exists s' new c,
    call_callback (res_end fuel) cb s = (s', c) /\
    c <> OutOfFuel /\
    trace s' = trace s ++ CallbackInvoked (cb_id cb) true :: new /\
    count is_callback new = 0 /\
    count is_end_call new = 0 /\
    isEnded s' = true /\
    endCallbacks s' = endCallbacks s /\
    (areHeadersSent s = true -> areHeadersSent s' = true) /\
    res s' = res s.
Proof.
  intros Hf H.
  pose proof (inside_for_of (run_step (res_end fuel)) (cb_body cb)
                (fun a => inside_run_step fuel a Hf)) as Hbody.
  specialize (Hbody (logged (CallbackInvoked (cb_id cb) true) s) H).
  destruct Hbody as [[He Hc Hs Hr (new & Ht & Hk & Hx)] Hdef].
  unfold call_callback. unfold bind at 1. unfold gets. rewrite H.
  unfold bind at 1. unfold emit, modify.
  fold (logged (CallbackInvoked (cb_id cb) true) s).
  destruct (for_of (cb_body cb) (run_step (res_end fuel))
              (logged (CallbackInvoked (cb_id cb) true) s)) as [s' c].
  cbn [fst snd] in *.
  exists s', new, c. split; [reflexivity|]. split; [exact Hdef|].
  split.
  { rewrite Ht. unfold logged. cbn [trace set_trace].
    rewrite <- app_assoc. reflexivity. }
  repeat split; auto.
Qed.

(** The loop of lines 40-56, one callback at a time. *)
Lemma run_callbacks_cons (end_ : option string -> M ResponseManager unit)
    (cb : Callback) (rest : list Callback) (s : ResponseManager) :
  run_callbacks end_ (cb :: rest) s =
    match call_callback end_ cb s with
    | (s1, Normal _) => run_callbacks end_ rest s1
    | (s1, Throw e) =>
        if areHeadersSent s1
        then run_callbacks end_ rest (logged (callback_failed e) s1)
        else (logged (callback_failed e) s1, Throw e)
    | (s1, OutOfFuel) => (s1, OutOfFuel)
    end.
Proof.
  unfold run_callbacks. cbn [for_of]. unfold bind at 1. unfold try_catch.
  destruct (call_callback end_ cb s) as [s1 [u|e|]]; try reflexivity.
  cbv [bind log emit modify gets fst snd].
  change (areHeadersSent (set_trace (trace s1 ++ [Log ErrorLevel "End callback failed" e]) s1))
    with (areHeadersSent s1).
  destruct (areHeadersSent s1); reflexivity.
Qed.

Lemma callback_ids_step id (n1 rest : list Event) :
  count is_callback n1 = 0 ->
  callback_ids (CallbackInvoked id true :: n1 ++ rest) = id :: callback_ids rest /\
  callback_flags (CallbackInvoked id true :: n1 ++ rest) = true :: callback_flags rest.
Proof.
  intros H. destruct (no_callback_events n1 H) as [Hi Hf].
  change (CallbackInvoked id true :: n1 ++ rest)
    with ([CallbackInvoked id true] ++ n1 ++ rest).
  rewrite !callback_ids_app, !callback_flags_app, Hi, Hf. split; reflexivity.
Qed.

(** The whole loop, started inside [res.end]: the callbacks that run are the
    first [k] registered, in order, each finding the flag set; no terminal
    write happens meanwhile; and either all have run, or the loop has thrown
    the failure of the last one that ran because headers were unsent. *)
Lemma run_callbacks_spec (fuel : nat) (cbs : list Callback) :
  1 <= fuel ->
  forall s, isEnded s = true ->
  exists s' new k c,
    run_callbacks (res_end fuel) cbs s = (s', c) /\
    looped cbs s s' new k /\
    ((c = Normal tt /\ k = List.length cbs) \/
     (exists e, c = Throw e /\ areHeadersSent s' = false /\
                1 <= k <= List.length cbs /\ In (callback_failed e) new)).
Proof.
  intros Hf. induction cbs as [|cb rest IH]; intros s H.
  - exists s, [], 0, (Normal tt). split; [reflexivity|]. split.
    + constructor; auto. rewrite app_nil_r. reflexivity.
    + left. split; reflexivity.
  - rewrite run_callbacks_cons.
    destruct (call_callback_spec fuel cb s Hf H)
      as (s1 & n1 & c1 & E1 & Hdef & Ht1 & Hk1 & Hx1 & He1 & Hc1 & Hs1 & Hr1).
    rewrite E1. destruct c1 as [u|e|]; [| |congruence].
    + (* the callback returned *)
      destruct (IH s1 He1) as (s' & new & k & c & E & L & D).
      exists s', (CallbackInvoked (cb_id cb) true :: n1 ++ new), (S k), c.
      split; [exact E|]. destruct L as [Lt Li Lf Lx Le Lc Ls Lr].
      destruct (callback_ids_step (cb_id cb) n1 new Hk1) as [Hi' Hf'].
      split.
      * constructor.
        -- rewrite Lt, Ht1, <- app_assoc. reflexivity.
        -- rewrite Hi', Li. reflexivity.
        -- rewrite Hf', Lf. reflexivity.
        -- rewrite count_cons, count_app. cbn [is_end_call]. lia.
        -- exact Le.
        -- congruence.
        -- auto.
        -- congruence.
      * destruct D as [[-> ->] | (e & -> & Hu & Hk & Hin)].
        -- left. split; reflexivity.
        -- right. exists e. repeat split; auto; cbn [List.length]; try lia.
           right. apply in_or_app. right. exact Hin.
    + (* the callback threw *)
      destruct (areHeadersSent s1) eqn:Hsent.
      * destruct (IH (logged (callback_failed e) s1) He1)
          as (s' & new & k & c & E & L & D).
        exists s', (CallbackInvoked (cb_id cb) true
                      :: n1 ++ callback_failed e :: new), (S k), c.
        split; [exact E|]. destruct L as [Lt Li Lf Lx Le Lc Ls Lr].
        destruct (callback_ids_step (cb_id cb) n1 (callback_failed e :: new) Hk1)
          as [Hi' Hf'].
        split.
        -- constructor.
           ++ rewrite Lt. unfold logged. cbn [trace set_trace].
              rewrite Ht1, <- !app_assoc. reflexivity.
           ++ rewrite Hi'. cbn [callback_ids flat_map app callback_failed].
              fold (callback_ids new). rewrite Li. reflexivity.
           ++ rewrite Hf'. cbn [callback_flags flat_map app callback_failed].
              fold (callback_flags new). rewrite Lf. reflexivity.
           ++ rewrite count_cons, count_app, count_cons.
              cbn [is_end_call callback_failed]. lia.
           ++ exact Le.
           ++ rewrite Lc. exact Hc1.
           ++ intros _. apply Ls. exact Hsent.
           ++ rewrite Lr. exact Hr1.
        -- destruct D as [[-> ->] | (e' & -> & Hu & Hk & Hin)].
           ++ left. split; reflexivity.
           ++ right. exists e'. repeat split; auto; cbn [List.length]; try lia.
              right. apply in_or_app. right. right. exact Hin.
      * exists (logged (callback_failed e) s1),
               (CallbackInvoked (cb_id cb) true :: n1 ++ [callback_failed e]),
               1, (Throw e).
        split; [reflexivity|].
        destruct (callback_ids_step (cb_id cb) n1 [callback_failed e] Hk1)
          as [Hi' Hf'].
        split.
        -- constructor.
           ++ unfold logged. cbn [trace set_trace].
              rewrite Ht1, <- !app_assoc. reflexivity.
           ++ exact Hi'.
           ++ exact Hf'.
           ++ rewrite count_cons, count_app, count_cons, count_nil.
              cbn [is_end_call callback_failed]. lia.
           ++ exact He1.
           ++ exact Hc1.
           ++ intros Hs. specialize (Hs1 Hs). congruence.
           ++ exact Hr1.
        -- right. exists e. repeat split; auto; cbn [List.length]; try lia.
           right. apply in_or_app. right. left. reflexivity.
Qed.

(** ** The intercepted [end] *)

Lemma res_end_first (fuel : nat) (chunk : option string) (s : ResponseManager) :
  isEnded s = false ->
  res_end (S fuel) chunk s =
    (run_callbacks (res_end fuel) (endCallbacks s) ;; forward_end chunk)
      (set_isEnded true s).
Proof.
  intros H. cbn [res_end]. unfold bind at 1. unfold gets. rewrite H.
  reflexivity.
Qed.

Lemma forward_end_spec (chunk : option string) (s : ResponseManager) :
  trace (fst (forward_end chunk s)) = trace s ++ [Real (OriginalEnd (forwarded chunk s))] /\
  isEnded (fst (forward_end chunk s)) = isEnded s /\
  areHeadersSent (fst (forward_end chunk s)) = areHeadersSent s /\
  snd (forward_end chunk s) =
    match res s (transport_calls (trace s)) (OriginalEnd (forwarded chunk s)) with
    | Returns _ => Normal tt
    | Raises e => Throw e
    end.
Proof.
  destruct s as [id en cbs hs tp rhs t].
  unfold forward_end, forwarded.
  cbv [bind gets original ret fst snd headersSent res trace set_trace requestId
       isEnded endCallbacks res_headersSent].
  destruct hs;
    match goal with
    | |- context [tp ?h ?c] => destruct (tp h c)
    end; repeat split; reflexivity.
Qed.

Lemma run_callbacks_app (end_ : option string -> M ResponseManager unit)
    (l1 l2 : list Callback) (s : ResponseManager) :
  run_callbacks end_ (l1 ++ l2) s =
    match run_callbacks end_ l1 s with
    | (s1, Normal _) => run_callbacks end_ l2 s1
    | r => r
    end.
Proof.
  revert s. induction l1 as [|cb l1 IH]; intros s; [reflexivity|].
  cbn [app]. rewrite !run_callbacks_cons.
  destruct (call_callback end_ cb s) as [s1 [u|e|]]; try reflexivity.
  - apply IH.
  - destruct (areHeadersSent s1); [apply IH | reflexivity].
Qed.

(** C3, as the code has it.  The first call of the intercepted [end] sets
    [isEnded] before any callback runs (each callback finds it set), and
    calls the registered callbacks in registration order, each at most once.
    Either every one of them has then run exactly once and [end] forwards to
    the saved [originalEnd], once and after them; or a callback has thrown
    while headers were unsent, and [end] throws that failure without calling
    the remaining callbacks and without forwarding.  From then on, and in
    every state where [isEnded] is set, a call of [end] only logs: it runs no
    callback and forwards nothing. *)
Theorem end_runs_callbacks_in_order
    (s : ResponseManager) (fuel : nat) (chunk : option string) :
  isEnded s = false ->
  2 <= fuel ->
  exists new k,
    trace (fst (res_end fuel chunk s)) = trace s ++ new /\
    isEnded (fst (res_end fuel chunk s)) = true /\
    callback_flags new = repeat true k /\
    callback_ids new = firstn k (map cb_id (endCallbacks s)) /\
    ((k = List.length (endCallbacks s) /\
      exists body d,
        new = body ++ [Real (OriginalEnd d)] /\
        count is_end_call body = 0 /\
        callback_ids body = map cb_id (endCallbacks s))
     \/
     (exists e,
        snd (res_end fuel chunk s) = Throw e /\
        areHeadersSent (fst (res_end fuel chunk s)) = false /\
        In (callback_failed e) new /\
        count is_end_call new = 0)) /\
    (forall s' fuel' chunk',
       isEnded s' = true -> 1 <= fuel' ->
       res_end fuel' chunk' s' =
         (logged (Log Debug "Response already ended, skipping" "") s', Normal tt)).
Proof.
  intros H Hf. destruct fuel as [|fuel]; [lia|].
  assert (Hf' : 1 <= fuel) by lia.
  rewrite res_end_first by exact H.
  destruct (run_callbacks_spec fuel (endCallbacks s) Hf' (set_isEnded true s) eq_refl)
    as (s1 & new & k & c & E & [Lt Li Lf Lx Le Lc Ls Lr] & D).
  unfold bind. rewrite E.
  destruct D as [[-> ->] | (e & -> & Hu & Hk & Hin)].
  - destruct (forward_end_spec chunk s1) as (Ft & Fe & _ & _).
    exists (new ++ [Real (OriginalEnd (forwarded chunk s1))]),
           (List.length (endCallbacks s)).
    assert (Hall : callback_ids new = map cb_id (endCallbacks s)).
    { rewrite Li. cbn [endCallbacks set_isEnded].
      rewrite <- (length_map cb_id). apply firstn_all. }
    split; [rewrite Ft, Lt, app_assoc; reflexivity|].
    split; [rewrite Fe; exact Le|].
    split; [rewrite callback_flags_app, Lf; apply app_nil_r|].
    split.
    { rewrite callback_ids_app, Hall. cbn [callback_ids flat_map app].
      rewrite app_nil_r, <- (length_map cb_id). symmetry. apply firstn_all. }
    split; [|intros s' fuel' chunk' Hs' Hfuel'; apply reentrant_end; assumption].
    left. split; [reflexivity|].
    exists new, (forwarded chunk s1). repeat split; assumption.
  - exists new, k. cbn [fst snd].
    split; [exact Lt|]. split; [exact Le|]. split; [exact Lf|].
    split; [exact Li|].
    split; [|intros s' fuel' chunk' Hs' Hfuel'; apply reentrant_end; assumption].
    right. exists e. repeat split; assumption.
Qed.

Lemma end_runs_callbacks_in_order_witness :
  let s := example_manager example_callbacks in
  exists new k,
    trace (fst (res_end 2 None s)) = trace s ++ new /\
    isEnded (fst (res_end 2 None s)) = true /\
    callback_flags new = repeat true k /\
    callback_ids new = firstn k (map cb_id (endCallbacks s)) /\
    ((k = List.length (endCallbacks s) /\
      exists body d,
        new = body ++ [Real (OriginalEnd d)] /\
        count is_end_call body = 0 /\
        callback_ids body = map cb_id (endCallbacks s))
     \/
     (exists e,
        snd (res_end 2 None s) = Throw e /\
        areHeadersSent (fst (res_end 2 None s)) = false /\
        In (callback_failed e) new /\
        count is_end_call new = 0)) /\
    (forall s' fuel' chunk',
       isEnded s' = true -> 1 <= fuel' ->
       res_end fuel' chunk' s' =
         (logged (Log Debug "Response already ended, skipping" "") s', Normal tt)).
Proof.
  intros s.
  exact (end_runs_callbacks_in_order s 2 None eq_refl (le_n 2)).
Defined.

(** C3 as stated fails: with headers unsent, the first callback's failure
    stops [end]; the second callback never runs and nothing is forwarded to
    the saved [originalEnd]. *)
Lemma failing_callback_stops_end :
  let s := example_manager failing_callbacks in
  callback_ids (trace (after_end 2 None s)) = [0] /\
  callback_ids (trace (after_end 2 None s)) <> map cb_id (endCallbacks s) /\
  count is_end_call (trace (after_end 2 None s)) = 0 /\
  snd (res_end 2 None s) = Throw "boom".
Proof.
  vm_compute. repeat split; try reflexivity. discriminate.
Qed.

(** C6.  Take the first call of [end], and a registered callback the loop
    reaches (the callbacks before it have not stopped the loop) and that
    throws [e].  If headers are unsent when it has thrown, [end] logs the
    failure and throws [e] to its caller.  If headers are sent, [end] logs
    the failure and goes on: the remaining callbacks run, none of their
    failures is thrown either, the saved [originalEnd] is called, and [end]
    returns unless that call itself throws. *)
Theorem callback_failure_policy
    (s s1 s2 : ResponseManager) (fuel : nat) (chunk : option string)
    (before after : list Callback) (cb : Callback) (e : Error) :
  isEnded s = false ->
  1 <= fuel ->
  endCallbacks s = before ++ cb :: after ->
  run_callbacks (res_end fuel) before (set_isEnded true s) = (s1, Normal tt) ->
  call_callback (res_end fuel) cb s1 = (s2, Throw e) ->
  (areHeadersSent s2 = false ->
     res_end (S fuel) chunk s = (logged (callback_failed e) s2, Throw e)) /\
  (areHeadersSent s2 = true ->
     exists s3,
       run_callbacks (res_end fuel) after (logged (callback_failed e) s2)
         = (s3, Normal tt) /\
       res_end (S fuel) chunk s = forward_end chunk s3 /\
       In (callback_failed e) (trace (fst (res_end (S fuel) chunk s))) /\
       snd (res_end (S fuel) chunk s) =
         match res s3 (transport_calls (trace s3)) (OriginalEnd (forwarded chunk s3)) with
         | Returns _ => Normal tt
         | Raises e' => Throw e'
         end).
Proof.
  intros H Hf Hcbs Hbefore Hcb.
  rewrite res_end_first by exact H. rewrite Hcbs.
  unfold bind. rewrite run_callbacks_app, Hbefore, run_callbacks_cons, Hcb.
  split; intros Hsent; rewrite Hsent.
  - reflexivity.
  - assert (He1 : isEnded s1 = true).
    { destruct (run_callbacks_spec fuel before Hf (set_isEnded true s) eq_refl)
        as (x & new & k & c & E & [_ _ _ _ Le _ _ _] & _).
      rewrite Hbefore in E. inversion E. subst. exact Le. }
    assert (He2 : isEnded s2 = true).
    { destruct (call_callback_spec fuel cb s1 Hf He1)
        as (x & n1 & c1 & E1 & _ & _ & _ & _ & He & _).
      rewrite Hcb in E1. inversion E1. subst. exact He. }
    destruct (run_callbacks_spec fuel after Hf (logged (callback_failed e) s2) He2)
      as (s3 & new & k & c & E & [Lt _ _ _ _ _ Ls _] & D).
    destruct D as [[-> ->] | (e' & -> & Hu & _)].
    + exists s3. rewrite E. split; [reflexivity|]. split; [reflexivity|].
      destruct (forward_end_spec chunk s3) as (Ft & _ & _ & Fo).
      split; [|exact Fo].
      rewrite Ft, Lt. unfold logged. cbn [trace set_trace].
      apply in_or_app. left. apply in_or_app. left.
      apply in_or_app. right. left. reflexivity.
    + (* headers stay sent, so no later failure is thrown *)
      rewrite (Ls Hsent) in Hu. discriminate.
Qed.

Lemma callback_failure_policy_witness :
  let s := example_manager example_callbacks in
  exists s3,
    run_callbacks (res_end 1) [mkCallback 2 []]
      (logged (callback_failed "metrics failed")
         (fst (call_callback (res_end 1)
                 (mkCallback 1 [CallWriteHead 200 []; Raise "metrics failed"])
                 (fst (run_callbacks (res_end 1) [mkCallback 0 [CallEnd None]]
                         (set_isEnded true s))))))
      = (s3, Normal tt) /\
    res_end 2 None s = forward_end None s3 /\
    snd (res_end 2 None s) = Normal tt.
Proof.
  intros s.
  destruct (callback_failure_policy s
              (fst (run_callbacks (res_end 1) [mkCallback 0 [CallEnd None]]
                      (set_isEnded true s)))
              (fst (call_callback (res_end 1)
                      (mkCallback 1 [CallWriteHead 200 []; Raise "metrics failed"])
                      (fst (run_callbacks (res_end 1) [mkCallback 0 [CallEnd None]]
                              (set_isEnded true s)))))
              1 None
              [mkCallback 0 [CallEnd None]] [mkCallback 2 []]
              (mkCallback 1 [CallWriteHead 200 []; Raise "metrics failed"])
              "metrics failed"
              eq_refl (le_n 1) eq_refl eq_refl eq_refl) as [_ Hsent].
  destruct (Hsent eq_refl) as (s3 & E & Hend & _ & Hout).
  exists s3. split; [exact E|]. split; [exact Hend|].
  rewrite Hend. vm_compute in E. inversion E. subst s3. reflexivity.
Defined.

(** ** Further properties of [ResponseManager] *)

Import ManagerProps.

(** *** [headersSent] is never cleared *)

Lemma sent_refl (s : ResponseManager) : sent_kept s s.
Proof. intros H. exact H. Qed.

Lemma sent_trans (s1 s2 s3 : ResponseManager) :
  sent_kept s1 s2 -> sent_kept s2 s3 -> sent_kept s1 s3.
Proof. unfold sent_kept. auto. Qed.

Lemma sent_log l m d : keeps sent_kept (log l m d).
Proof. intros s H. exact H. Qed.

Lemma sent_emit e : keeps sent_kept (emit e).
Proof. intros s H. exact H. Qed.

Lemma sent_original c : keeps sent_kept (original c).
Proof.
  intros s H. unfold original.
  destruct (res s (transport_calls (trace s)) c); [destruct c|]; exact H.
Qed.

Lemma sent_writeHead c h : keeps sent_kept (res_writeHead c h).
Proof.
  unfold res_writeHead. apply keeps_bind.
  - apply sent_trans.
  - intros s _. reflexivity.
  - intros _. apply sent_original.
Qed.

Ltac sent_steps :=
  repeat first
    [ assumption
    | apply sent_log | apply sent_emit | apply sent_original | apply sent_writeHead
    | match goal with
      | |- keeps _ (ret _) => apply keeps_ret; apply sent_refl
      | |- keeps _ (throw _) => apply keeps_throw; apply sent_refl
      | |- keeps _ (gets _) => apply keeps_gets; apply sent_refl
      | |- keeps _ (modify _) => intros ? ?; assumption
      | |- keeps _ (bind _ _) => apply keeps_bind; [apply sent_trans | | intros ?]
      | |- keeps _ (try_catch _ _) =>
          apply keeps_try_catch; [apply sent_trans | | intros ?]
      | |- keeps _ (if ?b then _ else _) => destruct b
      end ].

Lemma sent_for_of {A} (body : A -> M ResponseManager unit) (l : list A) :
  (forall a, keeps sent_kept (body a)) -> keeps sent_kept (for_of l body).
Proof.
  intros Hb. induction l as [|a l IH]; cbn [for_of]; sent_steps. apply Hb.
Qed.

Lemma sent_run_callbacks (end_ : option string -> M ResponseManager unit)
    (cbs : list Callback) :
  (forall chunk, keeps sent_kept (end_ chunk)) ->
  keeps sent_kept (run_callbacks end_ cbs).
Proof.
  intros He. unfold run_callbacks. apply sent_for_of. intros cb.
  unfold call_callback. sent_steps.
  apply sent_for_of. intros step. destruct step; cbn [run_step]; sent_steps. apply He.
Qed.

Lemma sent_forward_end chunk : keeps sent_kept (forward_end chunk).
Proof. unfold forward_end. sent_steps. Qed.

Lemma sent_res_end (fuel : nat) :
  forall chunk, keeps sent_kept (res_end fuel chunk).
Proof.
  induction fuel as [|fuel IH]; intros chunk; cbn [res_end].
  - intros s H. exact H.
  - sent_steps.
    + apply sent_run_callbacks. exact IH.
    + apply sent_forward_end.
Qed.

(** X17.  Once the manager has seen [res.writeHead] called, the intercepted
    [end] calls the saved [originalEnd] without arguments: whatever chunk the
    caller passed to [end] is dropped.  In that state no callback failure
    stops the call, so the forward always happens, after the callbacks. *)
Theorem end_drops_chunk_after_headers
    (s : ResponseManager) (fuel : nat) (chunk : option string) :
  isEnded s = false ->
  2 <= fuel ->
  headersSent s = true ->
  exists body,
    trace (fst (res_end fuel chunk s)) = trace s ++ body ++ [Real (OriginalEnd None)] /\
    count is_end_call body = 0 /\
    callback_ids body = map cb_id (endCallbacks s).
Proof.
  intros H Hf Hs. destruct fuel as [|fuel]; [lia|].
  assert (Hf' : 1 <= fuel) by lia.
  rewrite res_end_first by exact H.
  destruct (run_callbacks_spec fuel (endCallbacks s) Hf' (set_isEnded true s) eq_refl)
    as (s1 & new & k & c & E & [Lt Li Lf Lx Le Lc Ls Lr] & D).
  pose proof (sent_run_callbacks (res_end fuel) (endCallbacks s) (sent_res_end fuel)
                (set_isEnded true s) Hs) as Hs1.
  rewrite E in Hs1. cbn [fst] in Hs1.
  assert (Ha : areHeadersSent s1 = true)
    by (unfold areHeadersSent; rewrite Hs1; reflexivity).
  unfold bind. rewrite E.
  destruct D as [[-> ->] | (e & -> & Hu & _)]; [|congruence].
  destruct (forward_end_spec chunk s1) as (Ft & _).
  exists new. split; [|split].
  - rewrite Ft, Lt. unfold forwarded. rewrite Hs1.
    cbn [trace set_isEnded]. rewrite <- app_assoc. reflexivity.
  - exact Lx.
  - rewrite Li. cbn [endCallbacks set_isEnded].
    rewrite <- (length_map cb_id). apply firstn_all.
Qed.

Lemma end_drops_chunk_after_headers_witness :
  let s := fst (res_writeHead 200 [] (example_manager example_callbacks)) in
  exists body,
    trace (fst (res_end 2 (Some "last words") s))
      = trace s ++ body ++ [Real (OriginalEnd None)] /\
    count is_end_call body = 0 /\
    callback_ids body = map cb_id (endCallbacks s).
Proof.
  intros s.
  exact (end_drops_chunk_after_headers s 2 (Some "last words") eq_refl (le_n 2) eq_refl).
Defined.

(** *** Any sequence of operations on a manager *)

Lemma m_evolves_refl (s : ResponseManager) : m_evolves s s.
Proof.
  constructor; auto. exists []. rewrite app_nil_r. split; [reflexivity|].
  intros _. split; reflexivity.
Qed.

Lemma m_evolves_trans (s1 s2 s3 : ResponseManager) :
  m_evolves s1 s2 -> m_evolves s2 s3 -> m_evolves s1 s3.
Proof.
  intros [e1 h1 b1 (n1 & t1 & q1)] [e2 h2 b2 (n2 & t2 & q2)].
  constructor; auto; try lia.
  exists (n1 ++ n2). split; [rewrite t2, t1, app_assoc; reflexivity|].
  intros H. destruct (q1 H) as [a1 a2]. destruct (q2 (e1 H)) as [a3 a4].
  rewrite !count_app. split; lia.
Qed.

Lemma m_evolves_logged (s : ResponseManager) (e : Event) :
  is_callback e = false -> is_end_call e = false ->
  m_evolves s (logged e s).
Proof.
  intros Hc He. constructor; auto.
  - unfold m_end_budget, logged. cbn [trace set_trace isEnded].
    rewrite count_app, count_cons, He, count_nil. lia.
  - exists [e]. split; [reflexivity|]. intros _.
    rewrite !count_cons, Hc, He, count_nil. split; reflexivity.
Qed.

Lemma m_evolves_writeHead (s : ResponseManager) c h :
  m_evolves s (fst ((res_writeHead c h ;; ret tt) s)).
Proof.
  destruct s as [id en cbs hs tp rhs t].
  cbv [res_writeHead bind modify original ret fst snd set_headersSent set_trace
       set_res_headersSent requestId isEnded endCallbacks headersSent res
       res_headersSent trace].
  destruct (tp (transport_calls t) (OriginalWriteHead c h)); cbn [fst];
    (constructor; cbn [isEnded headersSent trace];
     [ auto | auto
     | unfold m_end_budget; cbn [isEnded trace];
       rewrite count_app, count_cons, count_nil; cbn [is_end_call]; lia
     | exists [Real (OriginalWriteHead c h)]; split; [reflexivity|];
       intros _; split; reflexivity ]).
Qed.

Lemma m_evolves_end (s : ResponseManager) (fuel : nat) (chunk : option string) :
  2 <= fuel -> m_evolves s (fst (res_end fuel chunk s)) /\
               isEnded (fst (res_end fuel chunk s)) = true.
Proof.
  intros Hf. destruct (isEnded s) eqn:H.
  - rewrite reentrant_end by (try lia; exact H). cbn [fst].
    split; [apply m_evolves_logged; reflexivity | exact H].
  - pose proof (sent_res_end fuel chunk s) as Hsent.
    destruct fuel as [|fuel]; [lia|].
    assert (Hf' : 1 <= fuel) by lia.
    rewrite res_end_first in * by exact H.
    destruct (run_callbacks_spec fuel (endCallbacks s) Hf' (set_isEnded true s) eq_refl)
      as (s1 & new & k & c & E & [Lt Li Lf Lx Le Lc Ls Lr] & D).
    unfold bind in *. rewrite E in *.
    destruct D as [[-> ->] | (e & -> & Hu & _)].
    + destruct (forward_end_spec chunk s1) as (Ft & Fe & _).
      split; [|rewrite Fe; exact Le].
      constructor.
      * intros _. rewrite Fe. exact Le.
      * exact Hsent.
      * unfold m_end_budget. rewrite Ft, Fe, Le, Lt, H.
        cbn [trace set_isEnded].
        rewrite !count_app, Lx, count_cons, count_nil. cbn [is_end_call]. lia.
      * exists (new ++ [Real (OriginalEnd (forwarded chunk s1))]).
        split; [rewrite Ft, Lt; cbn [trace set_isEnded]; rewrite app_assoc; reflexivity|].
        intros H'. congruence.
    + cbn [fst] in *. split; [|exact Le].
      constructor.
      * intros _. exact Le.
      * exact Hsent.
      * unfold m_end_budget. rewrite Le, Lt, H. cbn [trace set_isEnded].
        rewrite count_app, Lx. lia.
      * exists new. split; [rewrite Lt; reflexivity|].
        intros H'. congruence.
Qed.

Lemma m_evolves_exec (fuel : nat) (o : MOp) (s : ResponseManager) :
  2 <= fuel -> m_evolves s (m_exec fuel o s).
Proof.
  intros Hf. destruct o; unfold m_exec, m_call.
  - apply m_evolves_end. exact Hf.
  - apply m_evolves_writeHead.
  - cbv [onEnd modify fst]. constructor; auto.
    exists []. cbn [trace set_endCallbacks]. rewrite app_nil_r.
    split; [reflexivity|]. intros _. split; reflexivity.
  - cbv [modify fst]. constructor; auto.
    exists []. cbn [trace set_res_headersSent]. rewrite app_nil_r.
    split; [reflexivity|]. intros _. split; reflexivity.
Qed.

Lemma m_evolves_exec_all (fuel : nat) (ops : list MOp) :
  2 <= fuel -> forall s, m_evolves s (m_exec_all fuel ops s).
Proof.
  intros Hf. unfold m_exec_all. induction ops as [|o ops IH]; intros s.
  - apply m_evolves_refl.
  - cbn [fold_left]. apply (m_evolves_trans s (m_exec fuel o s)).
    + apply m_evolves_exec. exact Hf.
    + apply IH.
Qed.

(** X18.  Whatever is done to a response through its manager after
    construction (calls of [end] with any callbacks registered, at any
    moment, header writes, registrations), the saved [originalEnd] is called
    at most once. *)
Theorem manager_forwards_end_at_most_once
    (res0 : Transport) (sent : bool) (id : string) (fuel : nat) (ops : list MOp) :
  2 <= fuel ->
  count is_end_call
    (trace (m_exec_all fuel ops (new_ResponseManager res0 sent id))) <= 1.
Proof.
  intros Hf.
  destruct (m_evolves_exec_all fuel ops Hf (new_ResponseManager res0 sent id))
    as [_ _ Hb _].
  unfold m_end_budget in Hb. cbn [new_ResponseManager isEnded trace] in Hb.
  rewrite count_nil in Hb. lia.
Qed.

Lemma manager_forwards_end_at_most_once_witness :
  count is_end_call
    (trace (m_exec_all 2
              [MOnEnd (mkCallback 0 [CallEnd None]); MEnd (Some "a");
               MEnd (Some "b"); MWriteHead 200 []; MEnd None]
              (new_ResponseManager (fun _ _ => Returns true) false "req-1"))) <= 1.
Proof.
  apply (manager_forwards_end_at_most_once (fun _ _ => Returns true) false "req-1" 2).
  apply le_n.
Defined.

(** *** The registry *)

Lemma registry_refl (s : ResponseManager) : same_registry s s.
Proof. reflexivity. Qed.

Lemma registry_trans (s1 s2 s3 : ResponseManager) :
  same_registry s1 s2 -> same_registry s2 s3 -> same_registry s1 s3.
Proof. unfold same_registry. congruence. Qed.

Lemma registry_log l m d : keeps same_registry (log l m d).
Proof. intros s. reflexivity. Qed.

Lemma registry_emit e : keeps same_registry (emit e).
Proof. intros s. reflexivity. Qed.

Lemma registry_original c : keeps same_registry (original c).
Proof.
  intros s. unfold original.
  destruct (res s (transport_calls (trace s)) c); [destruct c|]; reflexivity.
Qed.

Ltac registry_steps :=
  repeat first
    [ assumption
    | apply registry_log | apply registry_emit | apply registry_original
    | match goal with
      | |- keeps _ (ret _) => apply keeps_ret; apply registry_refl
      | |- keeps _ (throw _) => apply keeps_throw; apply registry_refl
      | |- keeps _ (gets _) => apply keeps_gets; apply registry_refl
      | |- keeps _ (modify (set_isEnded _)) => intros ?; reflexivity
      | |- keeps _ (modify (set_headersSent _)) => intros ?; reflexivity
      | |- keeps _ (modify (set_res_headersSent _)) => intros ?; reflexivity
      | |- keeps _ (bind _ _) => apply keeps_bind; [apply registry_trans | | intros ?]
      | |- keeps _ (try_catch _ _) =>
          apply keeps_try_catch; [apply registry_trans | | intros ?]
      | |- keeps _ (if ?b then _ else _) => destruct b
      end ].

Lemma registry_writeHead c h : keeps same_registry (res_writeHead c h).
Proof. unfold res_writeHead. registry_steps. Qed.

Lemma registry_for_of {A} (body : A -> M ResponseManager unit) (l : list A) :
  (forall a, keeps same_registry (body a)) -> keeps same_registry (for_of l body).
Proof.
  intros Hb. induction l as [|a l IH]; cbn [for_of]; registry_steps. apply Hb.
Qed.

Lemma registry_run_callbacks (end_ : option string -> M ResponseManager unit)
    (cbs : list Callback) :
  (forall chunk, keeps same_registry (end_ chunk)) ->
  keeps same_registry (run_callbacks end_ cbs).
Proof.
  intros He. unfold run_callbacks. apply registry_for_of. intros cb.
  unfold call_callback. registry_steps.
  apply registry_for_of. intros step. destruct step; cbn [run_step]; registry_steps.
  - apply He.
  - apply registry_writeHead.
Qed.

Lemma registry_res_end (fuel : nat) :
  forall chunk, keeps same_registry (res_end fuel chunk).
Proof.
  induction fuel as [|fuel IH]; intros chunk; cbn [res_end].
  - intros s. reflexivity.
  - registry_steps.
    + apply registry_run_callbacks. exact IH.
    + unfold forward_end. registry_steps.
Qed.

Lemma registry_exec (fuel : nat) (o : MOp) (s : ResponseManager) :
  endCallbacks (m_exec fuel o s) = endCallbacks s ++ registered [o].
Proof.
  destruct o; unfold m_exec, m_call; cbn [registered flat_map app];
    rewrite ?app_nil_r.
  - apply registry_res_end.
  - assert (K : keeps same_registry (res_writeHead statusCode headers ;; ret tt))
      by (registry_steps; apply registry_writeHead).
    apply K.
  - reflexivity.
  - reflexivity.
Qed.

Lemma registered_cons (o : MOp) (ops : list MOp) :
  registered (o :: ops) = registered [o] ++ registered ops.
Proof. unfold registered. cbn [flat_map]. rewrite app_nil_r. reflexivity. Qed.

Lemma registry_exec_all (fuel : nat) (ops : list MOp) :
  forall s, endCallbacks (m_exec_all fuel ops s) = endCallbacks s ++ registered ops.
Proof.
  unfold m_exec_all. induction ops as [|o ops IH]; intros s.
  - cbn. rewrite app_nil_r. reflexivity.
  - cbn [fold_left]. rewrite IH, registry_exec, (registered_cons o ops), app_assoc.
    reflexivity.
Qed.

(** X19.  In a state in which the manager's [isEnded] is set, calls of
    [res.end], [res.writeHead] and [manager.onEnd] made one after the other
    from outside the callback loop (that is, once the call of [end] that set
    the flag has returned or thrown) run no callback and never call the saved
    [originalEnd]: each later [end] returns at once, and every callback these
    calls hand to [onEnd] is appended to the registry and stays there
    uncalled.  The statement is about registrations made by such calls only;
    a registration that an end-callback makes while the loop is still
    walking the array is not among them. *)
Theorem ended_manager_is_silent
    (s : ResponseManager) (fuel : nat) (ops : list MOp) :
  isEnded s = true ->
  2 <= fuel ->
  exists new,
    trace (m_exec_all fuel ops s) = trace s ++ new /\
    callback_ids new = [] /\
    count is_end_call new = 0 /\
    endCallbacks (m_exec_all fuel ops s) = endCallbacks s ++ registered ops /\
    isEnded (m_exec_all fuel ops s) = true.
Proof.
  intros H Hf.
  destruct (m_evolves_exec_all fuel ops Hf s) as [He _ _ (new & Ht & Hq)].
  destruct (Hq H) as [Hc Hx]. exists new.
  split; [exact Ht|]. split; [apply no_callback_events; exact Hc|].
  split; [exact Hx|]. split; [apply registry_exec_all | exact (He H)].
Qed.

Lemma ended_manager_is_silent_witness :
  let s := after_end 2 None (example_manager example_callbacks) in
  let late := mkCallback 7 [CallEnd None] in
  let ops := [MOnEnd late; MEnd (Some "again"); MWriteHead 200 []; MEnd None] in
  exists new,
    trace (m_exec_all 2 ops s) = trace s ++ new /\
    callback_ids new = [] /\
    count is_end_call new = 0 /\
    endCallbacks (m_exec_all 2 ops s) = endCallbacks s ++ registered ops /\
    isEnded (m_exec_all 2 ops s) = true.
Proof.
  intros s late ops.
  exact (ended_manager_is_silent s 2 ops eq_refl (le_n 2)).
Defined.

(** X20.  If the first call of the intercepted [end] returns or throws
    without having called the saved [originalEnd] (a callback failed while
    headers were unsent), the flag is set all the same, and no later call of
    [end], by an error handler or anyone else, ever reaches [originalEnd]:
    the response cannot be ended through the manager any more. *)
Theorem end_that_failed_is_final
    (s : ResponseManager) (fuel : nat) (chunk : option string) (ops : list MOp) :
  isEnded s = false ->
  2 <= fuel ->
  count is_end_call (trace (after_end fuel chunk s)) = count is_end_call (trace s) ->
  isEnded (after_end fuel chunk s) = true /\
  count is_end_call (trace (m_exec_all fuel ops (after_end fuel chunk s)))
    = count is_end_call (trace s).
Proof.
  intros H Hf Hnone. unfold after_end in *.
  destruct (m_evolves_end s fuel chunk Hf) as [_ He].
  split; [exact He|].
  destruct (m_evolves_exec_all fuel ops Hf (fst (res_end fuel chunk s)))
    as [_ _ _ (new & Ht & Hq)].
  destruct (Hq He) as [_ Hx]. rewrite Ht, count_app, Hx, Hnone. lia.
Qed.

Lemma end_that_failed_is_final_witness :
  let s := example_manager failing_callbacks in
  let ops := [MWriteHead 500 []; MEnd (Some "error page"); MEnd None] in
  isEnded (after_end 2 None s) = true /\
  count is_end_call (trace (m_exec_all 2 ops (after_end 2 None s)))
    = count is_end_call (trace s).
Proof.
  intros s ops.
  exact (end_that_failed_is_final s 2 None ops eq_refl (le_n 2) eq_refl).
Defined.

(** *** The header shim *)

Lemma shim_calls_cons (s : ResponseManager) c h (args : list (Z * Headers)) :
  run_calls (shim_calls ((c, h) :: args)) s =
  let '(s1, r) := res_writeHead c h s in
  let '(s2, rest) := run_calls (shim_calls args) s1 in
  (s2, r :: rest).
Proof. reflexivity. Qed.

Lemma shim_call (s : ResponseManager) c h :
  trace (fst (res_writeHead c h s)) = trace s ++ [Real (OriginalWriteHead c h)] /\
  headersSent (fst (res_writeHead c h s)) = true /\
  isEnded (fst (res_writeHead c h s)) = isEnded s.
Proof.
  destruct s as [id en cbs hs tp rhs t].
  cbv [res_writeHead bind modify original fst snd set_headersSent set_trace
       set_res_headersSent requestId isEnded endCallbacks headersSent res
       res_headersSent trace].
  destruct (tp (transport_calls t) (OriginalWriteHead c h)); repeat split.
Qed.

(** X21.  The shim the manager installs as [res.writeHead] gates nothing:
    every call, whatever the state (headers already written, response
    already ended), reaches the transport's [writeHead], and [headersSent] is
    set even when that call throws. *)
Theorem shim_passes_every_header_write
    (s : ResponseManager) (args : list (Z * Headers)) :
  exists new,
    trace (fst (run_calls (shim_calls args) s)) = trace s ++ new /\
    count is_writeHead_call new = List.length args /\
    headersSent (fst (run_calls (shim_calls args) s))
      = match args with [] => headersSent s | _ :: _ => true end /\
    isEnded (fst (run_calls (shim_calls args) s)) = isEnded s.
Proof.
  revert s. induction args as [|[c h] args IH]; intros s.
  - exists []. cbn. rewrite app_nil_r. repeat split; congruence.
  - rewrite shim_calls_cons.
    destruct (shim_call s c h) as (Ht & Hs & He).
    destruct (res_writeHead c h s) as [s1 r]. cbn [fst] in *.
    destruct (IH s1) as (new & Ht' & Hn & Hs' & He').
    assert (Hkept : headersSent (fst (run_calls (shim_calls args) s1)) = true).
    { rewrite Hs'. destruct args; [exact Hs | reflexivity]. }
    destruct (run_calls (shim_calls args) s1) as [s2 rest]. cbn [fst] in *.
    exists (Real (OriginalWriteHead c h) :: new).
    split; [rewrite Ht', Ht, <- app_assoc; reflexivity|].
    split; [rewrite count_cons, Hn; reflexivity|].
    split; [exact Hkept | congruence].
Qed.

End ManagerFacts.

(** * The test helpers *)

Module TestUtilsFacts.

Import TestUtils.

Lemma includes_occurs (s sub : string) :
  sub <> EmptyString -> (includes s sub = true <-> occurs_in sub s).
Proof.
  intros Hne. unfold includes, occurs_in.
  destruct (index 0 sub s) as [k|] eqn:E.
  - split; [|reflexivity]. intros _. exists k.
    apply (index_correct1 0). exact E.
  - split; [discriminate|]. intros [k Hk]. exfalso.
    apply (index_correct3 0 k sub s E Hne); [lia | exact Hk].
Qed.

Lemma messages_not_empty (m : string) : In m headerErrorMessages -> m <> EmptyString.
Proof. intros [<-|[<-|[]]]; discriminate. Qed.

Lemma offending_check (a : string) :
  existsb (fun errorMsg => includes a errorMsg) headerErrorMessages = true
  <-> offending (JsString a).
Proof.
  rewrite existsb_exists. unfold offending. split.
  - intros (m & Hin & Hm). exists m. split; [exact Hin|].
    apply includes_occurs; [apply messages_not_empty|]; assumption.
  - intros (m & Hin & Hm). exists m. split; [exact Hin|].
    apply includes_occurs; [apply messages_not_empty|]; assumption.
Qed.

Lemma substring_prefix (m q : string) :
  substring 0 (String.length m) (m ++ q) = m.
Proof.
  induction m as [|c m IH]; cbn.
  - destruct q; reflexivity.
  - rewrite IH. reflexivity.
Qed.

Lemma occurs_in_middle (p m q : string) : occurs_in m (p ++ m ++ q).
Proof.
  exists (String.length p). induction p as [|c p IH]; cbn.
  - apply substring_prefix.
  - exact IH.
Qed.

(** X22.  [assertNoHeaderErrors] returns normally exactly when no string of
    the array contains one of the two header messages at any position;
    elements that are not strings never matter. *)
Theorem assertNoHeaderErrors_passes_iff_clean (assertions : list JsValue) :
  assertNoHeaderErrors assertions = Normal tt
  <-> (forall v, In v assertions -> ~ offending v).
Proof.
  induction assertions as [|[a|] rest IH]; cbn [assertNoHeaderErrors].
  - split; [intros _ v [] | reflexivity].
  - destruct (existsb _ headerErrorMessages) eqn:E.
    + split; [discriminate|]. intros H. exfalso.
      apply (H (JsString a)); [left; reflexivity|].
      apply offending_check. exact E.
    + rewrite IH. split.
      * intros H v [<-|Hin]; [|apply H; exact Hin].
        intros Ho. apply offending_check in Ho. congruence.
      * intros H v Hin. apply H. right. exact Hin.
  - rewrite IH. split.
    + intros H v [<-|Hin]; [intros [] | apply H; exact Hin].
    + intros H v Hin. apply H. right. exact Hin.
Qed.

Lemma assertNoHeaderErrors_passes_iff_clean_witness :
  assertNoHeaderErrors [JsOther; JsString "200 OK"; JsString "headers sent"] = Normal tt.
Proof.
  apply (proj2 (assertNoHeaderErrors_passes_iff_clean
                  [JsOther; JsString "200 OK"; JsString "headers sent"])).
  intros v [<-|[<-|[<-|[]]]]; [intros [] | |];
    intros Ho; apply offending_check in Ho; discriminate Ho.
Defined.

(** X23.  When the array holds an offending string, the error thrown quotes
    the first one in full: the strings before it were checked and passed,
    whatever follows it is not looked at. *)
Theorem assertNoHeaderErrors_reports_first_offender
    (before : list JsValue) (a : string) (rest : list JsValue) :
  (forall v, In v before -> ~ offending v) ->
  offending (JsString a) ->
  assertNoHeaderErrors (before ++ JsString a :: rest)
    = Throw ("Header error detected: " ++ a)%string.
Proof.
  intros Hclean Ha. induction before as [|[b|] before IH]; cbn [app assertNoHeaderErrors].
  - apply offending_check in Ha. rewrite Ha. reflexivity.
  - destruct (existsb _ headerErrorMessages) eqn:E.
    + exfalso. apply (Hclean (JsString b)); [left; reflexivity|].
      apply offending_check. exact E.
    + apply IH. intros v Hin. apply Hclean. right. exact Hin.
  - apply IH. intros v Hin. apply Hclean. right. exact Hin.
Qed.

Lemma assertNoHeaderErrors_reports_first_offender_witness :
  assertNoHeaderErrors
    ([JsOther; JsString "200 OK"]
       ++ JsString "Error: Cannot write headers after they are sent" :: [JsOther])
    = Throw "Header error detected: Error: Cannot write headers after they are sent".
Proof.
  apply (assertNoHeaderErrors_reports_first_offender
           [JsOther; JsString "200 OK"]
           "Error: Cannot write headers after they are sent" [JsOther]).
  - intros v [<-|[<-|[]]]; [intros [] |].
    intros Ho. apply offending_check in Ho. discriminate Ho.
  - apply offending_check. reflexivity.
Defined.

(** X24.  The error the mock response's [writeHead] throws is one that
    [assertNoHeaderErrors] detects, however the message is wrapped: a string
    that carries it anywhere makes the helper throw. *)
Theorem mock_header_error_is_detected (prefix suffix : string) :
  assertNoHeaderErrors [JsString (prefix ++ Mock.header_error ++ suffix)]
    = Throw ("Header error detected: " ++ prefix ++ Mock.header_error ++ suffix)%string.
Proof.
  cbn [assertNoHeaderErrors].
  assert (H : offending (JsString (prefix ++ Mock.header_error ++ suffix))).
  { exists Mock.header_error. split; [left; reflexivity | apply occurs_in_middle]. }
  apply offending_check in H. rewrite H. reflexivity.
Qed.

End TestUtilsFacts.
